(** * Shenandoah generational heap: evacuation, PLAB management and
      generation balancing

    A shallow embedding of
    [src/hotspot/share/gc/shenandoah/shenandoahGenerationalHeap.cpp]
    (product build: [assert]s and [#ifdef ASSERT] blocks are compiled out,
    [size_t] arithmetic wraps modulo 2^64), followed by the properties of
    the evacuation engine, the allocation buffer manager, the generation
    balancer and the cycle completion sequencer. *)

From Stdlib Require Import ZArith Lia Bool List Sorted.
From stdpp Require Import base option list gmap.

Local Open Scope Z_scope.

(** ** Machine arithmetic *)

Module SizeT.

Definition modulus : Z := 2 ^ 64.
Definition half_modulus : Z := 2 ^ 63.

(** A value of type [size_t] / [uintx]. *)
Definition in_range (x : Z) : Prop := 0 <= x < modulus.

(** Conversion to [size_t]: reduction modulo 2^64. *)
Definition wrap (x : Z) : Z := x mod modulus.

Definition add (a b : Z) : Z := wrap (a + b).
Definition sub (a b : Z) : Z := wrap (a - b).
Definition mul (a b : Z) : Z := wrap (a * b).

(** [static_cast<ssize_t>], which is what [checked_cast<ssize_t>] is once
    its debug-only check is compiled out. *)
Definition to_ssize_t (x : Z) : Z :=
  let y := wrap x in if y <? half_modulus then y else y - modulus.

(** Subtraction in [ssize_t]. *)
Definition ssub (a b : Z) : Z := to_ssize_t (a - b).

(** [MIN2] *)
Definition MIN2 (a b : Z) : Z := if a <? b then a else b.

(** [align_down] and [align_up] of utilities/align.hpp, for an alignment
    that is a power of two. *)
Definition align_down (size alignment : Z) : Z :=
  Z.land (wrap size) (wrap (Z.lnot (alignment - 1))).
Definition align_up (size alignment : Z) : Z :=
  align_down (size + (alignment - 1)) alignment.

End SizeT.

(** Arithmetic on [uint] (region and object ages). *)
Module UInt.

Definition modulus : Z := 2 ^ 32.
Definition wrap (x : Z) : Z := x mod modulus.
Definition add (a b : Z) : Z := wrap (a + b).

End UInt.

Import SizeT.

(** [nullptr] for [HeapWord*] and [oop]; addresses count heap words. *)
Definition nullptr : Z := 0.

(** ** Configuration *)

(** The VM flags and heap constants the file reads.  The two waste factors
    are [double]s in the VM; what the code uses of them is the map
    [x |-> (size_t)(x * factor)], which is what the record holds.
    [plab_min_size] and [plab_max_size] are the heap's [_min_plab_size] and
    [_max_plab_size]; [PLAB_min_size] is [PLAB::min_size()]. *)
Record Flags := {
  ShenandoahEvacReserve : Z;
  ShenandoahOldEvacRatioPercent : Z;
  times_ShenandoahOldEvacWaste : Z -> Z;
  times_ShenandoahPromoEvacWaste : Z -> Z;
  region_size_bytes : Z;
  heap_base : Z;
  HeapWordSize : Z;
  card_size_in_words : Z;
  PLAB_min_size : Z;
  plab_min_size : Z;
  plab_max_size : Z;
  UseTLAB : bool;
  ShenandoahGenerationalCensusAtEvac : bool;
  ShenandoahGenerationalAdaptiveTenuring : bool
}.

(** ** Generations *)

(** What the file reads and writes of [ShenandoahOldGeneration]. *)
Record ShenandoahOldGeneration := {
  old_available : Z;
  old_free_unaffiliated_regions : Z;
  old_has_unprocessed_collection_candidates : bool;
  old_unprocessed_collection_candidates_live_memory : Z;
  old_promotion_potential : Z;
  old_region_balance : Z;
  old_evacuation_reserve : Z;
  old_promoted_reserve : Z;
  old_parseable : bool
}.

(** What the file reads and writes of [ShenandoahYoungGeneration]. *)
Record ShenandoahYoungGeneration := {
  young_max_capacity : Z;
  young_evacuation_reserve : Z
}.

Definition set_region_balance (b : Z) (g : ShenandoahOldGeneration) : ShenandoahOldGeneration :=
  {| old_available := old_available g;
     old_free_unaffiliated_regions := old_free_unaffiliated_regions g;
     old_has_unprocessed_collection_candidates := old_has_unprocessed_collection_candidates g;
     old_unprocessed_collection_candidates_live_memory := old_unprocessed_collection_candidates_live_memory g;
     old_promotion_potential := old_promotion_potential g;
     old_region_balance := b;
     old_evacuation_reserve := old_evacuation_reserve g;
     old_promoted_reserve := old_promoted_reserve g;
     old_parseable := old_parseable g |}.

Definition set_parseable (b : bool) (g : ShenandoahOldGeneration) : ShenandoahOldGeneration :=
  {| old_available := old_available g;
     old_free_unaffiliated_regions := old_free_unaffiliated_regions g;
     old_has_unprocessed_collection_candidates := old_has_unprocessed_collection_candidates g;
     old_unprocessed_collection_candidates_live_memory := old_unprocessed_collection_candidates_live_memory g;
     old_promotion_potential := old_promotion_potential g;
     old_region_balance := old_region_balance g;
     old_evacuation_reserve := old_evacuation_reserve g;
     old_promoted_reserve := old_promoted_reserve g;
     old_parseable := b |}.

Definition set_old_evacuation_reserve (r : Z) (g : ShenandoahOldGeneration) : ShenandoahOldGeneration :=
  {| old_available := old_available g;
     old_free_unaffiliated_regions := old_free_unaffiliated_regions g;
     old_has_unprocessed_collection_candidates := old_has_unprocessed_collection_candidates g;
     old_unprocessed_collection_candidates_live_memory := old_unprocessed_collection_candidates_live_memory g;
     old_promotion_potential := old_promotion_potential g;
     old_region_balance := old_region_balance g;
     old_evacuation_reserve := r;
     old_promoted_reserve := old_promoted_reserve g;
     old_parseable := old_parseable g |}.

Definition set_promoted_reserve (r : Z) (g : ShenandoahOldGeneration) : ShenandoahOldGeneration :=
  {| old_available := old_available g;
     old_free_unaffiliated_regions := old_free_unaffiliated_regions g;
     old_has_unprocessed_collection_candidates := old_has_unprocessed_collection_candidates g;
     old_unprocessed_collection_candidates_live_memory := old_unprocessed_collection_candidates_live_memory g;
     old_promotion_potential := old_promotion_potential g;
     old_region_balance := old_region_balance g;
     old_evacuation_reserve := old_evacuation_reserve g;
     old_promoted_reserve := r;
     old_parseable := old_parseable g |}.

Definition set_young_evacuation_reserve (r : Z) (g : ShenandoahYoungGeneration) : ShenandoahYoungGeneration :=
  {| young_max_capacity := young_max_capacity g; young_evacuation_reserve := r |}.

(** ** The generation balancer *)

Section Balancer.

Variable fl : Flags.

(** [max_old_reserve] of [compute_old_generation_balance]. *)
Definition max_old_reserve (old_avail old_xfer_limit young_reserve : Z) : Z :=
  let bound_on_old_reserve := add (add old_avail old_xfer_limit) young_reserve in
  if ShenandoahOldEvacRatioPercent fl =? 100
  then bound_on_old_reserve
  else MIN2 (mul young_reserve (ShenandoahOldEvacRatioPercent fl)
               / sub 100 (ShenandoahOldEvacRatioPercent fl))
            bound_on_old_reserve.

(** [reserve_for_mixed] of [compute_old_generation_balance]. *)
Definition reserve_for_mixed (old : ShenandoahOldGeneration) (max_reserve : Z) : Z :=
  if old_has_unprocessed_collection_candidates old then
    let max_evac_need :=
      wrap (times_ShenandoahOldEvacWaste fl
              (old_unprocessed_collection_candidates_live_memory old)) in
    let old_fragmented_available :=
      sub (old_available old)
          (mul (old_free_unaffiliated_regions old) (region_size_bytes fl)) in
    let r := add max_evac_need old_fragmented_available in
    if max_reserve <? r then max_reserve else r
  else 0.

(** [reserve_for_promo] of [compute_old_generation_balance]. *)
Definition reserve_for_promo (old : ShenandoahOldGeneration) (max_reserve mixed : Z) : Z :=
  let promo_load := old_promotion_potential old in
  if 0 <? promo_load then
    let available_for_promotions := sub max_reserve mixed in
    MIN2 (wrap (times_ShenandoahPromoEvacWaste fl promo_load)) available_for_promotions
  else 0.

(** [ShenandoahGenerationalHeap::compute_old_generation_balance]: the old
    generation after the call (only its region balance is written). *)
Definition compute_old_generation_balance
    (young : ShenandoahYoungGeneration) (old : ShenandoahOldGeneration)
    (old_xfer_limit old_cset_regions : Z) : ShenandoahOldGeneration :=
  let old_avail := old_available old in
  let young_reserve := mul (young_max_capacity young) (ShenandoahEvacReserve fl) / 100 in
  let max_reserve := max_old_reserve old_avail old_xfer_limit young_reserve in
  let rsb := region_size_bytes fl in
  let mixed := reserve_for_mixed old max_reserve in
  let promo := reserve_for_promo old max_reserve mixed in
  let old_reserve := add mixed promo in
  let max_old_available := add (old_available old) (mul old_cset_regions rsb) in
  if old_reserve <=? max_old_available then
    let old_surplus := sub max_old_available old_reserve / rsb in
    let unaffiliated_old_regions := add (old_free_unaffiliated_regions old) old_cset_regions in
    let old_region_surplus := MIN2 old_surplus unaffiliated_old_regions in
    set_region_balance (to_ssize_t old_region_surplus) old
  else
    let old_need := sub (add (sub old_reserve max_old_available) rsb) 1 / rsb in
    let max_old_region_xfer := old_xfer_limit / rsb in
    let old_region_deficit := MIN2 old_need max_old_region_xfer in
    set_region_balance (ssub 0 (to_ssize_t old_region_deficit)) old.

(** The balance-sign property as the specification words it: a transfer
    towards old is bounded by the transfer limit and by the number of
    unaffiliated old regions plus those of the outgoing collection set. *)
Definition balance_sign_as_specified
    (young : ShenandoahYoungGeneration) (old : ShenandoahOldGeneration)
    (old_xfer_limit old_cset_regions : Z) : Prop :=
  let b := old_region_balance
             (compute_old_generation_balance young old old_xfer_limit old_cset_regions) in
  (b < 0 -> - b <= old_xfer_limit / region_size_bytes fl) /\
  (b < 0 -> - b <= old_free_unaffiliated_regions old + old_cset_regions).

End Balancer.

(** ** Regions, mark words and objects *)

Inductive ShenandoahAffiliation := FREE | YOUNG_GENERATION | OLD_GENERATION.

Definition affiliation_eqb (a b : ShenandoahAffiliation) : bool :=
  match a, b with
  | FREE, FREE | YOUNG_GENERATION, YOUNG_GENERATION | OLD_GENERATION, OLD_GENERATION => true
  | _, _ => false
  end.

(** What the file reads and writes of a [ShenandoahHeapRegion].
    [r_coalesced] records that [oop_coalesce_and_fill] ran over the region. *)
Record ShenandoahHeapRegion := {
  r_affiliation : ShenandoahAffiliation;
  r_age : Z;
  r_is_active : bool;
  r_is_humongous : bool;
  r_coalesced : bool
}.

Definition is_young (r : ShenandoahHeapRegion) : bool :=
  affiliation_eqb (r_affiliation r) YOUNG_GENERATION.
Definition is_old (r : ShenandoahHeapRegion) : bool :=
  affiliation_eqb (r_affiliation r) OLD_GENERATION.

(** The three states of a mark word the file tells apart: a plain header
    carrying the age bits, a header displaced by a lock or a monitor
    ([has_displaced_mark_helper]), and a forwarding pointer ([is_marked]). *)
Inductive markWord :=
| mark_neutral (age : Z)
| mark_displaced (age_bits : Z)
| mark_forwarded (forwardee : Z).

Definition is_marked (m : markWord) : bool :=
  match m with mark_forwarded _ => true | _ => false end.
Definition has_displaced_mark_helper (m : markWord) : bool :=
  match m with mark_displaced _ => true | _ => false end.
Definition mark_age (m : markWord) : Z :=
  match m with mark_neutral a => a | mark_displaced a => a | mark_forwarded _ => 0 end.

(** An object header in the heap: mark word, size in words, and whether the
    object is a filler (padding) object. *)
Record oopDesc := {
  obj_mark : markWord;
  obj_size : Z;
  obj_is_filler : bool
}.

Definition set_mark (m : markWord) (o : oopDesc) : oopDesc :=
  {| obj_mark := m; obj_size := obj_size o; obj_is_filler := obj_is_filler o |}.

Definition filler_object (size : Z) : oopDesc :=
  {| obj_mark := mark_neutral 0; obj_size := size; obj_is_filler := true |}.

(** ** Allocation buffers *)

(** Modelled from the spec: the [PLAB] class (gc/shared/plab.hpp) is not
    part of this file.  A thread-local span used to bump-allocate copies:
    base, allocation pointer and end, plus the words lost to padding. *)
Record PLAB := {
  plab_bottom : Z;
  plab_top : Z;
  plab_end : Z;
  plab_wasted : Z;
  plab_undo_wasted : Z
}.

Module Plab.

Definition words_remaining (b : PLAB) : Z := plab_end b - plab_top b.
Definition waste (b : PLAB) : Z := plab_wasted b.
Definition top (b : PLAB) : Z := plab_top b.
Definition contains (b : PLAB) (addr : Z) : bool :=
  (plab_bottom b <=? addr) && (addr <? plab_end b).

(** Bump allocation: the address of the new block and the buffer after the
    call, or [nullptr] and the buffer unchanged. *)
Definition allocate (b : PLAB) (word_sz : Z) : Z * PLAB :=
  if word_sz <=? words_remaining b then
    (plab_top b,
     {| plab_bottom := plab_bottom b; plab_top := plab_top b + word_sz;
        plab_end := plab_end b; plab_wasted := plab_wasted b;
        plab_undo_wasted := plab_undo_wasted b |})
  else (nullptr, b).

(** Rolling the allocation pointer back to [obj]. *)
Definition undo_last_allocation (b : PLAB) (obj : Z) : PLAB :=
  {| plab_bottom := plab_bottom b; plab_top := obj;
     plab_end := plab_end b; plab_wasted := plab_wasted b;
     plab_undo_wasted := plab_undo_wasted b |}.

Definition add_undo_waste (b : PLAB) (word_sz : Z) : PLAB :=
  {| plab_bottom := plab_bottom b; plab_top := plab_top b;
     plab_end := plab_end b; plab_wasted := plab_wasted b;
     plab_undo_wasted := plab_undo_wasted b + word_sz |}.

(** Retirement: the unused tail is accounted as waste and the buffer is
    left empty. *)
Definition retire (b : PLAB) : PLAB :=
  if plab_top b <? plab_end b then
    {| plab_bottom := plab_end b; plab_top := plab_end b;
       plab_end := plab_end b; plab_wasted := plab_wasted b + (plab_end b - plab_top b);
       plab_undo_wasted := plab_undo_wasted b |}
  else b.

Definition set_buf (b : PLAB) (buf new_word_sz : Z) : PLAB :=
  {| plab_bottom := buf; plab_top := buf;
     plab_end := buf + new_word_sz; plab_wasted := plab_wasted b;
     plab_undo_wasted := plab_undo_wasted b |}.

End Plab.

(** ** Thread-local data *)

(** The fields of [ShenandoahThreadLocalData] the file reads and writes.
    A thread without a GCLAB or PLAB has [None] there. *)
Record ThreadLocalData := {
  oom_during_evac : bool;
  gclab : option PLAB;
  gclab_size : Z;
  plab : option PLAB;
  plab_size : Z;
  plab_promoted : Z;
  plab_actual_size : Z;
  allow_plab_promotions : bool;
  plab_retries_enabled : bool
}.

Definition set_oom_during_evac (v : bool) (t : ThreadLocalData) : ThreadLocalData :=
  {| oom_during_evac := v; gclab := gclab t; gclab_size := gclab_size t;
     plab := plab t; plab_size := plab_size t; plab_promoted := plab_promoted t;
     plab_actual_size := plab_actual_size t;
     allow_plab_promotions := allow_plab_promotions t;
     plab_retries_enabled := plab_retries_enabled t |}.

Definition tld_set_gclab (v : option PLAB) (t : ThreadLocalData) : ThreadLocalData :=
  {| oom_during_evac := oom_during_evac t; gclab := v; gclab_size := gclab_size t;
     plab := plab t; plab_size := plab_size t; plab_promoted := plab_promoted t;
     plab_actual_size := plab_actual_size t;
     allow_plab_promotions := allow_plab_promotions t;
     plab_retries_enabled := plab_retries_enabled t |}.

Definition tld_set_gclab_size (v : Z) (t : ThreadLocalData) : ThreadLocalData :=
  {| oom_during_evac := oom_during_evac t; gclab := gclab t; gclab_size := v;
     plab := plab t; plab_size := plab_size t; plab_promoted := plab_promoted t;
     plab_actual_size := plab_actual_size t;
     allow_plab_promotions := allow_plab_promotions t;
     plab_retries_enabled := plab_retries_enabled t |}.

Definition tld_set_plab (v : option PLAB) (t : ThreadLocalData) : ThreadLocalData :=
  {| oom_during_evac := oom_during_evac t; gclab := gclab t; gclab_size := gclab_size t;
     plab := v; plab_size := plab_size t; plab_promoted := plab_promoted t;
     plab_actual_size := plab_actual_size t;
     allow_plab_promotions := allow_plab_promotions t;
     plab_retries_enabled := plab_retries_enabled t |}.

Definition tld_set_plab_size (v : Z) (t : ThreadLocalData) : ThreadLocalData :=
  {| oom_during_evac := oom_during_evac t; gclab := gclab t; gclab_size := gclab_size t;
     plab := plab t; plab_size := v; plab_promoted := plab_promoted t;
     plab_actual_size := plab_actual_size t;
     allow_plab_promotions := allow_plab_promotions t;
     plab_retries_enabled := plab_retries_enabled t |}.

Definition tld_set_plab_promoted (v : Z) (t : ThreadLocalData) : ThreadLocalData :=
  {| oom_during_evac := oom_during_evac t; gclab := gclab t; gclab_size := gclab_size t;
     plab := plab t; plab_size := plab_size t; plab_promoted := v;
     plab_actual_size := plab_actual_size t;
     allow_plab_promotions := allow_plab_promotions t;
     plab_retries_enabled := plab_retries_enabled t |}.

Definition tld_set_plab_actual_size (v : Z) (t : ThreadLocalData) : ThreadLocalData :=
  {| oom_during_evac := oom_during_evac t; gclab := gclab t; gclab_size := gclab_size t;
     plab := plab t; plab_size := plab_size t; plab_promoted := plab_promoted t;
     plab_actual_size := v;
     allow_plab_promotions := allow_plab_promotions t;
     plab_retries_enabled := plab_retries_enabled t |}.

Definition tld_set_allow_plab_promotions (v : bool) (t : ThreadLocalData) : ThreadLocalData :=
  {| oom_during_evac := oom_during_evac t; gclab := gclab t; gclab_size := gclab_size t;
     plab := plab t; plab_size := plab_size t; plab_promoted := plab_promoted t;
     plab_actual_size := plab_actual_size t;
     allow_plab_promotions := v;
     plab_retries_enabled := plab_retries_enabled t |}.

Definition tld_set_plab_retries_enabled (v : bool) (t : ThreadLocalData) : ThreadLocalData :=
  {| oom_during_evac := oom_during_evac t; gclab := gclab t; gclab_size := gclab_size t;
     plab := plab t; plab_size := plab_size t; plab_promoted := plab_promoted t;
     plab_actual_size := plab_actual_size t;
     allow_plab_promotions := allow_plab_promotions t;
     plab_retries_enabled := v |}.

(** ** Collaborators and the heap state *)

(** Requests to the shared allocator built in this file. *)
Inductive ShenandoahAllocRequest :=
| for_shared_gc (size : Z) (target_gen : ShenandoahAffiliation) (is_promotion : bool)
| for_plab (min_size word_size : Z).

(** Calls into collaborators that have no result the file looks at; the
    trace keeps them, newest first. *)
Inductive Event :=
| allocate_memory_called (req : ShenandoahAllocRequest)
| handle_failed_promotion (size : Z)
| handle_failed_evacuation
| handle_alloc_failure_evac (size : Z)
| handle_out_of_memory_during_evacuation
| begin_evacuation (bytes : Z)
| end_evacuation (bytes : Z)
| handle_evacuation (copy size : Z) (from_young : bool)
| record_age (bytes age : Z)
| unexpend_promoted (bytes : Z)
| register_object_without_lock (addr : Z)
| transfer_pointers_from_satb
| transfer_to_young (regions : Z)
| transfer_to_old (regions : Z)
| handle_failed_transfer
| coalesce_and_fill_task_run (concurrent : bool).

(** The answer of the shared allocator to one request: the address granted
    ([nullptr] on failure), the granted size, and what it sets of the
    requesting thread's promotion accounting. *)
Record AllocResponse := {
  resp_result : Z;
  resp_actual_size : Z;
  resp_allow_plab_promotions : option bool;
  resp_plab_actual_size : option Z;
  resp_plab_promoted : option Z
}.

(** The outcome of one GCLAB slow path: the address ([nullptr] on failure),
    the buffer and the preferred size it leaves behind. *)
Record GclabResponse := {
  gresp_result : Z;
  gresp_gclab : PLAB;
  gresp_gclab_size : Z
}.

Inductive GenerationType := YOUNG | OLD | GLOBAL.

(** The heap as this file sees it.  The three tapes hold the answers of the
    collaborators (shared allocator, GCLAB slow path, generation sizer) to
    the calls still to come; an empty tape answers with failure. *)
Record World := {
  tld : ThreadLocalData;
  mem : gmap Z oopDesc;
  regions : list ShenandoahHeapRegion;
  old_generation : ShenandoahOldGeneration;
  young_generation : ShenandoahYoungGeneration;
  active_generation : GenerationType;
  is_aging_cycle : bool;
  tenuring_threshold : Z;
  is_concurrent_old_mark_in_progress : bool;
  alloc_tape : list AllocResponse;
  gclab_tape : list GclabResponse;
  transfer_tape : list bool;
  trace : list Event
}.

Definition set_tld (v : ThreadLocalData) (w : World) : World :=
  {| tld := v; mem := mem w; regions := regions w;
     old_generation := old_generation w; young_generation := young_generation w;
     active_generation := active_generation w; is_aging_cycle := is_aging_cycle w;
     tenuring_threshold := tenuring_threshold w;
     is_concurrent_old_mark_in_progress := is_concurrent_old_mark_in_progress w;
     alloc_tape := alloc_tape w; gclab_tape := gclab_tape w;
     transfer_tape := transfer_tape w; trace := trace w |}.

Definition set_mem (v : gmap Z oopDesc) (w : World) : World :=
  {| tld := tld w; mem := v; regions := regions w;
     old_generation := old_generation w; young_generation := young_generation w;
     active_generation := active_generation w; is_aging_cycle := is_aging_cycle w;
     tenuring_threshold := tenuring_threshold w;
     is_concurrent_old_mark_in_progress := is_concurrent_old_mark_in_progress w;
     alloc_tape := alloc_tape w; gclab_tape := gclab_tape w;
     transfer_tape := transfer_tape w; trace := trace w |}.

Definition set_regions (v : list ShenandoahHeapRegion) (w : World) : World :=
  {| tld := tld w; mem := mem w; regions := v;
     old_generation := old_generation w; young_generation := young_generation w;
     active_generation := active_generation w; is_aging_cycle := is_aging_cycle w;
     tenuring_threshold := tenuring_threshold w;
     is_concurrent_old_mark_in_progress := is_concurrent_old_mark_in_progress w;
     alloc_tape := alloc_tape w; gclab_tape := gclab_tape w;
     transfer_tape := transfer_tape w; trace := trace w |}.

Definition set_old_generation (v : ShenandoahOldGeneration) (w : World) : World :=
  {| tld := tld w; mem := mem w; regions := regions w;
     old_generation := v; young_generation := young_generation w;
     active_generation := active_generation w; is_aging_cycle := is_aging_cycle w;
     tenuring_threshold := tenuring_threshold w;
     is_concurrent_old_mark_in_progress := is_concurrent_old_mark_in_progress w;
     alloc_tape := alloc_tape w; gclab_tape := gclab_tape w;
     transfer_tape := transfer_tape w; trace := trace w |}.

Definition set_young_generation (v : ShenandoahYoungGeneration) (w : World) : World :=
  {| tld := tld w; mem := mem w; regions := regions w;
     old_generation := old_generation w; young_generation := v;
     active_generation := active_generation w; is_aging_cycle := is_aging_cycle w;
     tenuring_threshold := tenuring_threshold w;
     is_concurrent_old_mark_in_progress := is_concurrent_old_mark_in_progress w;
     alloc_tape := alloc_tape w; gclab_tape := gclab_tape w;
     transfer_tape := transfer_tape w; trace := trace w |}.

Definition set_alloc_tape (v : list AllocResponse) (w : World) : World :=
  {| tld := tld w; mem := mem w; regions := regions w;
     old_generation := old_generation w; young_generation := young_generation w;
     active_generation := active_generation w; is_aging_cycle := is_aging_cycle w;
     tenuring_threshold := tenuring_threshold w;
     is_concurrent_old_mark_in_progress := is_concurrent_old_mark_in_progress w;
     alloc_tape := v; gclab_tape := gclab_tape w;
     transfer_tape := transfer_tape w; trace := trace w |}.

Definition set_gclab_tape (v : list GclabResponse) (w : World) : World :=
  {| tld := tld w; mem := mem w; regions := regions w;
     old_generation := old_generation w; young_generation := young_generation w;
     active_generation := active_generation w; is_aging_cycle := is_aging_cycle w;
     tenuring_threshold := tenuring_threshold w;
     is_concurrent_old_mark_in_progress := is_concurrent_old_mark_in_progress w;
     alloc_tape := alloc_tape w; gclab_tape := v;
     transfer_tape := transfer_tape w; trace := trace w |}.

Definition set_transfer_tape (v : list bool) (w : World) : World :=
  {| tld := tld w; mem := mem w; regions := regions w;
     old_generation := old_generation w; young_generation := young_generation w;
     active_generation := active_generation w; is_aging_cycle := is_aging_cycle w;
     tenuring_threshold := tenuring_threshold w;
     is_concurrent_old_mark_in_progress := is_concurrent_old_mark_in_progress w;
     alloc_tape := alloc_tape w; gclab_tape := gclab_tape w;
     transfer_tape := v; trace := trace w |}.

Definition set_trace (v : list Event) (w : World) : World :=
  {| tld := tld w; mem := mem w; regions := regions w;
     old_generation := old_generation w; young_generation := young_generation w;
     active_generation := active_generation w; is_aging_cycle := is_aging_cycle w;
     tenuring_threshold := tenuring_threshold w;
     is_concurrent_old_mark_in_progress := is_concurrent_old_mark_in_progress w;
     alloc_tape := alloc_tape w; gclab_tape := gclab_tape w;
     transfer_tape := transfer_tape w; trace := v |}.

(** ** The heap monad

    A computation takes the heap to a result and a new heap, or stops the
    VM ([None]: [ShouldNotReachHere], or a dereference of a null buffer or
    of an address that holds no object). *)
Definition M (A : Type) : Type := World -> option (A * World).

Definition ret {A} (a : A) : M A := fun w => Some (a, w).
Definition bind {A B} (m : M A) (k : A -> M B) : M B :=
  fun w => match m w with Some (a, w') => k a w' | None => None end.
Definition ShouldNotReachHere {A} : M A := fun _ => None.

Declare Scope heap_scope.
Delimit Scope heap_scope with heap.
Notation "'let*' x := m 'in' k" := (bind m (fun x => k))
  (at level 10, x name, m at level 100, k at level 200) : heap_scope.
Notation "'let*' ' pat := m 'in' k" := (bind m (fun x => match x with pat => k end))
  (at level 10, pat pattern, m at level 100, k at level 200) : heap_scope.
Notation "m ';;;' k" := (bind m (fun _ => k))
  (at level 100, k at level 200, right associativity) : heap_scope.
Local Open Scope heap_scope.

Definition get_tld : M ThreadLocalData := fun w => Some (tld w, w).
Definition modify_tld (f : ThreadLocalData -> ThreadLocalData) : M unit :=
  fun w => Some (tt, set_tld (f (tld w)) w).
Definition get_world : M World := fun w => Some (w, w).
Definition modify_old_generation (f : ShenandoahOldGeneration -> ShenandoahOldGeneration) : M unit :=
  fun w => Some (tt, set_old_generation (f (old_generation w)) w).
Definition modify_young_generation (f : ShenandoahYoungGeneration -> ShenandoahYoungGeneration) : M unit :=
  fun w => Some (tt, set_young_generation (f (young_generation w)) w).
Definition emit (e : Event) : M unit :=
  fun w => Some (tt, set_trace (e :: trace w) w).

(** Reading and writing the object at an address. *)
Definition object_at (p : Z) : M oopDesc :=
  fun w => match mem w !! p with Some o => Some (o, w) | None => None end.
Definition store_object (p : Z) (o : oopDesc) : M unit :=
  fun w => Some (tt, set_mem (<[p := o]> (mem w)) w).

(** Modelled from the spec: [CollectedHeap::fill_with_object] is not part of
    this file: the words are overwritten with a filler (padding) object. *)
Definition fill_with_object (start words : Z) : M unit :=
  store_object start (filler_object words).

(** The thread's PLAB, dereferenced. *)
Definition the_plab : M PLAB :=
  fun w => match plab (tld w) with Some b => Some (b, w) | None => None end.
Definition the_gclab : M PLAB :=
  fun w => match gclab (tld w) with Some b => Some (b, w) | None => None end.

(** ** The allocation buffer manager *)

Section Heap.

Variable fl : Flags.

(** Modelled from the spec: [ShenandoahHeap::allocate_memory], the shared
    allocator, is not part of this file: [allocate(request) -> address |
    failure], with [request.actual_size()] the granted size.  Its answer is
    read off the tape; while it serves a request it may set the promotion
    accounting of the requesting thread, as the comments in
    [allocate_from_plab_slow] and [allocate_new_plab] say. *)
Definition apply_response (r : AllocResponse) (t : ThreadLocalData) : ThreadLocalData :=
  let t1 := match resp_plab_promoted r with
            | Some v => tld_set_plab_promoted v t | None => t end in
  let t2 := match resp_plab_actual_size r with
            | Some v => tld_set_plab_actual_size v t1 | None => t1 end in
  match resp_allow_plab_promotions r with
  | Some v => tld_set_allow_plab_promotions v t2 | None => t2 end.

Definition allocate_memory (req : ShenandoahAllocRequest) : M (Z * Z) :=
  fun w =>
    let w1 := set_trace (allocate_memory_called req :: trace w) w in
    match alloc_tape w1 with
    | [] => Some ((nullptr, 0), w1)
    | r :: rest =>
        Some ((resp_result r, resp_actual_size r),
              set_tld (apply_response r (tld w1)) (set_alloc_tape rest w1))
    end.

(** Modelled from the spec: [ShenandoahHeap::allocate_from_gclab] lives in
    shenandoahHeap.inline.hpp, which is not part of this file: bump-allocate
    from the thread's young buffer when it has one, else take the slow path,
    whose outcome is the collaborator's. *)
Definition allocate_from_gclab_slow (size : Z) : M Z :=
  fun w =>
    match gclab_tape w with
    | [] => Some (nullptr, w)
    | r :: rest =>
        Some (gresp_result r,
              set_tld (tld_set_gclab_size (gresp_gclab_size r)
                         (tld_set_gclab (Some (gresp_gclab r)) (tld w)))
                      (set_gclab_tape rest w))
    end.

Definition allocate_from_gclab (size : Z) : M Z :=
  let* t := get_tld in
  match gclab t with
  | None => ret nullptr
  | Some g =>
      let '(obj, g') := Plab.allocate g size in
      if obj =? nullptr then allocate_from_gclab_slow size
      else modify_tld (tld_set_gclab (Some g')) ;;; ret obj
  end.

(** Modelled from the spec: [heap_region_index_containing] and [is_in_old]
    are not part of this file: regions are fixed-size contiguous spans, and
    an address is in old when the region holding it is affiliated old. *)
Definition heap_region_index_containing (addr : Z) : Z :=
  (addr - heap_base fl) / (region_size_bytes fl / HeapWordSize fl).

Definition region_at (w : World) (idx : Z) : option ShenandoahHeapRegion :=
  if idx <? 0 then None else regions w !! Z.to_nat idx.

Definition is_in_old (w : World) (addr : Z) : bool :=
  match region_at w (heap_region_index_containing addr) with
  | Some r => is_old r
  | None => false
  end.

(** [ShenandoahGenerationalHeap::retire_plab], the two-argument overload. *)
Definition retire_plab : M unit :=
  let* t := get_tld in
  let not_promoted := sub (plab_actual_size t) (plab_promoted t) in
  modify_tld (tld_set_plab_promoted 0) ;;;
  modify_tld (tld_set_plab_actual_size 0) ;;;
  (if 0 <? not_promoted then emit (unexpend_promoted not_promoted) else ret tt) ;;;
  let* b := the_plab in
  let original_waste := Plab.waste b in
  let top := Plab.top b in
  (if Plab.top b <? plab_end b
   then fill_with_object (Plab.top b) (plab_end b - Plab.top b) else ret tt) ;;;
  let b' := Plab.retire b in
  modify_tld (tld_set_plab (Some b')) ;;;
  let* w := get_world in
  if negb (top =? nullptr) && (original_waste <? Plab.waste b') && is_in_old w top
  then emit (register_object_without_lock top)
  else ret tt.

(** [ShenandoahGenerationalHeap::allocate_new_plab]: the buffer and
    [*actual_size]. *)
Definition allocate_new_plab (min_size word_size : Z) : M (Z * Z) :=
  let* '(res, granted) := allocate_memory (for_plab min_size word_size) in
  if res =? nullptr then ret (res, 0) else ret (res, granted).

(** [ShenandoahGenerationalHeap::allocate_from_plab_slow] *)
Definition allocate_from_plab_slow (size : Z) (is_promotion : bool) : M Z :=
  let plab_min := plab_min_size fl in
  let min_size :=
    if plab_min <? size then align_up size (card_size_in_words fl) else plab_min in
  let* t := get_tld in
  let cur_size := if plab_size t =? 0 then plab_min else plab_size t in
  let future_size := MIN2 (mul cur_size 2) (plab_max_size fl) in
  modify_tld (tld_set_plab_size future_size) ;;;
  if cur_size <? size then ret nullptr
  else
    let* b := the_plab in
    if Plab.words_remaining b <? plab_min then
      retire_plab ;;;
      let* '(plab_buf, actual_size) := allocate_new_plab min_size cur_size in
      if plab_buf =? nullptr then
        (if min_size =? plab_min
         then modify_tld (tld_set_allow_plab_promotions false) else ret tt) ;;;
        ret nullptr
      else
        modify_tld (tld_set_plab_retries_enabled true) ;;;
        let* b1 := the_plab in
        modify_tld (tld_set_plab (Some (Plab.set_buf b1 plab_buf actual_size))) ;;;
        let* t1 := get_tld in
        if is_promotion && negb (allow_plab_promotions t1) then ret nullptr
        else
          let* b2 := the_plab in
          let '(obj, b3) := Plab.allocate b2 size in
          modify_tld (tld_set_plab (Some b3)) ;;; ret obj
    else ret nullptr.

(** [ShenandoahGenerationalHeap::allocate_from_plab] *)
Definition allocate_from_plab (size : Z) (is_promotion : bool) : M Z :=
  let* t := get_tld in
  match plab t with
  | None => ret nullptr
  | Some b =>
      if is_promotion && negb (allow_plab_promotions t) then ret nullptr
      else
        let '(obj0, b') := Plab.allocate b size in
        modify_tld (tld_set_plab (Some b')) ;;;
        let* obj :=
          (if (obj0 =? nullptr) && (Plab.words_remaining b' <? plab_min_size fl)
           then allocate_from_plab_slow size is_promotion
           else ret obj0) in
        if obj =? nullptr then ret nullptr
        else
          (if is_promotion
           then modify_tld (fun t' =>
                  tld_set_plab_promoted (add (plab_promoted t') (mul size (HeapWordSize fl))) t')
           else ret tt) ;;;
          ret obj
  end.

(** ** The evacuation engine *)

(** Modelled from the spec: [ShenandoahBarrierSet::resolve_forwarded] is not
    part of this file: the already-resolved forwarding target, that is the
    forwardee when the mark word holds one, else the object itself. *)
Definition resolve_forwarded (p : Z) : M Z :=
  let* o := object_at p in
  match obj_mark o with
  | mark_forwarded f => if f =? nullptr then ret p else ret f
  | _ => ret p
  end.

(** Modelled from the spec: [ShenandoahForwarding::try_update_forwardee] is
    not part of this file: one atomic compare-and-swap on the forwarding
    slot of the original; the result is the copy that the slot holds after
    the call. *)
Definition try_update_forwardee (p update : Z) : M Z :=
  let* o := object_at p in
  match obj_mark o with
  | mark_forwarded f => ret f
  | _ => store_object p (set_mark (mark_forwarded update) o) ;;; ret update
  end.

(** Modelled from the spec: [ShenandoahHeap::increase_object_age] is
    declared in shenandoahHeap.inline.hpp, which is not part of this file;
    the source shows only the call, on the fresh copy, with
    [from_region->age() + 1] for its second argument.  The specification
    has the age of the copy stamped as that value: the age bits of the mark
    word are set to [additional_age]; a forwarding pointer holds no age. *)
Definition increase_object_age (obj additional_age : Z) : M unit :=
  let* o := object_at obj in
  match obj_mark o with
  | mark_neutral _ => store_object obj (set_mark (mark_neutral additional_age) o)
  | mark_displaced _ => store_object obj (set_mark (mark_displaced additional_age) o)
  | mark_forwarded _ => ret tt
  end.

(** Modelled from the spec: [ShenandoahHeap::get_object_age] is not part of
    this file: the age counter of the object. *)
Definition get_object_age (obj : Z) : M Z :=
  let* o := object_at obj in ret (mark_age (obj_mark o)).

(** Modelled from the spec: [PLAB::undo_allocation] is not part of this
    file: the allocation pointer of the buffer is rolled back to the copy
    when the buffer holds the copy; a copy outside the buffer can only be
    overwritten with a filler object. *)
Definition undo_allocation (b : PLAB) (obj word_sz : Z) : M PLAB :=
  if Plab.contains b obj then ret (Plab.undo_last_allocation b obj)
  else fill_with_object obj word_sz ;;; ret (Plab.add_undo_waste b word_sz).

(** Modelled from the spec: [ShenandoahEvacOOMHandler] is not part of this
    file: out-of-memory-during-evacuation is a per-thread latch, set
    here. *)
Definition oom_evac_handler : M unit :=
  emit handle_out_of_memory_during_evacuation ;;;
  modify_tld (set_oom_during_evac true).

(** [try_evacuate_object], lines 205-252: the switch over the target
    generation under [UseTLAB].  The result is [copy] and [has_plab]. *)
Definition try_evacuate_in_lab (size : Z) (target_gen : ShenandoahAffiliation)
    (is_promotion : bool) : M (Z * bool) :=
  match target_gen with
  | YOUNG_GENERATION =>
      let* copy := allocate_from_gclab size in
      let* t := get_tld in
      if (copy =? nullptr) && (size <? gclab_size t) then
        modify_tld (tld_set_gclab_size (PLAB_min_size fl)) ;;;
        let* copy' := allocate_from_gclab size in
        ret (copy', false)
      else ret (copy, false)
  | OLD_GENERATION =>
      let* t0 := get_tld in
      let has_plab := match plab t0 with Some _ => true | None => false end in
      let* copy := allocate_from_plab size is_promotion in
      let* t := get_tld in
      if (copy =? nullptr) && (size <? plab_size t) && plab_retries_enabled t then
        let* b := the_plab in
        if Plab.words_remaining b <? plab_min_size fl then
          modify_tld (tld_set_plab_size (plab_min_size fl)) ;;;
          let* copy' := allocate_from_plab size is_promotion in
          (if copy' =? nullptr
           then modify_tld (tld_set_plab_retries_enabled false) else ret tt) ;;;
          ret (copy', has_plab)
        else ret (copy, has_plab)
      else ret (copy, has_plab)
  | FREE => ShouldNotReachHere
  end.

(** [try_evacuate_object], lines 254-265: the shared allocation.  The result
    is [copy] and [alloc_from_lab]. *)
Definition try_evacuate_shared (copy size : Z) (target_gen : ShenandoahAffiliation)
    (is_promotion has_plab : bool) : M (Z * bool) :=
  if copy =? nullptr then
    if negb is_promotion || negb has_plab || (PLAB_min_size fl <? size) then
      let* '(c, _) := allocate_memory (for_shared_gc size target_gen is_promotion) in
      ret (c, false)
    else ret (copy, true)
  else ret (copy, true).

(** [try_evacuate_object], lines 270-288: no copy could be allocated. *)
Definition evacuation_failed (p size : Z) (from_region : ShenandoahHeapRegion)
    (target_gen : ShenandoahAffiliation) : M Z :=
  if affiliation_eqb target_gen OLD_GENERATION && is_young from_region then
    emit (handle_failed_promotion size) ;;;
    ret nullptr
  else
    (if affiliation_eqb target_gen OLD_GENERATION
     then emit handle_failed_evacuation else ret tt) ;;;
    emit (handle_alloc_failure_evac size) ;;;
    oom_evac_handler ;;;
    resolve_forwarded p.

(** [try_evacuate_object], lines 290-298: the copy and its age. *)
Definition copy_object (p copy size : Z) (from_region : ShenandoahHeapRegion)
    (target_gen : ShenandoahAffiliation) : M Z :=
  emit (begin_evacuation (mul size (HeapWordSize fl))) ;;;
  let* o := object_at p in
  store_object copy o ;;;
  let* w := get_world in
  (if affiliation_eqb target_gen YOUNG_GENERATION && is_aging_cycle w
   then increase_object_age copy (UInt.add (r_age from_region) 1)
   else ret tt) ;;;
  ret copy.

(** [try_evacuate_object], lines 304-359: after the forwarding pointer was
    tried, [result] being what [try_update_forwardee] returned. *)
Definition finish_evacuation (copy size : Z) (from_region : ShenandoahHeapRegion)
    (target_gen : ShenandoahAffiliation) (is_promotion alloc_from_lab : bool)
    (result : Z) : M Z :=
  if result =? copy then
    emit (end_evacuation (mul size (HeapWordSize fl))) ;;;
    (if affiliation_eqb target_gen OLD_GENERATION
     then emit (handle_evacuation copy size (is_young from_region))
     else if ShenandoahGenerationalCensusAtEvac fl
             || negb (ShenandoahGenerationalAdaptiveTenuring fl)
          then let* a := get_object_age copy in
               emit (record_age (mul size (HeapWordSize fl)) a)
          else ret tt) ;;;
    ret copy
  else
    (if alloc_from_lab then
       match target_gen with
       | YOUNG_GENERATION =>
           let* g := the_gclab in
           let* g' := undo_allocation g copy size in
           modify_tld (tld_set_gclab (Some g'))
       | OLD_GENERATION =>
           let* b := the_plab in
           let* b' := undo_allocation b copy size in
           modify_tld (tld_set_plab (Some b')) ;;;
           if is_promotion
           then modify_tld (fun t =>
                  tld_set_plab_promoted (sub (plab_promoted t) (mul size (HeapWordSize fl))) t)
           else ret tt
       | FREE => ShouldNotReachHere
       end
     else fill_with_object copy size) ;;;
    ret result.

(** [try_evacuate_object], lines 205-265: the allocation of the copy, in a
    buffer and then shared.  The result is [copy] and [alloc_from_lab]. *)
Definition allocate_copy (size : Z) (target_gen : ShenandoahAffiliation)
    (is_promotion : bool) : M (Z * bool) :=
  let* '(copy0, has_plab) :=
    (if UseTLAB fl then try_evacuate_in_lab size target_gen is_promotion
     else ret (nullptr, false)) in
  try_evacuate_shared copy0 size target_gen is_promotion has_plab.

(** [ShenandoahGenerationalHeap::try_evacuate_object] *)
Definition try_evacuate_object (p : Z) (from_region : ShenandoahHeapRegion)
    (target_gen : ShenandoahAffiliation) : M Z :=
  let* o := object_at p in
  let size := obj_size o in
  let is_promotion := affiliation_eqb target_gen OLD_GENERATION && is_young from_region in
  let* '(copy, alloc_from_lab) := allocate_copy size target_gen is_promotion in
  if copy =? nullptr then evacuation_failed p size from_region target_gen
  else
    let* copy_val := copy_object p copy size from_region target_gen in
    let* result := try_update_forwardee p copy_val in
    finish_evacuation copy size from_region target_gen is_promotion alloc_from_lab result.

(** [heap_region_containing] *)
Definition heap_region_containing (p : Z) : M ShenandoahHeapRegion :=
  fun w => match region_at w (heap_region_index_containing p) with
           | Some r => Some (r, w)
           | None => None
           end.

Definition active_generation_is_young (w : World) : bool :=
  match active_generation w with YOUNG => true | _ => false end.

(** [ShenandoahGenerationalHeap::evacuate_object] *)
Definition evacuate_object (p : Z) : M Z :=
  let* t := get_tld in
  if oom_during_evac t then resolve_forwarded p
  else
    let* r := heap_region_containing p in
    let target_gen := r_affiliation r in
    let* w := get_world in
    if active_generation_is_young w && affiliation_eqb target_gen YOUNG_GENERATION then
      let* o := object_at p in
      let mark := obj_mark o in
      if is_marked mark then resolve_forwarded p
      else if has_displaced_mark_helper mark then try_evacuate_object p r target_gen
      else if tenuring_threshold w <=? UInt.add (r_age r) (mark_age mark) then
        let* result := try_evacuate_object p r OLD_GENERATION in
        if negb (result =? nullptr) then ret result
        else try_evacuate_object p r target_gen
      else try_evacuate_object p r target_gen
    else try_evacuate_object p r target_gen.

(** ** Balancing and cycle completion *)

(** The result record of [balance_generations]. *)
Inductive Destination := to_young | to_old | to_none.

Record TransferResult := {
  success : bool;
  region_count : Z;
  region_destination : Destination
}.

(** Modelled from the spec: the generation sizer is not part of this file.
    Of a transfer the model keeps the call, with its direction and its
    number of regions, and whether it succeeded, read off the tape; the
    affiliations and capacities that the sizer changes are not modelled. *)
Definition generation_sizer_transfer (e : Event) : M bool :=
  emit e ;;;
  fun w => match transfer_tape w with
           | [] => Some (false, w)
           | b :: rest => Some (b, set_transfer_tape rest w)
           end.

(** [ShenandoahGenerationalHeap::balance_generations] *)
Definition balance_generations : M TransferResult :=
  let* w := get_world in
  let old_region_balance_ := old_region_balance (old_generation w) in
  modify_old_generation (set_region_balance 0) ;;;
  if 0 <? old_region_balance_ then
    let old_region_surplus := wrap old_region_balance_ in
    let* ok := generation_sizer_transfer (transfer_to_young old_region_surplus) in
    ret {| success := ok; region_count := old_region_surplus; region_destination := to_young |}
  else if old_region_balance_ <? 0 then
    let old_region_deficit := wrap (- old_region_balance_) in
    let* ok := generation_sizer_transfer (transfer_to_old old_region_deficit) in
    (if ok then ret tt else emit handle_failed_transfer) ;;;
    ret {| success := ok; region_count := old_region_deficit; region_destination := to_old |}
  else ret {| success := true; region_count := 0; region_destination := to_none |}.

(** [ShenandoahGenerationalHeap::reset_generation_reserves] *)
Definition reset_generation_reserves : M unit :=
  modify_young_generation (set_young_evacuation_reserve 0) ;;;
  modify_old_generation (set_old_evacuation_reserve 0) ;;;
  modify_old_generation (set_promoted_reserve 0).

(** [ShenandoahGlobalCoalesceAndFill::work], for one region.  Of
    [begin_preemptible_coalesce_and_fill] and [oop_coalesce_and_fill],
    which are not part of this file, the model keeps that the region has
    been coalesced; the filler objects are not modelled. *)
Definition coalesce_region (r : ShenandoahHeapRegion) : ShenandoahHeapRegion :=
  if is_old r && r_is_active r && negb (r_is_humongous r) then
    {| r_affiliation := r_affiliation r; r_age := r_age r;
       r_is_active := r_is_active r; r_is_humongous := r_is_humongous r;
       r_coalesced := true |}
  else r.

(** [ShenandoahGenerationalHeap::coalesce_and_fill_old_regions]: the task
    goes over every region once; it cannot be cancelled. *)
Definition coalesce_and_fill_old_regions (concurrent : bool) : M unit :=
  emit (coalesce_and_fill_task_run concurrent) ;;;
  (fun w => Some (tt, set_regions (map coalesce_region (regions w)) w)) ;;;
  modify_old_generation (set_parseable true).

(** [ShenandoahGenerationalHeap::entry_global_coalesce_and_fill] *)
Definition entry_global_coalesce_and_fill : M unit :=
  coalesce_and_fill_old_regions true.

(** [ShenandoahGenerationalHeap::complete_degenerated_cycle] *)
Definition complete_degenerated_cycle : M unit :=
  let* w := get_world in
  (if is_concurrent_old_mark_in_progress w
   then emit transfer_pointers_from_satb else ret tt) ;;;
  let* result := balance_generations in
  reset_generation_reserves ;;;
  let* w1 := get_world in
  if negb (old_parseable (old_generation w1))
  then coalesce_and_fill_old_regions false
  else ret tt.

(** [ShenandoahGenerationalHeap::complete_concurrent_cycle] *)
Definition complete_concurrent_cycle : M unit :=
  let* w := get_world in
  (if negb (old_parseable (old_generation w))
   then entry_global_coalesce_and_fill else ret tt) ;;;
  let* result := balance_generations in
  reset_generation_reserves.

End Heap.

(** ** Threads racing to evacuate one object

    Several threads are inside [try_evacuate_object] for the same object
    [p].  Each has allocated and filled its copy; what remains of the
    function for each is the compare-and-swap, which is atomic, and the code
    after it, which works on the thread's own buffers and copy.  A schedule
    names the thread that takes the next of these two steps. *)

Inductive Phase :=
| at_install
| at_finish (result : Z)
| returned (value : Z).

(** A thread and the local variables of its call. *)
Record Evacuator := {
  ev_tld : ThreadLocalData;
  ev_copy : Z;
  ev_size : Z;
  ev_from_region : ShenandoahHeapRegion;
  ev_target_gen : ShenandoahAffiliation;
  ev_alloc_from_lab : bool;
  ev_phase : Phase
}.

Definition ev_is_promotion (t : Evacuator) : bool :=
  affiliation_eqb (ev_target_gen t) OLD_GENERATION && is_young (ev_from_region t).

Definition ev_advance (d : ThreadLocalData) (ph : Phase) (t : Evacuator) : Evacuator :=
  {| ev_tld := d; ev_copy := ev_copy t; ev_size := ev_size t;
     ev_from_region := ev_from_region t; ev_target_gen := ev_target_gen t;
     ev_alloc_from_lab := ev_alloc_from_lab t; ev_phase := ph |}.

(** The heap shared by the threads (its [tld] component is that of the
    thread that ran last) and the threads. *)
Record Machine := {
  shared : World;
  threads : list Evacuator
}.

Section Race.

Variable fl : Flags.
Variable p : Z.

(** One step of thread [i]. *)
Definition step (i : nat) (m : Machine) : option Machine :=
  match threads m !! i with
  | None => Some m
  | Some t =>
      match ev_phase t with
      | at_install =>
          match try_update_forwardee p (ev_copy t) (set_tld (ev_tld t) (shared m)) with
          | Some (result, w) =>
              Some {| shared := w;
                      threads := <[i := ev_advance (tld w) (at_finish result) t]> (threads m) |}
          | None => None
          end
      | at_finish result =>
          match finish_evacuation fl (ev_copy t) (ev_size t) (ev_from_region t)
                  (ev_target_gen t) (ev_is_promotion t) (ev_alloc_from_lab t) result
                  (set_tld (ev_tld t) (shared m)) with
          | Some (v, w) =>
              Some {| shared := w;
                      threads := <[i := ev_advance (tld w) (returned v) t]> (threads m) |}
          | None => None
          end
      | returned _ => Some m
      end
  end.

Fixpoint run (schedule : list nat) (m : Machine) : option Machine :=
  match schedule with
  | [] => Some m
  | i :: rest =>
      match step i m with
      | Some m' => run rest m'
      | None => None
      end
  end.

(** The forwarding slot of [p]. *)
Definition forwardee_of (w : World) : option Z :=
  match mem w !! p with
  | Some o => match obj_mark o with mark_forwarded f => Some f | _ => None end
  | None => None
  end.

Definition has_returned (t : Evacuator) : bool :=
  match ev_phase t with returned _ => true | _ => false end.

(** The buffer that copies for a target generation are carved from. *)
Definition lab_of (target_gen : ShenandoahAffiliation) (d : ThreadLocalData) : option PLAB :=
  match target_gen with
  | YOUNG_GENERATION => gclab d
  | OLD_GENERATION => plab d
  | FREE => None
  end.

Definition ev_lab (t : Evacuator) (d : ThreadLocalData) : option PLAB :=
  lab_of (ev_target_gen t) d.

(** A thread about to install its copy: the copy is a heap object other
    than [p], and when it came from a buffer, that buffer's last
    allocation is the copy. *)
Definition ready (w : World) (t : Evacuator) : Prop :=
  ev_phase t = at_install /\
  ev_copy t <> p /\
  is_Some (mem w !! ev_copy t) /\
  (ev_alloc_from_lab t = true ->
   exists b, ev_lab t (ev_tld t) = Some b /\
             Plab.contains b (ev_copy t) = true /\
             plab_top b = ev_copy t + ev_size t).

(** The start of a race: [p] is not forwarded yet, and the copies of the
    threads are pairwise distinct. *)
Definition race_start (m : Machine) : Prop :=
  (exists o, mem (shared m) !! p = Some o /\ is_marked (obj_mark o) = false) /\
  Forall (ready (shared m)) (threads m) /\
  NoDup (map ev_copy (threads m)).

(** What a thread that lost the race with copy [ev_copy t0] leaves behind:
    [t0] is the thread at the start, [d] its thread-local data and [w] the
    heap at the end. *)
Definition rolled_back (t0 : Evacuator) (d : ThreadLocalData) : Prop :=
  exists b0 b,
    ev_lab t0 (ev_tld t0) = Some b0 /\ ev_lab t0 d = Some b /\
    plab_top b = ev_copy t0 /\
    Plab.words_remaining b = Plab.words_remaining b0 + ev_size t0 /\
    (ev_is_promotion t0 = true ->
     plab_promoted d = sub (plab_promoted (ev_tld t0)) (mul (ev_size t0) (HeapWordSize fl))).

Definition overwritten_with_filler (t0 : Evacuator) (w : World) : Prop :=
  mem w !! ev_copy t0 = Some (filler_object (ev_size t0)).

Definition loser_cleaned_up (t0 : Evacuator) (d : ThreadLocalData) (w : World) : Prop :=
  if ev_alloc_from_lab t0 then rolled_back t0 d else overwritten_with_filler t0 w.

(** ** The invariant of a race

    [m0] is the machine at the start; a thread of [m0] is compared with what
    it has become. *)
Variable m0 : Machine.

(** The local variables of a call do not change. *)
Definition same_call (t0 t : Evacuator) : Prop :=
  ev_copy t = ev_copy t0 /\ ev_size t = ev_size t0 /\
  ev_from_region t = ev_from_region t0 /\ ev_target_gen t = ev_target_gen t0 /\
  ev_alloc_from_lab t = ev_alloc_from_lab t0.

(** What is known of a thread at each point of its call. *)
Definition phase_inv (w : World) (t0 t : Evacuator) : Prop :=
  match ev_phase t with
  | at_install => ev_tld t = ev_tld t0
  | at_finish r => ev_tld t = ev_tld t0 /\ forwardee_of w = Some r
  | returned v =>
      forwardee_of w = Some v /\
      (v = ev_copy t0 -> ev_tld t = ev_tld t0) /\
      (v <> ev_copy t0 -> loser_cleaned_up t0 (ev_tld t) w)
  end.

Definition thread_inv (w : World) (t0 t : Evacuator) : Prop :=
  same_call t0 t /\ phase_inv w t0 t.

(** Every thread is where its phase says; every copy is a heap object; and
    the object is forwarded to one of the copies as soon as one thread is
    past its compare-and-swap. *)
Record race_inv (m : Machine) : Prop := {
  inv_threads : Forall2 (thread_inv (shared m)) (threads m0) (threads m);
  inv_copies : Forall (fun t0 => is_Some (mem (shared m) !! ev_copy t0)) (threads m0);
  inv_forwardee :
    match mem (shared m) !! p with
    | Some o =>
        match obj_mark o with
        | mark_forwarded c => exists t0, t0 ∈ threads m0 /\ ev_copy t0 = c
        | _ => Forall (fun t => ev_phase t = at_install) (threads m)
        end
    | None => False
    end
}.

End Race.

(** How far a thread has got, and how many steps a schedule gives it. *)
Definition phase_rank (ph : Phase) : nat :=
  match ph with at_install => 0 | at_finish _ => 1 | returned _ => 2 end.

Fixpoint steps_of (i : nat) (schedule : list nat) : nat :=
  match schedule with
  | [] => 0
  | j :: rest => if Nat.eqb j i then S (steps_of i rest) else steps_of i rest
  end.

(** ** A concrete configuration

    Regions of 1 MB above a heap base, 8-byte heap words, 512-byte cards,
    the default evacuation reserve and old evacuation ratio, and waste
    factors of 1.0. *)
Definition example_heap_flags : Flags :=
  {| ShenandoahEvacReserve := 5;
     ShenandoahOldEvacRatioPercent := 75;
     times_ShenandoahOldEvacWaste := fun x => x;
     times_ShenandoahPromoEvacWaste := fun x => x;
     region_size_bytes := 1048576;
     heap_base := 1048576;
     HeapWordSize := 8;
     card_size_in_words := 64;
     PLAB_min_size := 258;
     plab_min_size := 320;
     plab_max_size := 32768;
     UseTLAB := true;
     ShenandoahGenerationalCensusAtEvac := false;
     ShenandoahGenerationalAdaptiveTenuring := true |}.

(** An old generation with nothing available and 5 MB of promotions
    pending, next to a young generation of 1000 regions. *)
Definition starved_old_generation : ShenandoahOldGeneration :=
  {| old_available := 0;
     old_free_unaffiliated_regions := 0;
     old_has_unprocessed_collection_candidates := false;
     old_unprocessed_collection_candidates_live_memory := 0;
     old_promotion_potential := 5 * 1048576;
     old_region_balance := 0;
     old_evacuation_reserve := 0;
     old_promoted_reserve := 0;
     old_parseable := true |}.

Definition large_young_generation : ShenandoahYoungGeneration :=
  {| young_max_capacity := 1000 * 1048576; young_evacuation_reserve := 0 |}.

(** Three regions above the heap base: a young region of age 2 that is
    being evacuated, an old region, and a young region that receives
    copies. *)
Definition example_regions : list ShenandoahHeapRegion :=
  [ {| r_affiliation := YOUNG_GENERATION; r_age := 2; r_is_active := true;
       r_is_humongous := false; r_coalesced := false |};
    {| r_affiliation := OLD_GENERATION; r_age := 0; r_is_active := true;
       r_is_humongous := false; r_coalesced := false |};
    {| r_affiliation := YOUNG_GENERATION; r_age := 0; r_is_active := true;
       r_is_humongous := false; r_coalesced := false |} ].

(** A PLAB of 320 words in the old region with 10 words left, and an
    untouched GCLAB of 1024 words in the receiving young region. *)
Definition nearly_full_plab : PLAB :=
  {| plab_bottom := 1179648; plab_top := 1179958; plab_end := 1179968;
     plab_wasted := 0; plab_undo_wasted := 0 |}.

Definition fresh_gclab : PLAB :=
  {| plab_bottom := 1310720; plab_top := 1310720; plab_end := 1311744;
     plab_wasted := 0; plab_undo_wasted := 0 |}.

(** A worker whose PLAB was granted 2560 bytes, 1024 of which hold
    promoted objects; [preferred] is its recorded PLAB size. *)
Definition worker (preferred : Z) : ThreadLocalData :=
  {| oom_during_evac := false;
     gclab := Some fresh_gclab; gclab_size := 1024;
     plab := Some nearly_full_plab; plab_size := preferred;
     plab_promoted := 1024; plab_actual_size := 2560;
     allow_plab_promotions := true; plab_retries_enabled := false |}.

(** An object of 16 words and age 1 in the first region, and one whose
    header is displaced by a lock. *)
Definition example_object : oopDesc :=
  {| obj_mark := mark_neutral 1; obj_size := 16; obj_is_filler := false |}.

Definition locked_object : oopDesc :=
  {| obj_mark := mark_displaced 0; obj_size := 16; obj_is_filler := false |}.

Definition evacuated_region : ShenandoahHeapRegion :=
  {| r_affiliation := YOUNG_GENERATION; r_age := 2; r_is_active := true;
     r_is_humongous := false; r_coalesced := false |}.

Definition example_world_holding (o : oopDesc) (t : ThreadLocalData)
    (tape : list AllocResponse) : World :=
  {| tld := t;
     mem := {[ 1048640 := o ]};
     regions := example_regions;
     old_generation := starved_old_generation;
     young_generation := large_young_generation;
     active_generation := YOUNG;
     is_aging_cycle := true;
     tenuring_threshold := 3;
     is_concurrent_old_mark_in_progress := false;
     alloc_tape := tape; gclab_tape := []; transfer_tape := [];
     trace := [] |}.

Definition example_world (t : ThreadLocalData) (tape : list AllocResponse) : World :=
  example_world_holding example_object t tape.

(** A granted buffer of 640 words in the old region. *)
Definition granted_plab : AllocResponse :=
  {| resp_result := 1180032; resp_actual_size := 640;
     resp_allow_plab_promotions := Some true;
     resp_plab_actual_size := Some 5120;
     resp_plab_promoted := Some 0 |}.

(** Three threads racing for an object of 8 words: two hold a copy at the
    start of their GCLABs, the third holds a copy from the shared
    allocator. *)
Definition raced_object : oopDesc :=
  {| obj_mark := mark_neutral 1; obj_size := 8; obj_is_filler := false |}.

Definition gclab_holding_copy (bottom : Z) : PLAB :=
  {| plab_bottom := bottom; plab_top := bottom + 8; plab_end := bottom + 1024;
     plab_wasted := 0; plab_undo_wasted := 0 |}.

Definition racer_tld (bottom : Z) : ThreadLocalData :=
  {| oom_during_evac := false;
     gclab := Some (gclab_holding_copy bottom); gclab_size := 1024;
     plab := None; plab_size := 0;
     plab_promoted := 0; plab_actual_size := 0;
     allow_plab_promotions := true; plab_retries_enabled := false |}.

Definition racer (bottom copy : Z) (from_lab : bool) : Evacuator :=
  {| ev_tld := racer_tld bottom; ev_copy := copy; ev_size := 8;
     ev_from_region := evacuated_region; ev_target_gen := YOUNG_GENERATION;
     ev_alloc_from_lab := from_lab; ev_phase := at_install |}.

Definition racing_threads : Machine :=
  {| shared :=
       {| tld := racer_tld 1310720;
          mem := <[ 1048640 := raced_object ]>
                 (<[ 1310720 := raced_object ]>
                 (<[ 1311744 := raced_object ]>
                 (<[ 1312768 := raced_object ]> ∅)));
          regions := example_regions;
          old_generation := starved_old_generation;
          young_generation := large_young_generation;
          active_generation := YOUNG;
          is_aging_cycle := false;
          tenuring_threshold := 3;
          is_concurrent_old_mark_in_progress := false;
          alloc_tape := []; gclab_tape := []; transfer_tape := [];
          trace := [] |};
     threads := [ racer 1310720 1310720 true;
                  racer 1311744 1311744 true;
                  racer 1313792 1312768 false ] |}.

(** An object of the old region that is already forwarded, and a worker
    whose PLAB, in the old region, is empty of objects. *)
Definition forwarded_object : oopDesc :=
  {| obj_mark := mark_forwarded 1179900; obj_size := 16; obj_is_filler := false |}.

Definition roomy_plab : PLAB :=
  {| plab_bottom := 1180672; plab_top := 1180672; plab_end := 1181312;
     plab_wasted := 0; plab_undo_wasted := 0 |}.

Definition old_evacuating_worker : ThreadLocalData :=
  {| oom_during_evac := false;
     gclab := Some fresh_gclab; gclab_size := 1024;
     plab := Some roomy_plab; plab_size := 640;
     plab_promoted := 0; plab_actual_size := 5120;
     allow_plab_promotions := true; plab_retries_enabled := true |}.

Definition forwarded_old_world : World :=
  {| tld := old_evacuating_worker;
     mem := {[ 1179700 := forwarded_object ]};
     regions := example_regions;
     old_generation := starved_old_generation;
     young_generation := large_young_generation;
     active_generation := YOUNG;
     is_aging_cycle := true;
     tenuring_threshold := 3;
     is_concurrent_old_mark_in_progress := false;
     alloc_tape := []; gclab_tape := []; transfer_tape := [];
     trace := [] |}.

(** An old generation with 100 regions available, 30 of them unaffiliated,
    and 60 regions' worth of promotions pending. *)
Definition roomy_old_generation : ShenandoahOldGeneration :=
  {| old_available := 100 * 1048576;
     old_free_unaffiliated_regions := 30;
     old_has_unprocessed_collection_candidates := false;
     old_unprocessed_collection_candidates_live_memory := 0;
     old_promotion_potential := 60 * 1048576;
     old_region_balance := 0;
     old_evacuation_reserve := 0;
     old_promoted_reserve := 0;
     old_parseable := true |}.

(** ** Reading the trace *)

(** The bytes handed back to the old generation's promotion reserve. *)
Fixpoint unexpended_bytes (tr : list Event) : Z :=
  match tr with
  | [] => 0
  | unexpend_promoted n :: rest => n + unexpended_bytes rest
  | _ :: rest => unexpended_bytes rest
  end.

(** The number of times bytes were handed back. *)
Fixpoint unexpend_calls (tr : list Event) : nat :=
  match tr with
  | [] => O
  | unexpend_promoted _ :: rest => S (unexpend_calls rest)
  | _ :: rest => unexpend_calls rest
  end.

(** The number of shared allocation requests made for evacuation copies. *)
Fixpoint shared_gc_requests (tr : list Event) : nat :=
  match tr with
  | [] => O
  | allocate_memory_called (for_shared_gc _ _ _) :: rest => S (shared_gc_requests rest)
  | _ :: rest => shared_gc_requests rest
  end.

(** The number of buffer requests made to the shared allocator. *)
Fixpoint plab_requests (tr : list Event) : nat :=
  match tr with
  | [] => O
  | allocate_memory_called (for_plab _ _) :: rest => S (plab_requests rest)
  | _ :: rest => plab_requests rest
  end.

(** The number of runs of the coalesce-and-fill task. *)
Fixpoint coalesce_and_fill_runs (tr : list Event) : nat :=
  match tr with
  | [] => O
  | coalesce_and_fill_task_run _ :: rest => S (coalesce_and_fill_runs rest)
  | _ :: rest => coalesce_and_fill_runs rest
  end.

(** ** Reading the allocator's tape *)

(** What the shared allocator answers to the next request. *)
Definition next_alloc_result (w : World) : Z :=
  match alloc_tape w with [] => nullptr | r :: _ => resp_result r end.

(** What the shared allocator sets the thread's promotion flag to while it
    serves the next request, if it sets it. *)
Definition allocator_sets_promotions (w : World) : option bool :=
  match alloc_tape w with [] => None | r :: _ => resp_allow_plab_promotions r end.

(** ** The sizes computed by [allocate_from_plab_slow] *)

(** [cur_size]: the thread's preferred size, or the minimum when none is
    recorded yet. *)
Definition slow_path_cur_size (fl : Flags) (w : World) : Z :=
  if plab_size (tld w) =? 0 then plab_min_size fl else plab_size (tld w).

(** [future_size] *)
Definition slow_path_future_size (fl : Flags) (w : World) : Z :=
  MIN2 (mul (slow_path_cur_size fl w) 2) (plab_max_size fl).

(** [min_size] *)
Definition slow_path_min_size (fl : Flags) (size : Z) : Z :=
  if plab_min_size fl <? size then align_up size (card_size_in_words fl)
  else plab_min_size fl.

(** The heap after [set_plab_size(thread, future_size)] and nothing else. *)
Definition only_preferred_size_recorded (fl : Flags) (w : World) : World :=
  set_tld (tld_set_plab_size (slow_path_future_size fl w) (tld w)) w.

(** ** The buffer slow path as the specification words it *)

(** Every call leaves [min (2 * previous preferred size) maximum] as the
    preferred size. *)
Definition preferred_size_as_specified (fl : Flags) (w : World) (size : Z)
    (is_promotion : bool) : Prop :=
  forall obj w',
    allocate_from_plab_slow fl size is_promotion w = Some (obj, w') ->
    plab_size (tld w') = MIN2 (mul (plab_size (tld w)) 2) (plab_max_size fl).

(** Whenever a replacement buffer is requested and not granted, the
    thread's promotions are disabled. *)
Definition promotions_disabled_as_specified (fl : Flags) (w : World) (size : Z)
    (is_promotion : bool) : Prop :=
  forall obj w',
    allocate_from_plab_slow fl size is_promotion w = Some (obj, w') ->
    plab_requests (trace w') = S (plab_requests (trace w)) ->
    next_alloc_result w = nullptr ->
    allow_plab_promotions (tld w') = false.

(** ** Reading objects *)

(** [is_promotion] of [try_evacuate_object]. *)
Definition promotion_of (target_gen : ShenandoahAffiliation)
    (from_region : ShenandoahHeapRegion) : bool :=
  affiliation_eqb target_gen OLD_GENERATION && is_young from_region.

(** What [resolve_forwarded] makes of an object whose header is [o]. *)
Definition resolved (p : Z) (o : oopDesc) : Z :=
  match obj_mark o with
  | mark_forwarded f => if f =? nullptr then p else f
  | _ => p
  end.

(** The mark word [increase_object_age] leaves behind. *)
Definition aged_mark (m : markWord) (additional_age : Z) : markWord :=
  match m with
  | mark_neutral _ => mark_neutral additional_age
  | mark_displaced _ => mark_displaced additional_age
  | mark_forwarded f => mark_forwarded f
  end.

(** Whether the thread has a PLAB. *)
Definition thread_has_plab (w : World) : bool :=
  match plab (tld w) with Some _ => true | None => false end.

(** The number of coalesce-and-fill runs a completion routine owes an old
    generation. *)
Definition runs_expected (w : World) : nat :=
  if old_parseable (old_generation w) then O else S O.

(** ** The forwarded-object shortcut as the specification words it *)

(** Whatever the region and the cycle, a thread that is not out of memory
    gets the forwardee of an already forwarded object, and the heap stays
    as it was: no copy is tried. *)
Definition forwarded_shortcut_as_specified (fl : Flags) (p : Z) (w : World) : Prop :=
  forall o f,
    mem w !! p = Some o ->
    obj_mark o = mark_forwarded f ->
    oom_during_evac (tld w) = false ->
    evacuate_object fl p w = Some ((if f =? nullptr then p else f), w).

(** ** PLAB sizing *)

(** [is_aligned] of utilities/align.hpp, for an alignment that is a power of
    two. *)
Definition is_aligned (size alignment : Z) : Prop :=
  Z.land size (alignment - 1) = 0.

(** [ShenandoahGenerationalHeap::calculate_min_plab] *)
Definition calculate_min_plab (PLAB_min card_size : Z) : Z :=
  align_up PLAB_min card_size.

(** [ShenandoahGenerationalHeap::calculate_max_plab]; the arguments are
    [ShenandoahHeapRegion::max_tlab_size_words()], the flag
    [ShenandoahMaxEvacLABRatio], [PLAB::min_size()] and
    [CardTable::card_size_in_words()]. *)
Definition calculate_max_plab (MaxTLABSizeWords ShenandoahMaxEvacLABRatio
    PLAB_min card_size : Z) : Z :=
  if 0 <? ShenandoahMaxEvacLABRatio
  then align_down (MIN2 MaxTLABSizeWords (mul PLAB_min ShenandoahMaxEvacLABRatio)) card_size
  else align_down MaxTLABSizeWords card_size.

(** The heap's PLAB bounds are what its constructor asserts of them:
    multiples of the card size, with the minimum no larger than the
    maximum. *)
Definition plab_bounds_ok (fl : Flags) : Prop :=
  (exists k, 0 <= k /\ card_size_in_words fl = 2 ^ k) /\
  is_aligned (plab_min_size fl) (card_size_in_words fl) /\
  is_aligned (plab_max_size fl) (card_size_in_words fl) /\
  0 < plab_min_size fl /\
  plab_min_size fl <= plab_max_size fl /\
  plab_max_size fl < half_modulus.

(** A thread's preferred PLAB size is either not set yet, or a multiple of
    the card size within the heap's bounds. *)
Definition preferred_size_ok (fl : Flags) (s : Z) : Prop :=
  s = 0 \/
  (is_aligned s (card_size_in_words fl) /\ plab_min_size fl <= s <= plab_max_size fl).

(** What [allocate_new_plab] asserts of a buffer request. *)
Definition plab_request_ok (fl : Flags) (e : Event) : Prop :=
  match e with
  | allocate_memory_called (for_plab min_size word_size) =>
      is_aligned min_size (card_size_in_words fl) /\ min_size <= word_size
  | _ => True
  end.

(** ** Invariants of heap computations *)

(** [m] keeps [P]: whenever it returns, [P] holds after it if it held
    before. *)
Definition preserves {A : Type} (P : World -> Prop) (m : M A) : Prop :=
  forall w a w', P w -> m w = Some (a, w') -> P w'.

(** The preferred PLAB size of the thread is legal, and so is every buffer
    request made so far. *)
Definition plab_sizing_inv (fl : Flags) (w : World) : Prop :=
  preferred_size_ok fl (plab_size (tld w)) /\
  Forall (plab_request_ok fl) (trace w).

(** ** Events that involve the old generation *)

(** Buffer requests for a PLAB, promotions and evacuations into old and
    their failures, and bytes handed back to the promotion reserve. *)
Definition is_old_generation_event (e : Event) : bool :=
  match e with
  | allocate_memory_called (for_plab _ _) => true
  | allocate_memory_called (for_shared_gc _ OLD_GENERATION _) => true
  | handle_failed_promotion _ => true
  | handle_failed_evacuation => true
  | handle_evacuation _ _ _ => true
  | unexpend_promoted _ => true
  | register_object_without_lock _ => true
  | _ => false
  end.

Fixpoint old_generation_events (tr : list Event) : list Event :=
  match tr with
  | [] => []
  | e :: rest =>
      if is_old_generation_event e then e :: old_generation_events rest
      else old_generation_events rest
  end.

(** The thread's PLAB state and the old-generation events so far are as
    given. *)
Definition old_side_is (b : option PLAB) (s : Z) (retries : bool) (evs : list Event)
    (w : World) : Prop :=
  plab (tld w) = b /\ plab_size (tld w) = s /\ plab_retries_enabled (tld w) = retries /\
  old_generation_events (trace w) = evs.

(** The thread's GCLAB state is as given. *)
Definition young_side_is (g : option PLAB) (s : Z) (w : World) : Prop :=
  gclab (tld w) = g /\ gclab_size (tld w) = s.

(** No object of the heap is forwarded to null. *)
Definition no_null_forwardee (w : World) : Prop :=
  forall q o, mem w !! q = Some o -> obj_mark o <> mark_forwarded nullptr.

(** [returns P m Q]: a computation that keeps [P] and whose result
    satisfies [Q]. *)
Definition returns {A : Type} (P : World -> Prop) (m : M A) (Q : A -> Prop) : Prop :=
  forall w a w', P w -> m w = Some (a, w') -> P w' /\ Q a.

(** The thread's promotion buffer ends with the block of [size] words at
    [obj]. *)
Definition holds_last_block (obj size : Z) (w : World) : Prop :=
  exists b, plab (tld w) = Some b /\
    plab_bottom b <= obj /\ plab_top b = obj + size /\ plab_top b <= plab_end b.

(** [ensures P m Q]: from a state where [P] holds, the result and the final
    state of [m] satisfy [Q]. *)
Definition ensures {A : Type} (P : World -> Prop) (m : M A)
    (Q : A -> World -> Prop) : Prop :=
  forall w a w', P w -> m w = Some (a, w') -> Q a w'.

(** The locals of [compute_old_generation_balance]: the reserve kept for
    young evacuations, the bound on the old reserve, the old reserve
    itself, and what the old generation has once the collection set is
    recycled. *)
Definition young_reserve_of (fl : Flags) (young : ShenandoahYoungGeneration) : Z :=
  mul (young_max_capacity young) (ShenandoahEvacReserve fl) / 100.

Definition max_old_reserve_of (fl : Flags) (young : ShenandoahYoungGeneration)
    (old : ShenandoahOldGeneration) (old_xfer_limit : Z) : Z :=
  max_old_reserve fl (old_available old) old_xfer_limit (young_reserve_of fl young).

Definition old_reserve_of (fl : Flags) (young : ShenandoahYoungGeneration)
    (old : ShenandoahOldGeneration) (old_xfer_limit : Z) : Z :=
  let max_reserve := max_old_reserve_of fl young old old_xfer_limit in
  let mixed := reserve_for_mixed fl old max_reserve in
  add mixed (reserve_for_promo fl old max_reserve mixed).

Definition max_old_available_of (fl : Flags) (old : ShenandoahOldGeneration)
    (old_cset_regions : Z) : Z :=
  add (old_available old) (mul old_cset_regions (region_size_bytes fl)).


(** ** Region ages *)

Section RegionAges.

(** [ShenandoahHeapRegion::reset_age] and [increment_age] are not part of
    this file, nor are [top()] and the marking context's
    [top_at_mark_start]: they are parameters here, the last two by the
    index of the region. *)
Variables reset_age increment_age : ShenandoahHeapRegion -> ShenandoahHeapRegion.
Variables top_of top_at_mark_start : nat -> Z.

(** The body of the loop of [update_region_ages], for region [i]. *)
Definition update_region_age (aging_cycle : bool) (i : nat)
    (r : ShenandoahHeapRegion) : ShenandoahHeapRegion :=
  if r_is_active r && is_young r then
    let tams := top_at_mark_start i in
    let top := top_of i in
    if tams <? top then reset_age r
    else if aging_cycle then increment_age r
    else r
  else r.

(** The loop [for (i = 0; i < num_regions(); i++)], from index [i] on, with
    [steps] iterations left. *)
Fixpoint update_region_ages_from (aging_cycle : bool) (steps i : nat)
    (rs : list ShenandoahHeapRegion) : list ShenandoahHeapRegion :=
  match steps with
  | O => rs
  | S steps' =>
      match rs !! i with
      | Some r =>
          update_region_ages_from aging_cycle steps' (S i)
            (<[i := update_region_age aging_cycle i r]> rs)
      | None => rs
      end
  end.

(** [ShenandoahGenerationalHeap::update_region_ages] *)
Definition update_region_ages : M unit :=
  fun w =>
    Some (tt, set_regions
                (update_region_ages_from (is_aging_cycle w) (length (regions w)) 0
                   (regions w)) w).

End RegionAges.

(** Stand-ins for the two age setters, for the examples. *)
Definition region_with_age (a : Z) (r : ShenandoahHeapRegion) : ShenandoahHeapRegion :=
  {| r_affiliation := r_affiliation r; r_age := a; r_is_active := r_is_active r;
     r_is_humongous := r_is_humongous r; r_coalesced := r_coalesced r |}.

(** ** The reference updater *)

(** What [ShenandoahGenerationalUpdateHeapRefsTask::do_work] reads of a
    region, next to its affiliation and flags. *)
Record RegionView := {
  rv_region : ShenandoahHeapRegion;
  rv_index : Z;
  rv_is_cset : bool;
  rv_bottom : Z;
  rv_top : Z;
  rv_update_watermark : Z
}.

(** [ShenandoahRegionChunk] *)
Record ShenandoahRegionChunk := {
  chunk_r : RegionView;
  chunk_offset : Z;
  chunk_size : Z
}.

(** What the task asks of its collaborators, in the order of the calls. *)
Inductive UpdateEvent :=
| move_collector_sets_to_mutator (cset_regions : Z)
| marked_object_oop_iterate (r : RegionView) (limit : Z)
| report_updaterefs (words : Z)
| oop_iterate_humongous_slice (r : RegionView) (start words : Z)
| do_object (obj : Z)
| process_region_slice (r : RegionView) (offset clusters end_of_range : Z).

(** The template parameter, the flags and the collaborators of the task: the
    collection set, the active generation, the marking context, the
    remembered-set scanner and the size of an object.  None of them is part
    of this file; the functions are parameters. *)
Record UpdateRefsEnv := {
  CONCURRENT : bool;
  ShenandoahPacing : bool;
  collection_set_count : Z;
  collection_set_has_old_regions : bool;
  active_generation_is_global : bool;
  CardsPerCluster : Z;
  ctx_top_at_mark_start : RegionView -> Z;
  ctx_is_marked : Z -> bool;
  ctx_get_next_marked_addr : Z -> Z -> Z;
  scanner_card_index_for_addr : Z -> Z;
  scanner_addr_for_card_index : Z -> Z;
  scanner_first_object_in_card : Z -> Z;
  size_of_object : Z -> Z
}.

(** The state one worker runs in: the regions and the chunks that the two
    shared iterators will hand to this worker, the answers that
    [check_cancelled_gc_and_yield] will give (none left means no), and the
    calls made so far, newest first. *)
Record UpdateState := {
  regions_iterator : list RegionView;
  work_chunks : list ShenandoahRegionChunk;
  cancelled_tape : list bool;
  update_trace : list UpdateEvent
}.

Definition check_cancelled_gc_and_yield (tape : list bool) : bool * list bool :=
  match tape with
  | [] => (false, [])
  | c :: rest => (c, rest)
  end.

Section Updater.

Variable fl : Flags.
Variable env : UpdateRefsEnv.

(** [pointer_delta]: the distance in heap words, computed on the byte
    addresses as a [size_t]. *)
Definition pointer_delta (left right : Z) : Z :=
  wrap ((left - right) * HeapWordSize fl) / HeapWordSize fl.

(** [do_work], the first loop, for one region: the calls made. *)
Definition update_region (r : RegionView) (tr : list UpdateEvent) : list UpdateEvent :=
  let update_watermark := rv_update_watermark r in
  let '(region_progress, tr1) :=
    if r_is_active (rv_region r) && negb (rv_is_cset r) then
      if is_young (rv_region r) then
        (true, marked_object_oop_iterate r update_watermark :: tr)
      else if is_old (rv_region r) then
        if active_generation_is_global env then
          (true, marked_object_oop_iterate r update_watermark :: tr)
        else (false, tr)
      else (false, tr)
    else (false, tr) in
  if region_progress && ShenandoahPacing env
  then report_updaterefs (pointer_delta update_watermark (rv_bottom r)) :: tr1
  else tr1.

(** [do_work], the first loop: [r] is claimed from the region iterator, and
    the loop ends when the iterator is exhausted or when the collection is
    found cancelled after a region.  The result says whether the worker
    has to return. *)
Fixpoint update_regions (rs : list RegionView) (tape : list bool)
    (tr : list UpdateEvent) : bool * list RegionView * list bool * list UpdateEvent :=
  match rs with
  | [] => (false, [], tape, tr)
  | r :: rest =>
      let tr1 := update_region r tr in
      let '(cancelled, tape1) := check_cancelled_gc_and_yield tape in
      if cancelled then (true, rest, tape1, tr1)
      else update_regions rest tape1 tr1
  end.

(** The search for the first object at or after the start of the chunk, by
    the crossing map: the [while (true)] loop, with a bound on its
    iterations. *)
Fixpoint first_object_from (fuel : nat) (card_index end_of_range : Z) : option Z :=
  match fuel with
  | O => None
  | S fuel' =>
      let first_object := scanner_first_object_in_card env card_index in
      if negb (first_object =? nullptr) then Some first_object
      else if scanner_addr_for_card_index env (add card_index 1) <? end_of_range
      then first_object_from fuel' (add card_index 1) end_of_range
      else Some end_of_range
  end.

(** The loop [while (p < end_of_range)] over the marked objects of the
    chunk, with a bound on its iterations. *)
Fixpoint update_objects (fuel : nat) (p tams end_of_range : Z)
    (tr : list UpdateEvent) : option (list UpdateEvent) :=
  match fuel with
  | O => None
  | S fuel' =>
      if p <? end_of_range then
        let tr1 := do_object p :: tr in
        let p1 := p + size_of_object env p in
        let p2 := if p1 <? tams then ctx_get_next_marked_addr env p1 tams else p1 in
        update_objects fuel' p2 tams end_of_range tr1
      else Some tr
  end.

(** A regular old region in a mixed cycle: find the first object, then
    update the objects up to the end of the range. *)
Definition update_marked_range (fuel : nat) (r : RegionView)
    (start_of_range end_of_range : Z) (tr : list UpdateEvent)
    : option (list UpdateEvent) :=
  let card_index := scanner_card_index_for_addr env start_of_range in
  let tams := ctx_top_at_mark_start env r in
  match (if tams <=? start_of_range
         then first_object_from fuel card_index end_of_range
         else if negb (ctx_is_marked env start_of_range)
              then Some (ctx_get_next_marked_addr env start_of_range tams)
              else Some start_of_range) with
  | Some p => update_objects fuel p tams end_of_range tr
  | None => None
  end.

Definition chunk_start (a : ShenandoahRegionChunk) : Z :=
  rv_bottom (chunk_r a) + chunk_offset a.

Definition chunk_end (a : ShenandoahRegionChunk) : Z :=
  let start_of_range := chunk_start a in
  let end_of_range := rv_update_watermark (chunk_r a) in
  if start_of_range + chunk_size a <? end_of_range
  then start_of_range + chunk_size a else end_of_range.

(** [do_work], the second loop, for one assignment. *)
Definition update_chunk (fuel : nat) (a : ShenandoahRegionChunk)
    (tr : list UpdateEvent) : option (list UpdateEvent) :=
  let r := chunk_r a in
  if r_is_active (rv_region r) && negb (rv_is_cset r) && is_old (rv_region r) then
    let start_of_range := chunk_start a in
    let end_of_range := chunk_end a in
    match
      (if collection_set_has_old_regions env then
         if r_is_humongous (rv_region r) then
           if start_of_range <? end_of_range
           then Some (oop_iterate_humongous_slice r start_of_range (chunk_size a) :: tr)
           else Some tr
         else
           if start_of_range <? end_of_range
           then update_marked_range fuel r start_of_range end_of_range tr
           else Some tr
       else
         if start_of_range <? end_of_range then
           let cluster_size := mul (card_size_in_words fl) (CardsPerCluster env) in
           let clusters := chunk_size a / cluster_size in
           Some (process_region_slice r (chunk_offset a) clusters end_of_range :: tr)
         else Some tr)
    with
    | Some tr1 =>
        if ShenandoahPacing env && (start_of_range <? end_of_range)
        then Some (report_updaterefs (pointer_delta end_of_range start_of_range) :: tr1)
        else Some tr1
    | None => None
    end
  else Some tr.

(** [do_work], the second loop: the collection is checked for cancellation
    before a chunk is claimed. *)
Fixpoint update_chunks (fuel : nat) (chunks : list ShenandoahRegionChunk)
    (tape : list bool) (tr : list UpdateEvent)
    : option (list ShenandoahRegionChunk * list bool * list UpdateEvent) :=
  let '(cancelled, tape1) := check_cancelled_gc_and_yield tape in
  if cancelled then Some (chunks, tape1, tr)
  else
    match chunks with
    | [] => Some ([], tape1, tr)
    | a :: rest =>
        match update_chunk fuel a tr with
        | Some tr1 => update_chunks fuel rest tape1 tr1
        | None => None
        end
    end.

(** [ShenandoahGenerationalUpdateHeapRefsTask::do_work]; [fuel] bounds the
    iterations of each of the two inner loops, and [None] is a run that
    needs more. *)
Definition do_work (fuel : nat) (worker_id : Z) (s : UpdateState) : option UpdateState :=
  let tr0 :=
    if CONCURRENT env && (worker_id =? 0)
    then move_collector_sets_to_mutator (collection_set_count env) :: update_trace s
    else update_trace s in
  let '(cancelled, rs, tape1, tr1) :=
    update_regions (regions_iterator s) (cancelled_tape s) tr0 in
  if cancelled then
    Some {| regions_iterator := rs; work_chunks := work_chunks s;
            cancelled_tape := tape1; update_trace := tr1 |}
  else if negb (active_generation_is_global env) then
    match update_chunks fuel (work_chunks s) tape1 tr1 with
    | Some (chunks, tape2, tr2) =>
        Some {| regions_iterator := rs; work_chunks := chunks;
                cancelled_tape := tape2; update_trace := tr2 |}
    | None => None
    end
  else
    Some {| regions_iterator := rs; work_chunks := work_chunks s;
            cancelled_tape := tape1; update_trace := tr1 |}.

End Updater.



(** What one assignment allows: no object at or beyond the end of the
    clamped range, slices that start at the chunk's start, and a report of
    the length of the clamped range. *)
Definition event_within_chunk (fl : Flags) (a : ShenandoahRegionChunk)
    (e : UpdateEvent) : Prop :=
  chunk_start a < chunk_end a /\
  match e with
  | do_object p => p < chunk_end a
  | oop_iterate_humongous_slice r start words =>
      r = chunk_r a /\ start = chunk_start a /\ words = chunk_size a
  | process_region_slice r offset _ end_of_range =>
      r = chunk_r a /\ offset = chunk_offset a /\ end_of_range = chunk_end a
  | report_updaterefs n => n = pointer_delta fl (chunk_end a) (chunk_start a)
  | _ => False
  end.

(** The objects of a log, oldest first. *)
Fixpoint objects_updated (tr : list UpdateEvent) : list Z :=
  match tr with
  | [] => []
  | do_object p :: rest => objects_updated rest ++ [p]
  | _ :: rest => objects_updated rest
  end.

(** What the loops need of the collaborators to make progress: objects
    have a size, the next marked address is not behind, card indices do
    not exceed the addresses of their cards, and addresses are not
    negative. *)
Definition collaborators_progress (env : UpdateRefsEnv) : Prop :=
  (forall p, 0 < size_of_object env p) /\
  (forall p tams, p <= ctx_get_next_marked_addr env p tams) /\
  (forall c, 0 <= c -> c <= scanner_addr_for_card_index env c) /\
  (forall c, 0 <= scanner_first_object_in_card env c).

Definition chunks_below (bound : Z) (chunks : list ShenandoahRegionChunk) : Prop :=
  Forall (fun a => 0 <= chunk_start a /\ rv_update_watermark (chunk_r a) <= bound) chunks.

(** A cycle over a young and an old region and one chunk of the old one:
    cards of 64 words, clusters of 64 cards, every object 8 words long and
    marked. *)
Definition example_update_env (global mixed : bool) : UpdateRefsEnv :=
  {| CONCURRENT := true;
     ShenandoahPacing := true;
     collection_set_count := 1;
     collection_set_has_old_regions := mixed;
     active_generation_is_global := global;
     CardsPerCluster := 64;
     ctx_top_at_mark_start := fun r => rv_top r;
     ctx_is_marked := fun _ => true;
     ctx_get_next_marked_addr := fun p tams => Z.min (Z.max p tams) (p + 8);
     scanner_card_index_for_addr := fun a => a / 64;
     scanner_addr_for_card_index := fun c => c * 64;
     scanner_first_object_in_card := fun c => Z.max 0 (c * 64);
     size_of_object := fun _ => 8 |}.

Definition young_region_view : RegionView :=
  {| rv_region := evacuated_region; rv_index := 0; rv_is_cset := false;
     rv_bottom := 1048576; rv_top := 1048832; rv_update_watermark := 1048832 |}.

Definition old_region_view : RegionView :=
  {| rv_region := {| r_affiliation := OLD_GENERATION; r_age := 0; r_is_active := true;
                     r_is_humongous := false; r_coalesced := false |};
     rv_index := 1; rv_is_cset := false;
     rv_bottom := 1179648; rv_top := 1179712; rv_update_watermark := 1179712 |}.

Definition example_chunk : ShenandoahRegionChunk :=
  {| chunk_r := old_region_view; chunk_offset := 0; chunk_size := 4096 |}.

Definition example_update_state (tape : list bool) : UpdateState :=
  {| regions_iterator := [young_region_view; old_region_view];
     work_chunks := [example_chunk];
     cancelled_tape := tape;
     update_trace := [] |}.

(** ** The constructor *)

(** The initialisers of [_min_plab_size] and [_max_plab_size] in the
    constructor of [ShenandoahGenerationalHeap]. *)
Definition heap_constructed (fl : Flags) (MaxTLABSizeWords ShenandoahMaxEvacLABRatio : Z)
    : Prop :=
  plab_min_size fl = calculate_min_plab (PLAB_min_size fl) (card_size_in_words fl) /\
  plab_max_size fl
    = calculate_max_plab MaxTLABSizeWords ShenandoahMaxEvacLABRatio (PLAB_min_size fl)
        (card_size_in_words fl).

(** What [calculate_max_plab] aligns down. *)
Definition max_plab_bound (MaxTLABSizeWords ShenandoahMaxEvacLABRatio PLAB_min : Z) : Z :=
  if 0 <? ShenandoahMaxEvacLABRatio
  then MIN2 MaxTLABSizeWords (mul PLAB_min ShenandoahMaxEvacLABRatio)
  else MaxTLABSizeWords.

(** ** Promotion and the out-of-memory latch *)

(** What [evacuate_object] asks before it tries a promotion: the thread is
    not out of memory, the cycle is young, the mark word is neither a
    forwarding pointer nor displaced, and the ages of the region and of the
    object add up to the tenuring threshold. *)
Definition promotion_eligible (w : World) (r : ShenandoahHeapRegion) (o : oopDesc) : bool :=
  negb (oom_during_evac (tld w)) && active_generation_is_young w &&
  negb (is_marked (obj_mark o)) && negb (has_displaced_mark_helper (obj_mark o)) &&
  (tenuring_threshold w <=? UInt.add (r_age r) (mark_age (obj_mark o))).

(** A thread that has signalled out-of-memory during evacuation has its
    latch set. *)
Definition latched_once_signalled (w : World) : Prop :=
  In handle_out_of_memory_during_evacuation (trace w) ->
  oom_during_evac (tld w) = true.

(** * Properties *)

(** ** Machine arithmetic *)

Lemma modulus_eq : SizeT.modulus = 18446744073709551616.
Proof. reflexivity. Qed.

Lemma half_modulus_eq : half_modulus = 9223372036854775808.
Proof. reflexivity. Qed.

Lemma wrap_range x : in_range (wrap x).
Proof. unfold in_range, wrap. apply Z.mod_pos_bound. rewrite modulus_eq. lia. Qed.

Lemma wrap_small x : in_range x -> wrap x = x.
Proof. unfold in_range, wrap. intros H. apply Z.mod_small. exact H. Qed.

Lemma wrap_le x : 0 <= x -> wrap x <= x.
Proof. unfold wrap. intros H. apply Z.mod_le; [exact H | rewrite modulus_eq; lia]. Qed.

Lemma MIN2_le_l a b : MIN2 a b <= a.
Proof. unfold MIN2. destruct (Z.ltb_spec a b); lia. Qed.

Lemma MIN2_le_r a b : MIN2 a b <= b.
Proof. unfold MIN2. destruct (Z.ltb_spec a b); lia. Qed.

Lemma MIN2_eq_min a b : MIN2 a b = Z.min a b.
Proof. unfold MIN2. destruct (Z.ltb_spec a b); lia. Qed.

Lemma to_ssize_t_small x : 0 <= x < half_modulus -> to_ssize_t x = x.
Proof.
  intros H. unfold to_ssize_t.
  rewrite wrap_small
    by (unfold in_range; rewrite modulus_eq; rewrite half_modulus_eq in H; lia).
  destruct (Z.ltb_spec x half_modulus); lia.
Qed.

Lemma to_ssize_t_neg x : 0 < x <= half_modulus -> to_ssize_t (- x) = - x.
Proof.
  intros H. unfold to_ssize_t, wrap.
  rewrite half_modulus_eq in *.
  assert (E : (- x) mod SizeT.modulus = SizeT.modulus - x).
  { symmetry. apply (Z.mod_unique_pos _ _ (-1)); rewrite modulus_eq; lia. }
  rewrite E. rewrite modulus_eq.
  destruct (Z.ltb_spec (18446744073709551616 - x) 9223372036854775808); lia.
Qed.

(** A [size_t] divided by a region size of at least two bytes fits
    [ssize_t]. *)
Lemma region_count_fits x rsb :
  in_range x -> 2 <= rsb -> 0 <= x / rsb < half_modulus.
Proof.
  unfold in_range. rewrite modulus_eq, half_modulus_eq. intros Hx Hr. split.
  - apply Z.div_pos; lia.
  - apply Z.div_lt_upper_bound; lia.
Qed.

(** ** The generation balancer *)

Section BalancerFacts.

Variable fl : Flags.
Variables (young : ShenandoahYoungGeneration) (old : ShenandoahOldGeneration).
Variables old_xfer_limit old_cset_regions : Z.

Hypothesis region_size_ok : 2 <= region_size_bytes fl.
Hypothesis xfer_limit_ok : in_range old_xfer_limit.
Hypothesis cset_ok : in_range old_cset_regions.
Hypothesis unaffiliated_ok : in_range (old_free_unaffiliated_regions old).

Let balance : Z :=
  old_region_balance
    (compute_old_generation_balance fl young old old_xfer_limit old_cset_regions).

(** The surplus branch stores a count between zero and the number of
    unaffiliated regions; the deficit branch stores the negation of a count
    bounded by the transfer limit. *)
Lemma balance_cases :
  (0 <= balance /\ balance <= old_free_unaffiliated_regions old + old_cset_regions) \/
  (balance <= 0 /\ - balance <= old_xfer_limit / region_size_bytes fl).
Proof.
  unfold balance, compute_old_generation_balance. cbv zeta.
  match goal with |- context [if ?c then _ else _] => destruct c end; cbn [old_region_balance set_region_balance].
  - left.
    match goal with |- context [MIN2 ?a ?b] =>
      pose proof (MIN2_le_l a b) as Hl; pose proof (MIN2_le_r a b) as Hr;
      assert (H0 : 0 <= MIN2 a b);
      [ rewrite MIN2_eq_min; apply Z.min_glb;
        [ apply region_count_fits; [apply wrap_range | exact region_size_ok]
        | apply wrap_range ] | ];
      assert (Hs : 0 <= a < half_modulus)
        by (apply region_count_fits; [apply wrap_range | exact region_size_ok]);
      assert (Hu : b <= old_free_unaffiliated_regions old + old_cset_regions)
        by (apply wrap_le; unfold in_range in *; lia)
    end.
    rewrite to_ssize_t_small by lia. lia.
  - right.
    match goal with |- context [MIN2 ?a ?b] =>
      pose proof (MIN2_le_r a b) as Hr;
      assert (H0 : 0 <= MIN2 a b);
      [ rewrite MIN2_eq_min; apply Z.min_glb;
        [ apply region_count_fits; [apply wrap_range | exact region_size_ok]
        | apply region_count_fits; [exact xfer_limit_ok | exact region_size_ok] ] | ];
      assert (Hs : 0 <= b < half_modulus)
        by (apply region_count_fits; [exact xfer_limit_ok | exact region_size_ok]);
      remember (MIN2 a b) as d eqn:Hd
    end.
    rewrite (to_ssize_t_small d) by lia.
    unfold ssub. replace (0 - d) with (- d) by lia.
    destruct (Z.eq_dec d 0) as [Hz | Hne].
    + rewrite Hz. change (to_ssize_t (- 0)) with 0. lia.
    + rewrite to_ssize_t_neg by lia. lia.
Qed.

End BalancerFacts.

(** C1, as amended: the region balance stored by
    [compute_old_generation_balance], when it is a deficit (a transfer
    towards old), is at most [old_xfer_limit / region_size_bytes] regions;
    when it is a surplus (a transfer towards young), it is at most
    [free_unaffiliated_regions + old_cset_regions] regions. *)
Theorem compute_old_generation_balance_bounds
    (fl : Flags) (young : ShenandoahYoungGeneration) (old : ShenandoahOldGeneration)
    (old_xfer_limit old_cset_regions : Z) :
  2 <= region_size_bytes fl ->
  in_range old_xfer_limit ->
  in_range old_cset_regions ->
  in_range (old_free_unaffiliated_regions old) ->
  let b := old_region_balance
             (compute_old_generation_balance fl young old old_xfer_limit old_cset_regions) in
  (b < 0 -> - b <= old_xfer_limit / region_size_bytes fl) /\
  (0 < b -> b <= old_free_unaffiliated_regions old + old_cset_regions).
Proof.
  intros Hr Hx Hc Hu b.
  destruct (balance_cases fl young old old_xfer_limit old_cset_regions Hr Hx Hc Hu)
    as [[H1 H2] | [H1 H2]]; fold b in H1, H2; split; intros; lia.
Qed.

(** The starved old generation is granted a transfer of five regions. *)
Lemma starved_old_generation_balance :
  old_region_balance
    (compute_old_generation_balance example_heap_flags large_young_generation
       starved_old_generation (10 * 1048576) 0) = -5.
Proof. vm_compute. reflexivity. Qed.

Lemma compute_old_generation_balance_bounds_witness :
  let b := old_region_balance
             (compute_old_generation_balance example_heap_flags large_young_generation
                starved_old_generation (10 * 1048576) 0) in
  (b < 0 -> - b <= (10 * 1048576) / region_size_bytes example_heap_flags) /\
  (0 < b -> b <= old_free_unaffiliated_regions starved_old_generation + 0).
Proof.
  apply (compute_old_generation_balance_bounds example_heap_flags large_young_generation
           starved_old_generation (10 * 1048576) 0).
  - vm_compute. discriminate.
  - unfold in_range. rewrite modulus_eq. lia.
  - unfold in_range. rewrite modulus_eq. lia.
  - unfold in_range. rewrite modulus_eq. cbn. lia.
Defined.

(** C1, as the specification words it, fails: with no unaffiliated old
    region and an empty collection set, five regions are still marked for
    transfer to old. *)
Lemma balance_sign_as_specified_fails :
  ~ balance_sign_as_specified example_heap_flags large_young_generation
      starved_old_generation (10 * 1048576) 0.
Proof.
  unfold balance_sign_as_specified. cbv zeta.
  rewrite starved_old_generation_balance. cbn.
  intros [_ H]. specialize (H ltac:(lia)). lia.
Qed.

(** ** The allocation buffer manager *)

Ltac heap_unfold :=
  unfold bind, ret, get_tld, modify_tld, get_world, modify_old_generation,
    modify_young_generation, emit, object_at, store_object, fill_with_object,
    the_plab, the_gclab, ShouldNotReachHere.

(** [retire_plab] returns, and touches neither the preferred size, nor the
    promotion and retry flags, nor the allocator. *)
Lemma retire_plab_frame (fl : Flags) (w : World) (b : PLAB) :
  plab (tld w) = Some b ->
  exists w',
    retire_plab fl w = Some (tt, w') /\
    plab (tld w') = Some (Plab.retire b) /\
    plab_size (tld w') = plab_size (tld w) /\
    allow_plab_promotions (tld w') = allow_plab_promotions (tld w) /\
    plab_retries_enabled (tld w') = plab_retries_enabled (tld w) /\
    alloc_tape w' = alloc_tape w /\
    plab_requests (trace w') = plab_requests (trace w).
Proof.
  intros Hb. unfold retire_plab. heap_unfold. cbn.
  destruct (0 <? sub (plab_actual_size (tld w)) (plab_promoted (tld w)));
    cbn; rewrite Hb; cbn;
    (destruct (Plab.top b <? plab_end b); heap_unfold; cbn;
     match goal with |- context [if ?c then _ else _] => destruct c end; cbn;
     eexists; (split; [reflexivity |]); cbn; repeat split; reflexivity).
Qed.

Lemma allocate_memory_frame (req : ShenandoahAllocRequest) (w : World) :
  exists granted w',
    allocate_memory req w = Some ((next_alloc_result w, granted), w') /\
    plab (tld w') = plab (tld w) /\
    plab_size (tld w') = plab_size (tld w) /\
    plab_retries_enabled (tld w') = plab_retries_enabled (tld w) /\
    allow_plab_promotions (tld w')
      = default (allow_plab_promotions (tld w)) (allocator_sets_promotions w) /\
    trace w' = allocate_memory_called req :: trace w /\
    mem w' = mem w.
Proof.
  unfold allocate_memory, next_alloc_result, allocator_sets_promotions. cbn.
  destruct (alloc_tape w) as [| r rest]; cbn.
  - eexists _, _. split; [reflexivity |]. cbn. repeat split.
  - eexists _, _. split; [reflexivity |]. cbn.
    unfold apply_response.
    destruct (resp_plab_promoted r), (resp_plab_actual_size r),
      (resp_allow_plab_promotions r); cbn; repeat split.
Qed.

Lemma allocate_new_plab_frame (min_size word_size : Z) (w : World) :
  exists actual w',
    allocate_new_plab min_size word_size w = Some ((next_alloc_result w, actual), w') /\
    plab (tld w') = plab (tld w) /\
    plab_size (tld w') = plab_size (tld w) /\
    plab_retries_enabled (tld w') = plab_retries_enabled (tld w) /\
    allow_plab_promotions (tld w')
      = default (allow_plab_promotions (tld w)) (allocator_sets_promotions w) /\
    trace w' = allocate_memory_called (for_plab min_size word_size) :: trace w.
Proof.
  destruct (allocate_memory_frame (for_plab min_size word_size) w)
    as (granted & w' & E & F1 & F2 & F3 & F4 & F5 & _).
  assert (F := conj F1 (conj F2 (conj F3 (conj F4 F5)))).
  unfold allocate_new_plab, bind. rewrite E.
  destruct (next_alloc_result w =? nullptr) eqn:Hn; unfold ret.
  - exists 0, w'. split; [| exact F]. apply Z.eqb_eq in Hn. rewrite Hn. reflexivity.
  - exists granted, w'. split; [reflexivity | exact F].
Qed.

(** What [allocate_from_plab_slow] does, branch by branch. *)
Lemma allocate_from_plab_slow_outcome (fl : Flags) (w : World) (size : Z)
    (is_promotion : bool) (b : PLAB) :
  plab (tld w) = Some b ->
  exists obj w',
    allocate_from_plab_slow fl size is_promotion w = Some (obj, w') /\
    plab_size (tld w') = slow_path_future_size fl w /\
    (slow_path_cur_size fl w < size ->
     obj = nullptr /\ w' = only_preferred_size_recorded fl w) /\
    (size <= slow_path_cur_size fl w -> plab_min_size fl <= Plab.words_remaining b ->
     obj = nullptr /\ w' = only_preferred_size_recorded fl w) /\
    (size <= slow_path_cur_size fl w -> Plab.words_remaining b < plab_min_size fl ->
     plab_requests (trace w') = S (plab_requests (trace w)) /\
     (next_alloc_result w = nullptr ->
      obj = nullptr /\
      plab_retries_enabled (tld w') = plab_retries_enabled (tld w) /\
      allow_plab_promotions (tld w')
        = if slow_path_min_size fl size =? plab_min_size fl then false
          else default (allow_plab_promotions (tld w)) (allocator_sets_promotions w)) /\
     (next_alloc_result w <> nullptr -> plab_retries_enabled (tld w') = true)).
Proof.
  intros Hb.
  unfold allocate_from_plab_slow, only_preferred_size_recorded.
  fold (slow_path_min_size fl size).
  unfold bind at 1. unfold get_tld at 1. cbn beta iota.
  fold (slow_path_cur_size fl w). fold (slow_path_future_size fl w).
  set (cur := slow_path_cur_size fl w). set (fut := slow_path_future_size fl w).
  unfold bind at 1. unfold modify_tld at 1. cbn beta iota.
  set (w0 := set_tld (tld_set_plab_size fut (tld w)) w).
  assert (Hb0 : plab (tld w0) = Some b) by exact Hb.
  destruct (Z.ltb_spec cur size) as [Hlt | Hge].
  { exists nullptr, w0. split; [reflexivity |]. split; [reflexivity |].
    repeat split; intros; try lia; reflexivity. }
  unfold bind at 1. unfold the_plab at 1. rewrite Hb0.
  destruct (Z.ltb_spec (Plab.words_remaining b) (plab_min_size fl)) as [Hrem | Hrem].
  2:{ exists nullptr, w0. split; [reflexivity |]. split; [reflexivity |].
      repeat split; intros; try lia; reflexivity. }
  destruct (retire_plab_frame fl w0 b Hb0) as (w1 & E1 & P1 & S1 & A1 & R1 & T1 & Q1).
  unfold bind at 1. rewrite E1.
  destruct (allocate_new_plab_frame (slow_path_min_size fl size) cur w1)
    as (actual & w2 & E2 & P2 & S2 & R2 & A2 & T2).
  assert (Hnext : next_alloc_result w1 = next_alloc_result w)
    by (unfold next_alloc_result; rewrite T1; reflexivity).
  assert (Hsets : allocator_sets_promotions w1 = allocator_sets_promotions w)
    by (unfold allocator_sets_promotions; rewrite T1; reflexivity).
  assert (Q2 : plab_requests (trace w2) = S (plab_requests (trace w)))
    by (rewrite T2; cbn; rewrite Q1; reflexivity).
  unfold bind at 1. rewrite E2. rewrite Hnext in *. rewrite Hsets in *.
  destruct (Z.eqb_spec (next_alloc_result w) nullptr) as [Hnull | Hnn].
  - destruct (slow_path_min_size fl size =? plab_min_size fl) eqn:Hmin.
    + heap_unfold. cbn.
      eexists _, _. split; [reflexivity |]. cbn.
      split; [rewrite S2, S1; reflexivity |].
      repeat split; intros; try lia; try contradiction; try exact Q2.
      rewrite R2, R1. reflexivity.
    + heap_unfold. cbn.
      eexists _, _. split; [reflexivity |].
      split; [rewrite S2, S1; reflexivity |].
      repeat split; intros; try lia; try contradiction; try exact Q2.
      * rewrite R2, R1. reflexivity.
      * rewrite A2, A1. reflexivity.
  - heap_unfold. cbn. rewrite P2, P1. cbn.
    destruct (is_promotion && negb (allow_plab_promotions (tld w2))); cbn.
    + eexists _, _. split; [reflexivity |]. cbn.
      split; [rewrite S2, S1; reflexivity |].
      repeat split; intros; try lia; try contradiction; try exact Q2.
    + destruct (Plab.allocate _ size) as [obj b3] eqn:Ha. cbn.
      eexists _, _. split; [reflexivity |]. cbn.
      split; [rewrite S2, S1; reflexivity |].
      repeat split; intros; try lia; try contradiction; try exact Q2.
Qed.

(** A promotion by a thread whose promotion flag is cleared fails at once:
    nothing is allocated and nothing changes. *)
Lemma allocate_from_plab_fails_fast (fl : Flags) (w : World) (size : Z) :
  allow_plab_promotions (tld w) = false ->
  allocate_from_plab fl size true w = Some (nullptr, w).
Proof.
  intros Ha. unfold allocate_from_plab, bind, get_tld.
  destruct (plab (tld w)); [rewrite Ha |]; reflexivity.
Qed.

(** C8: every retirement of a buffer computes the bytes not promoted as
    [plab_actual_size - plab_promoted], in [size_t]; it hands that amount
    back to the old generation's promotion reserve, by one call of
    [unexpend_promoted] when the amount is positive and by none when it is
    zero, and resets both counters; the promoted bytes and the bytes handed
    back add up, in [size_t], to the size the buffer was granted.  When the
    promoted bytes do not exceed the granted size, nothing wraps around and
    the sums are those of the integers. *)
Theorem retire_plab_conservation (fl : Flags) (w : World) (b : PLAB) :
  plab (tld w) = Some b ->
  in_range (plab_actual_size (tld w)) ->
  let not_promoted := sub (plab_actual_size (tld w)) (plab_promoted (tld w)) in
  exists w',
    retire_plab fl w = Some (tt, w') /\
    unexpended_bytes (trace w') - unexpended_bytes (trace w) = not_promoted /\
    unexpend_calls (trace w')
      = (unexpend_calls (trace w) + (if (0 <? not_promoted)%Z then 1 else 0))%nat /\
    plab_promoted (tld w') = 0 /\
    plab_actual_size (tld w') = 0 /\
    add (plab_promoted (tld w)) not_promoted = plab_actual_size (tld w) /\
    (0 <= plab_promoted (tld w) <= plab_actual_size (tld w) ->
     not_promoted = plab_actual_size (tld w) - plab_promoted (tld w) /\
     plab_promoted (tld w) + not_promoted = plab_actual_size (tld w)).
Proof.
  intros Hb Ha not_promoted.
  assert (Hnp : in_range not_promoted) by apply wrap_range.
  assert (Hsum : add (plab_promoted (tld w)) not_promoted = plab_actual_size (tld w)).
  { subst not_promoted. unfold add, sub, wrap. rewrite Zplus_mod_idemp_r.
    replace (plab_promoted (tld w) + (plab_actual_size (tld w) - plab_promoted (tld w)))
      with (plab_actual_size (tld w)) by lia.
    apply Z.mod_small. exact Ha. }
  assert (Hexact : 0 <= plab_promoted (tld w) <= plab_actual_size (tld w) ->
                   not_promoted = plab_actual_size (tld w) - plab_promoted (tld w)).
  { intros H. subst not_promoted. unfold sub. apply wrap_small.
    unfold in_range in *. lia. }
  unfold retire_plab. heap_unfold. cbn. fold not_promoted.
  destruct (Z.ltb_spec 0 not_promoted) as [Hpos | Hzero];
    cbn; rewrite Hb; cbn;
    (destruct (Plab.top b <? plab_end b); heap_unfold; cbn;
     match goal with |- context [if ?c then _ else _] => destruct c end; cbn;
     eexists; (split; [reflexivity |]); cbn;
     (split; [unfold in_range in Hnp; lia |]);
     (split; [lia |]); (split; [reflexivity |]); (split; [reflexivity |]);
     (split; [exact Hsum |]);
     intros H; pose proof (Hexact H); lia).
Qed.

Lemma retire_plab_conservation_witness :
  exists w',
    retire_plab example_heap_flags (example_world (worker 320) []) = Some (tt, w') /\
    unexpended_bytes (trace w') - unexpended_bytes (trace (example_world (worker 320) []))
      = 1536 /\
    plab_promoted (tld w') = 0 /\
    plab_actual_size (tld w') = 0.
Proof.
  destruct (retire_plab_conservation example_heap_flags (example_world (worker 320) [])
              nearly_full_plab eq_refl)
    as (w' & E & Hbytes & _ & Hp & Ha & _).
  - unfold in_range. rewrite modulus_eq. cbn. lia.
  - exists w'. split; [exact E |]. split; [exact Hbytes |]. split; assumption.
Defined.

(** C6, as amended: every call of [allocate_from_plab_slow] returns and
    leaves [min (2 * cur_size) plab_max_size] as the thread's preferred
    size, where [cur_size] is the previous preferred size or, when that is
    zero, [plab_min_size]; and when [cur_size], the size the replacement
    buffer would be asked for, is smaller than the object, the call returns
    [nullptr] having done nothing else: the buffer is not retired.  The same
    holds when the doubled and capped size is smaller than the object, as
    long as [cur_size] is within the cap. *)
Theorem allocate_from_plab_slow_preferred_size (fl : Flags) (w : World) (size : Z)
    (is_promotion : bool) (b : PLAB) :
  plab (tld w) = Some b ->
  exists obj w',
    allocate_from_plab_slow fl size is_promotion w = Some (obj, w') /\
    plab_size (tld w')
      = MIN2 (mul (if plab_size (tld w) =? 0 then plab_min_size fl else plab_size (tld w)) 2)
             (plab_max_size fl) /\
    (slow_path_cur_size fl w < size ->
     obj = nullptr /\ w' = only_preferred_size_recorded fl w) /\
    (0 <= slow_path_cur_size fl w <= plab_max_size fl ->
     2 * slow_path_cur_size fl w < SizeT.modulus ->
     slow_path_future_size fl w < size ->
     obj = nullptr /\ w' = only_preferred_size_recorded fl w).
Proof.
  intros Hb.
  destruct (allocate_from_plab_slow_outcome fl w size is_promotion b Hb)
    as (obj & w' & E & Hsize & Hsmall & _ & _).
  exists obj, w'. split; [exact E |]. split; [exact Hsize |]. split; [exact Hsmall |].
  intros Hcur Hdbl Hfut. apply Hsmall.
  unfold slow_path_future_size in Hfut.
  assert (Hm : mul (slow_path_cur_size fl w) 2 = 2 * slow_path_cur_size fl w).
  { unfold mul. rewrite wrap_small; [lia |]. unfold in_range. lia. }
  rewrite Hm, MIN2_eq_min in Hfut. lia.
Qed.

Lemma allocate_from_plab_slow_preferred_size_witness :
  exists obj w',
    allocate_from_plab_slow example_heap_flags 16 true (example_world (worker 0) [])
      = Some (obj, w') /\
    plab_size (tld w') = 640.
Proof.
  destruct (allocate_from_plab_slow_preferred_size example_heap_flags
              (example_world (worker 0) []) 16 true nearly_full_plab eq_refl)
    as (obj & w' & E & Hsize & _).
  exists obj, w'. split; [exact E | exact Hsize].
Defined.

(** C6, as the specification words it, fails for a thread that has no
    preferred size yet: the slow path leaves 640 words there, not 0. *)
Lemma preferred_size_as_specified_fails :
  ~ preferred_size_as_specified example_heap_flags (example_world (worker 0) []) 16 true.
Proof.
  intros H.
  destruct (allocate_from_plab_slow_outcome example_heap_flags
              (example_world (worker 0) []) 16 true nearly_full_plab eq_refl)
    as (obj & w' & E & Hsize & _).
  specialize (H obj w' E). rewrite Hsize in H. vm_compute in H. discriminate H.
Qed.

(** C7, as amended: when the slow path asks for a replacement buffer and
    the request fails, the thread's promotions are disabled if the minimum
    size asked for was [plab_min_size], and promotions by that thread then
    fail at once; if the minimum asked for was larger (an object larger than
    [plab_min_size]), the slow path leaves the promotion flag as the
    allocator left it.  When the buffer is granted, retries are enabled for
    the thread. *)
Theorem allocate_from_plab_slow_refill (fl : Flags) (w : World) (size : Z)
    (is_promotion : bool) (b : PLAB) :
  plab (tld w) = Some b ->
  size <= slow_path_cur_size fl w ->
  Plab.words_remaining b < plab_min_size fl ->
  exists obj w',
    allocate_from_plab_slow fl size is_promotion w = Some (obj, w') /\
    plab_requests (trace w') = S (plab_requests (trace w)) /\
    (next_alloc_result w = nullptr ->
     slow_path_min_size fl size = plab_min_size fl ->
     obj = nullptr /\
     allow_plab_promotions (tld w') = false /\
     forall size', allocate_from_plab fl size' true w' = Some (nullptr, w')) /\
    (next_alloc_result w = nullptr ->
     slow_path_min_size fl size <> plab_min_size fl ->
     obj = nullptr /\
     allow_plab_promotions (tld w')
       = default (allow_plab_promotions (tld w)) (allocator_sets_promotions w)) /\
    (next_alloc_result w <> nullptr -> plab_retries_enabled (tld w') = true).
Proof.
  intros Hb Hfit Hrem.
  destruct (allocate_from_plab_slow_outcome fl w size is_promotion b Hb)
    as (obj & w' & E & _ & _ & _ & Hrefill).
  destruct (Hrefill Hfit Hrem) as (Hreq & Hfail & Hok).
  exists obj, w'. split; [exact E |]. split; [exact Hreq |]. repeat split.
  - apply Hfail; assumption.
  - destruct (Hfail H) as (_ & _ & Ha). rewrite Ha.
    apply Z.eqb_eq in H0. rewrite H0. reflexivity.
  - intros size'. apply allocate_from_plab_fails_fast.
    destruct (Hfail H) as (_ & _ & Ha). rewrite Ha.
    apply Z.eqb_eq in H0. rewrite H0. reflexivity.
  - apply Hfail; assumption.
  - destruct (Hfail H) as (_ & _ & Ha). rewrite Ha.
    apply Z.eqb_neq in H0. rewrite H0. reflexivity.
  - exact Hok.
Qed.

Lemma allocate_from_plab_slow_refill_witness :
  exists obj w',
    allocate_from_plab_slow example_heap_flags 16 true (example_world (worker 320) [])
      = Some (obj, w') /\
    obj = nullptr /\ allow_plab_promotions (tld w') = false.
Proof.
  destruct (allocate_from_plab_slow_refill example_heap_flags
              (example_world (worker 320) []) 16 true nearly_full_plab)
    as (obj & w' & E & _ & Hfail & _).
  - reflexivity.
  - vm_compute. discriminate.
  - vm_compute. reflexivity.
  - exists obj, w'. split; [exact E |].
    destruct (Hfail eq_refl eq_refl) as (Ho & Ha & _). split; assumption.
Defined.

(** C7, as the specification words it, fails for an object of 512 words:
    the request for a buffer of at least 512 words is refused, and the
    thread may still promote. *)
Lemma promotions_disabled_as_specified_fails :
  ~ promotions_disabled_as_specified example_heap_flags
      (example_world (worker 1024) []) 512 true.
Proof.
  intros H.
  destruct (allocate_from_plab_slow_outcome example_heap_flags
              (example_world (worker 1024) []) 512 true nearly_full_plab eq_refl)
    as (obj & w' & E & _ & _ & _ & Hrefill).
  destruct Hrefill as (Hreq & Hfail & _).
  - vm_compute. discriminate.
  - vm_compute. reflexivity.
  - specialize (H obj w' E Hreq eq_refl).
    destruct (Hfail eq_refl) as (_ & _ & Ha).
    rewrite H in Ha. vm_compute in Ha. discriminate Ha.
Qed.

(** ** The evacuation engine *)

Lemma set_mark_same o : set_mark (obj_mark o) o = o.
Proof. destruct o; reflexivity. Qed.

Lemma increase_object_age_eq obj add w o :
  mem w !! obj = Some o ->
  exists w', increase_object_age obj add w = Some (tt, w') /\
    mem w' = <[obj := set_mark (aged_mark (obj_mark o) add) o]> (mem w) /\
    trace w' = trace w /\ tld w' = tld w.
Proof.
  intros H. unfold increase_object_age, bind, object_at. rewrite H.
  destruct (obj_mark o) eqn:Hm; cbn.
  - eexists. split; [reflexivity |]. cbn. repeat split.
  - eexists. split; [reflexivity |]. cbn. repeat split.
  - eexists. split; [reflexivity |]. cbn. repeat split.
    rewrite <- Hm, set_mark_same. symmetry. apply insert_id. exact H.
Qed.

Lemma copy_object_eq fl p copy size r target w o :
  mem w !! p = Some o ->
  exists w', copy_object fl p copy size r target w = Some (copy, w') /\
    mem w' = <[copy := set_mark (if affiliation_eqb target YOUNG_GENERATION && is_aging_cycle w
                                  then aged_mark (obj_mark o) (UInt.add (r_age r) 1)
                                  else obj_mark o) o]> (mem w) /\
    trace w' = begin_evacuation (mul size (HeapWordSize fl)) :: trace w /\
    tld w' = tld w.
Proof.
  intros H. unfold copy_object. heap_unfold. cbn. rewrite H. cbn.
  destruct (affiliation_eqb target YOUNG_GENERATION && is_aging_cycle w).
  - edestruct (increase_object_age_eq copy (UInt.add (r_age r) 1)) as (w' & E & Hm & Ht & Hd);
      [| rewrite E].
    { cbn. apply lookup_insert_eq. }
    eexists. split; [reflexivity |]. rewrite Hm, Ht, Hd. cbn.
    rewrite insert_insert_eq. repeat split.
  - eexists. split; [reflexivity |]. cbn. rewrite set_mark_same. repeat split.
Qed.

Lemma try_update_forwardee_installs p update w o :
  mem w !! p = Some o -> is_marked (obj_mark o) = false ->
  try_update_forwardee p update w
    = Some (update, set_mem (<[p := set_mark (mark_forwarded update) o]> (mem w)) w).
Proof.
  intros H Hm. unfold try_update_forwardee, bind, object_at. rewrite H.
  destruct (obj_mark o); try discriminate Hm; reflexivity.
Qed.

Lemma try_update_forwardee_loses p update w o f :
  mem w !! p = Some o -> obj_mark o = mark_forwarded f ->
  try_update_forwardee p update w = Some (f, w).
Proof.
  intros H Hm. unfold try_update_forwardee, bind, object_at. rewrite H, Hm. reflexivity.
Qed.

Lemma finish_evacuation_winner fl copy size r target is_promo from_lab w :
  is_Some (mem w !! copy) ->
  exists w',
    finish_evacuation fl copy size r target is_promo from_lab copy w = Some (copy, w') /\
    mem w' = mem w /\ tld w' = tld w /\
    shared_gc_requests (trace w') = shared_gc_requests (trace w).
Proof.
  intros [c Hc]. unfold finish_evacuation. rewrite Z.eqb_refl.
  unfold get_object_age. heap_unfold. cbn.
  destruct (affiliation_eqb target OLD_GENERATION); cbn.
  - eexists. split; [reflexivity |]. cbn. repeat split.
  - destruct (ShenandoahGenerationalCensusAtEvac fl
              || negb (ShenandoahGenerationalAdaptiveTenuring fl)); cbn.
    + rewrite Hc. cbn. eexists. split; [reflexivity |]. cbn. repeat split.
    + eexists. split; [reflexivity |]. cbn. repeat split.
Qed.

Lemma finish_evacuation_shared_loser fl copy size r target is_promo result w :
  result <> copy ->
  finish_evacuation fl copy size r target is_promo false result w
    = Some (result, set_mem (<[copy := filler_object size]> (mem w)) w).
Proof.
  intros Hne. unfold finish_evacuation.
  destruct (Z.eqb_spec result copy) as [E | _]; [contradiction |]. reflexivity.
Qed.

(** With a copy from the shared allocator, the rest of
    [try_evacuate_object] returns and asks the allocator for nothing. *)
Lemma evacuate_shared_copy_total fl p copy size r target is_promo w :
  is_Some (mem w !! p) ->
  exists result w',
    (let* copy_val := copy_object fl p copy size r target in
     let* result := try_update_forwardee p copy_val in
     finish_evacuation fl copy size r target is_promo false result) w
      = Some (result, w') /\
    shared_gc_requests (trace w') = shared_gc_requests (trace w).
Proof.
  intros [o Hp].
  destruct (copy_object_eq fl p copy size r target w o Hp) as (w1 & E1 & M1 & T1 & D1).
  unfold bind at 1. rewrite E1.
  assert (Hq : exists o1, mem w1 !! p = Some o1).
  { rewrite M1. destruct (decide (copy = p)) as [-> | Hne].
    - rewrite lookup_insert_eq. eauto.
    - rewrite lookup_insert_ne by exact Hne. eauto. }
  destruct Hq as [o1 Hp1].
  assert (Hc1 : is_Some (mem w1 !! copy)) by (rewrite M1, lookup_insert_eq; eauto).
  assert (S1 : shared_gc_requests (trace w1) = shared_gc_requests (trace w))
    by (rewrite T1; reflexivity).
  unfold bind at 1.
  destruct (is_marked (obj_mark o1)) eqn:Hm.
  - destruct (obj_mark o1) as [| | f] eqn:Hmark; try discriminate Hm.
    rewrite (try_update_forwardee_loses p copy w1 o1 f Hp1 Hmark).
    destruct (decide (f = copy)) as [-> | Hne].
    + destruct (finish_evacuation_winner fl copy size r target is_promo false w1 Hc1)
        as (w' & E & _ & _ & S).
      exists copy, w'. split; [exact E | congruence].
    + rewrite finish_evacuation_shared_loser by exact Hne.
      eexists _, _. split; [reflexivity |]. cbn. exact S1.
  - rewrite (try_update_forwardee_installs p copy w1 o1 Hp1 Hm).
    edestruct (finish_evacuation_winner fl copy size r target is_promo false) as (w' & E & _ & _ & S);
      [| exists copy, w'; split; [exact E |]].
    + cbn. destruct (decide (p = copy)) as [-> | Hne].
      * rewrite lookup_insert_eq. eauto.
      * rewrite lookup_insert_ne by exact Hne. exact Hc1.
    + rewrite S. cbn. exact S1.
Qed.

Lemma resolve_forwarded_eq (p : Z) (w : World) (o : oopDesc) :
  mem w !! p = Some o -> resolve_forwarded p w = Some (resolved p o, w).
Proof.
  intros H. unfold resolve_forwarded, bind, object_at, resolved. rewrite H.
  destruct (obj_mark o) as [a | a | f]; try reflexivity.
  destruct (f =? nullptr); reflexivity.
Qed.

(** Without a copy, [try_evacuate_object] is its failure code. *)
Lemma try_evacuate_object_no_copy (fl : Flags) (p : Z) (from_region : ShenandoahHeapRegion)
    (target_gen : ShenandoahAffiliation) (w : World) (o : oopDesc) (from_lab : bool)
    (w2 : World) :
  mem w !! p = Some o ->
  allocate_copy fl (obj_size o) target_gen (promotion_of target_gen from_region) w
    = Some ((nullptr, from_lab), w2) ->
  try_evacuate_object fl p from_region target_gen w
    = evacuation_failed p (obj_size o) from_region target_gen w2.
Proof.
  intros Hp Ha. unfold try_evacuate_object, bind at 1, object_at at 1. rewrite Hp.
  unfold bind at 1. unfold promotion_of in Ha. rewrite Ha. reflexivity.
Qed.

(** With a copy, it is the copy, the compare-and-swap and what follows. *)
Lemma try_evacuate_object_with_copy (fl : Flags) (p : Z) (from_region : ShenandoahHeapRegion)
    (target_gen : ShenandoahAffiliation) (w : World) (o : oopDesc) (copy : Z)
    (from_lab : bool) (w2 : World) :
  mem w !! p = Some o ->
  allocate_copy fl (obj_size o) target_gen (promotion_of target_gen from_region) w
    = Some ((copy, from_lab), w2) ->
  copy <> nullptr ->
  try_evacuate_object fl p from_region target_gen w
    = (let* copy_val := copy_object fl p copy (obj_size o) from_region target_gen in
       let* result := try_update_forwardee p copy_val in
       finish_evacuation fl copy (obj_size o) from_region target_gen
         (promotion_of target_gen from_region) from_lab result) w2.
Proof.
  intros Hp Ha Hc. unfold try_evacuate_object, bind at 1, object_at at 1. rewrite Hp.
  unfold bind at 1. unfold promotion_of in Ha. rewrite Ha.
  destruct (Z.eqb_spec copy nullptr) as [E | _]; [contradiction | reflexivity].
Qed.

Lemma evacuation_failed_total (p size : Z) (r : ShenandoahHeapRegion)
    (target : ShenandoahAffiliation) (w : World) :
  is_Some (mem w !! p) ->
  exists result w',
    evacuation_failed p size r target w = Some (result, w') /\
    shared_gc_requests (trace w') = shared_gc_requests (trace w).
Proof.
  intros [o Hp]. unfold evacuation_failed.
  destruct (affiliation_eqb target OLD_GENERATION && is_young r).
  - heap_unfold. cbn. eexists _, _. split; reflexivity.
  - unfold oom_evac_handler. heap_unfold.
    destruct (affiliation_eqb target OLD_GENERATION); cbn;
      (rewrite resolve_forwarded_eq with (o := o) by exact Hp;
       eexists _, _; split; reflexivity).
Qed.

(** C4: when no copy could be allocated, a promotion (target old, source
    young) signals a failed promotion and returns [nullptr], and does
    nothing else: the out-of-memory protocol is not entered; an evacuation
    to old from elsewhere signals a failed evacuation and then goes through
    the out-of-memory protocol, returning what the object resolves to; an
    evacuation to young goes through the same protocol. *)
Theorem evacuation_failure_protocol (fl : Flags) (p : Z)
    (from_region : ShenandoahHeapRegion) (target_gen : ShenandoahAffiliation)
    (w : World) (o : oopDesc) (from_lab : bool) (w2 : World) :
  mem w !! p = Some o ->
  allocate_copy fl (obj_size o) target_gen (promotion_of target_gen from_region) w
    = Some ((nullptr, from_lab), w2) ->
  (target_gen = OLD_GENERATION -> is_young from_region = true ->
   try_evacuate_object fl p from_region target_gen w
     = Some (nullptr, set_trace (handle_failed_promotion (obj_size o) :: trace w2) w2)) /\
  (target_gen = OLD_GENERATION -> is_young from_region = false ->
   forall o2, mem w2 !! p = Some o2 ->
   try_evacuate_object fl p from_region target_gen w
     = Some (resolved p o2,
             set_tld (set_oom_during_evac true (tld w2))
               (set_trace (handle_out_of_memory_during_evacuation
                             :: handle_alloc_failure_evac (obj_size o)
                             :: handle_failed_evacuation :: trace w2) w2))) /\
  (target_gen = YOUNG_GENERATION ->
   forall o2, mem w2 !! p = Some o2 ->
   try_evacuate_object fl p from_region target_gen w
     = Some (resolved p o2,
             set_tld (set_oom_during_evac true (tld w2))
               (set_trace (handle_out_of_memory_during_evacuation
                             :: handle_alloc_failure_evac (obj_size o) :: trace w2) w2))).
Proof.
  intros Hp Ha.
  rewrite (try_evacuate_object_no_copy fl p from_region target_gen w o from_lab w2 Hp Ha).
  unfold evacuation_failed. repeat split.
  - intros -> Hy. rewrite Hy. reflexivity.
  - intros -> Hy o2 Hp2. rewrite Hy. cbn [affiliation_eqb andb].
    unfold oom_evac_handler. heap_unfold. cbn.
    rewrite resolve_forwarded_eq with (o := o2) by exact Hp2. reflexivity.
  - intros -> o2 Hp2. cbn [affiliation_eqb andb].
    unfold oom_evac_handler. heap_unfold. cbn.
    rewrite resolve_forwarded_eq with (o := o2) by exact Hp2. reflexivity.
Qed.

Lemma evacuation_failure_protocol_witness :
  exists w2,
    allocate_copy example_heap_flags 16 OLD_GENERATION true (example_world (worker 320) [])
      = Some ((nullptr, true), w2) /\
    try_evacuate_object example_heap_flags 1048640 evacuated_region OLD_GENERATION
      (example_world (worker 320) [])
      = Some (nullptr, set_trace (handle_failed_promotion 16 :: trace w2) w2).
Proof.
  eexists. split.
  - vm_compute. reflexivity.
  - refine (proj1 (evacuation_failure_protocol example_heap_flags 1048640 evacuated_region
                     OLD_GENERATION (example_world (worker 320) []) example_object true _ _ _)
              eq_refl eq_refl).
    + reflexivity.
    + vm_compute. reflexivity.
Defined.

(** [has_plab] is whether the thread has a PLAB. *)
Lemma try_evacuate_in_lab_has_plab (fl : Flags) (size : Z) (promo : bool)
    (w : World) (copy : Z) (hp : bool) (w1 : World) :
  try_evacuate_in_lab fl size OLD_GENERATION promo w = Some ((copy, hp), w1) ->
  hp = thread_has_plab w.
Proof.
  unfold try_evacuate_in_lab, thread_has_plab.
  unfold bind at 1, get_tld at 1. unfold bind at 1.
  destruct (allocate_from_plab fl size promo w) as [[c wa] |]; [| discriminate].
  unfold bind at 1, get_tld at 1.
  destruct ((c =? nullptr) && (size <? plab_size (tld wa)) && plab_retries_enabled (tld wa)).
  - unfold bind at 1, the_plab at 1.
    destruct (plab (tld wa)) as [b |]; [| discriminate].
    destruct (Plab.words_remaining b <? plab_min_size fl).
    + unfold bind at 1, modify_tld at 1. unfold bind at 1.
      destruct (allocate_from_plab fl size promo _) as [[c' wb] |]; [| discriminate].
      unfold bind at 1.
      destruct (c' =? nullptr); unfold modify_tld, ret; intros H; inversion H; reflexivity.
    + unfold ret. intros H; inversion H; reflexivity.
  - unfold ret. intros H; inversion H; reflexivity.
Qed.

(** The shared allocation and what follows it. *)
Lemma shared_allocation_made (fl : Flags) (p : Z)
    (from_region : ShenandoahHeapRegion) (target_gen : ShenandoahAffiliation)
    (w : World) (o : oopDesc) (has_plab : bool) (w1 : World) :
  mem w !! p = Some o ->
  (if UseTLAB fl
   then try_evacuate_in_lab fl (obj_size o) target_gen (promotion_of target_gen from_region)
   else ret (nullptr, false)) w = Some ((nullptr, has_plab), w1) ->
  is_Some (mem w1 !! p) ->
  negb (promotion_of target_gen from_region) || negb has_plab
    || (PLAB_min_size fl <? obj_size o) = true ->
  exists result w',
    try_evacuate_object fl p from_region target_gen w = Some (result, w') /\
    shared_gc_requests (trace w') = S (shared_gc_requests (trace w1)).
Proof.
  intros Hp Hlab Hp1 Hcond.
  unfold try_evacuate_object, bind at 1, object_at at 1. rewrite Hp.
  unfold allocate_copy. unfold bind at 1. unfold bind at 1.
  fold (promotion_of target_gen from_region). rewrite Hlab.
  unfold try_evacuate_shared. rewrite Z.eqb_refl, Hcond.
  destruct (allocate_memory_frame
              (for_shared_gc (obj_size o) target_gen (promotion_of target_gen from_region)) w1)
    as (granted & w2 & E & _ & _ & _ & _ & T & M).
  unfold bind at 1. rewrite E. unfold ret at 1.
  assert (Hp2 : is_Some (mem w2 !! p)) by (rewrite M; exact Hp1).
  assert (Hcount : shared_gc_requests (trace w2) = S (shared_gc_requests (trace w1)))
    by (rewrite T; reflexivity).
  destruct (next_alloc_result w1 =? nullptr).
  - destruct (evacuation_failed_total p (obj_size o) from_region target_gen w2 Hp2)
      as (result & w' & E' & S').
    exists result, w'. split; [exact E' | congruence].
  - destruct (evacuate_shared_copy_total fl p (next_alloc_result w1) (obj_size o)
                from_region target_gen (promotion_of target_gen from_region) w2 Hp2)
      as (result & w' & E' & S').
    exists result, w'. split; [exact E' | congruence].
Qed.

Lemma shared_allocation_declined (fl : Flags) (p : Z)
    (from_region : ShenandoahHeapRegion) (target_gen : ShenandoahAffiliation)
    (w : World) (o : oopDesc) (w1 : World) :
  mem w !! p = Some o ->
  (if UseTLAB fl
   then try_evacuate_in_lab fl (obj_size o) target_gen (promotion_of target_gen from_region)
   else ret (nullptr, false)) w = Some ((nullptr, true), w1) ->
  promotion_of target_gen from_region = true ->
  obj_size o <= PLAB_min_size fl ->
  try_evacuate_object fl p from_region target_gen w
    = Some (nullptr, set_trace (handle_failed_promotion (obj_size o) :: trace w1) w1).
Proof.
  intros Hp Hlab Hpromo Hsmall.
  unfold try_evacuate_object, bind at 1, object_at at 1. rewrite Hp.
  unfold allocate_copy. unfold bind at 1. unfold bind at 1.
  fold (promotion_of target_gen from_region). rewrite Hlab.
  unfold try_evacuate_shared. rewrite Z.eqb_refl, Hpromo. cbn [negb orb].
  destruct (Z.ltb_spec (PLAB_min_size fl) (obj_size o)) as [Hbig | _]; [lia |].
  unfold ret at 1. rewrite Z.eqb_refl.
  unfold evacuation_failed. unfold promotion_of in Hpromo. rewrite Hpromo. reflexivity.
Qed.

(** C3: when the buffer allocation of [try_evacuate_object] has failed, a
    shared allocation is requested if and only if it is not the case that
    the request is a promotion, the thread has a PLAB and the object is no
    larger than [PLAB::min_size()]; in that excluded case the copy stays
    unallocated, a failed promotion is signalled and [nullptr] is
    returned. *)
Theorem shared_allocation_condition (fl : Flags) (p : Z)
    (from_region : ShenandoahHeapRegion) (target_gen : ShenandoahAffiliation)
    (w : World) (o : oopDesc) (has_plab : bool) (w1 : World) :
  mem w !! p = Some o ->
  (if UseTLAB fl
   then try_evacuate_in_lab fl (obj_size o) target_gen (promotion_of target_gen from_region)
   else ret (nullptr, false)) w = Some ((nullptr, has_plab), w1) ->
  is_Some (mem w1 !! p) ->
  exists result w',
    try_evacuate_object fl p from_region target_gen w = Some (result, w') /\
    (shared_gc_requests (trace w') = S (shared_gc_requests (trace w1)) <->
     ~ (promotion_of target_gen from_region = true /\ has_plab = true /\
        obj_size o <= PLAB_min_size fl)) /\
    (promotion_of target_gen from_region = true -> has_plab = true ->
     obj_size o <= PLAB_min_size fl ->
     result = nullptr /\
     w' = set_trace (handle_failed_promotion (obj_size o) :: trace w1) w1) /\
    (UseTLAB fl = true -> target_gen = OLD_GENERATION -> has_plab = thread_has_plab w).
Proof.
  intros Hp Hlab Hp1.
  assert (Hhas : UseTLAB fl = true -> target_gen = OLD_GENERATION ->
                 has_plab = thread_has_plab w).
  { intros Hu Ht. rewrite Hu, Ht in Hlab.
    exact (try_evacuate_in_lab_has_plab fl _ _ w _ _ _ Hlab). }
  destruct (negb (promotion_of target_gen from_region) || negb has_plab
            || (PLAB_min_size fl <? obj_size o)) eqn:Hcond.
  - destruct (shared_allocation_made fl p from_region target_gen w o has_plab w1
                Hp Hlab Hp1 Hcond) as (result & w' & E & Hcount).
    exists result, w'. split; [exact E |].
    assert (Hnot : ~ (promotion_of target_gen from_region = true /\ has_plab = true /\
                      obj_size o <= PLAB_min_size fl)).
    { intros (H1 & H2 & H3). rewrite H1, H2 in Hcond. cbn in Hcond.
      apply Z.ltb_lt in Hcond. lia. }
    split; [split; [intros _; exact Hnot | intros _; exact Hcount] |].
    split; [| exact Hhas].
    intros H1 H2 H3. exfalso. apply Hnot. auto.
  - apply orb_false_iff in Hcond. destruct Hcond as [Hcond Hsize].
    apply orb_false_iff in Hcond. destruct Hcond as [Hpromo Hplab].
    apply negb_false_iff in Hpromo. apply negb_false_iff in Hplab.
    apply Z.ltb_ge in Hsize. subst has_plab.
    rewrite (shared_allocation_declined fl p from_region target_gen w o w1
               Hp Hlab Hpromo Hsize).
    eexists _, _. split; [reflexivity |]. cbn [trace set_trace shared_gc_requests].
    split; [| split; [intros; split; reflexivity | exact Hhas]].
    split.
    + intros Hc. exfalso. cbn in Hc. lia.
    + intros Hn. exfalso. apply Hn. auto.
Qed.

Lemma shared_allocation_condition_witness :
  exists w1 result w',
    try_evacuate_in_lab example_heap_flags 16 OLD_GENERATION true
      (example_world (worker 320) []) = Some ((nullptr, true), w1) /\
    try_evacuate_object example_heap_flags 1048640 evacuated_region OLD_GENERATION
      (example_world (worker 320) []) = Some (result, w') /\
    result = nullptr.
Proof.
  eexists.
  match goal with |- exists result w', ?L /\ _ =>
    assert (Hlab : L) by (vm_compute; reflexivity)
  end.
  destruct (shared_allocation_condition example_heap_flags 1048640 evacuated_region
              OLD_GENERATION (example_world (worker 320) []) example_object true _
              eq_refl Hlab)
    as (result & w' & E & _ & Hdeclined & _).
  - vm_compute. eauto.
  - exists result, w'. split; [exact Hlab |]. split; [exact E |].
    apply Hdeclined; [reflexivity | reflexivity | vm_compute; discriminate].
Defined.

Lemma uint_add_small a b :
  0 <= a -> 0 <= b -> a + b < UInt.modulus -> UInt.add a b = a + b.
Proof. intros. unfold UInt.add, UInt.wrap. apply Z.mod_small. lia. Qed.

(** C5: a copy made within the young generation in an aging cycle, once
    it has won the forwarding race, is the original with its age stamped as
    the age of the source region plus one: the sum is the one the source
    computes, in [uint], and is the region's age plus one whenever that
    fits. *)
Theorem evacuated_copy_age (fl : Flags) (p : Z) (from_region : ShenandoahHeapRegion)
    (w : World) (o : oopDesc) (copy : Z) (from_lab : bool) (w2 : World) (o2 : oopDesc) :
  mem w !! p = Some o ->
  allocate_copy fl (obj_size o) YOUNG_GENERATION false w = Some ((copy, from_lab), w2) ->
  copy <> nullptr ->
  copy <> p ->
  is_aging_cycle w2 = true ->
  mem w2 !! p = Some o2 ->
  is_marked (obj_mark o2) = false ->
  exists w' c,
    try_evacuate_object fl p from_region YOUNG_GENERATION w = Some (copy, w') /\
    mem w' !! p = Some (set_mark (mark_forwarded copy) o2) /\
    mem w' !! copy = Some c /\
    c = set_mark (aged_mark (obj_mark o2) (UInt.add (r_age from_region) 1)) o2 /\
    mark_age (obj_mark c) = UInt.add (r_age from_region) 1 /\
    (0 <= r_age from_region -> r_age from_region + 1 < UInt.modulus ->
     mark_age (obj_mark c) = r_age from_region + 1).
Proof.
  intros Hp Ha Hc Hcp Hag Hp2 Hm.
  rewrite (try_evacuate_object_with_copy fl p from_region YOUNG_GENERATION w o copy
             from_lab w2 Hp Ha Hc).
  destruct (copy_object_eq fl p copy (obj_size o) from_region YOUNG_GENERATION w2 o2 Hp2)
    as (w3 & E3 & M3 & T3 & D3).
  unfold bind at 1. rewrite E3. rewrite Hag in M3. cbn [affiliation_eqb andb] in M3.
  assert (Hp3 : mem w3 !! p = Some o2)
    by (rewrite M3, lookup_insert_ne by exact Hcp; exact Hp2).
  unfold bind at 1. rewrite (try_update_forwardee_installs p copy w3 o2 Hp3 Hm).
  set (c := set_mark (aged_mark (obj_mark o2) (UInt.add (r_age from_region) 1)) o2) in *.
  assert (Hage : mark_age (obj_mark c) = UInt.add (r_age from_region) 1).
  { subst c. cbn. destruct (obj_mark o2); try reflexivity. discriminate Hm. }
  edestruct (finish_evacuation_winner fl copy (obj_size o) from_region YOUNG_GENERATION
               (promotion_of YOUNG_GENERATION from_region) from_lab) as (w' & E & M & _ & _);
    [| exists w', c; split; [exact E |]].
  - cbn. rewrite lookup_insert_ne by (intros X; apply Hcp; symmetry; exact X).
    rewrite M3, lookup_insert_eq. eauto.
  - rewrite M. cbn. rewrite lookup_insert_eq.
    rewrite lookup_insert_ne by (intros X; apply Hcp; symmetry; exact X).
    rewrite M3, lookup_insert_eq.
    split; [reflexivity |]. split; [reflexivity |]. split; [reflexivity |].
    split; [exact Hage |].
    intros H0 H1. etransitivity; [exact Hage | apply uint_add_small; lia].
Qed.

Lemma evacuated_copy_age_witness :
  exists w' c,
    try_evacuate_object example_heap_flags 1048640 evacuated_region YOUNG_GENERATION
      (example_world (worker 320) []) = Some (1310720, w') /\
    mem w' !! 1310720 = Some c /\
    mark_age (obj_mark c) = 2 + 1.
Proof.
  assert (Ha : exists w2,
             allocate_copy example_heap_flags 16 YOUNG_GENERATION false
               (example_world (worker 320) []) = Some ((1310720, true), w2) /\
             is_aging_cycle w2 = true /\
             mem w2 !! 1048640 = Some example_object).
  { eexists. split; [vm_compute; reflexivity |]. split; vm_compute; reflexivity. }
  destruct Ha as (w2 & Ha & Hag & Hp2).
  destruct (evacuated_copy_age example_heap_flags 1048640 evacuated_region
              (example_world (worker 320) []) example_object 1310720 true w2
              example_object eq_refl Ha ltac:(vm_compute; discriminate)
              ltac:(vm_compute; discriminate) Hag Hp2 eq_refl)
    as (w' & c & E & _ & Hc & _ & _ & Hage).
  exists w', c. split; [exact E |]. split; [exact Hc |].
  apply Hage; [cbn; lia | vm_compute; reflexivity].
Defined.

(** [evacuate_object] for an object of a young region in a young cycle,
    called by a thread that is not out of memory. *)
Lemma evacuate_object_in_young_cycle (fl : Flags) (p : Z) (w : World)
    (r : ShenandoahHeapRegion) (o : oopDesc) :
  oom_during_evac (tld w) = false ->
  region_at w (heap_region_index_containing fl p) = Some r ->
  r_affiliation r = YOUNG_GENERATION ->
  active_generation w = YOUNG ->
  mem w !! p = Some o ->
  evacuate_object fl p w =
    (if is_marked (obj_mark o) then resolve_forwarded p
     else if has_displaced_mark_helper (obj_mark o)
          then try_evacuate_object fl p r YOUNG_GENERATION
     else if tenuring_threshold w <=? UInt.add (r_age r) (mark_age (obj_mark o))
          then let* result := try_evacuate_object fl p r OLD_GENERATION in
               if negb (result =? nullptr) then ret result
               else try_evacuate_object fl p r YOUNG_GENERATION
     else try_evacuate_object fl p r YOUNG_GENERATION) w.
Proof.
  intros Hoom Hr Haff Hact Hp.
  unfold evacuate_object, bind at 1, get_tld. rewrite Hoom.
  unfold bind at 1, heap_region_containing. rewrite Hr.
  unfold bind at 1, get_world. unfold active_generation_is_young.
  rewrite Hact, Haff. cbn [affiliation_eqb andb].
  unfold bind at 1, object_at at 1. rewrite Hp. reflexivity.
Qed.

(** C10, as amended: in a young cycle, an object of a young region whose
    mark word is displaced is evacuated within the young generation,
    whatever its age bits, the age of its region and the tenuring threshold
    are: no promotion is tried.  In that same situation - a young region in
    a young cycle - an object whose mark word is a forwarding pointer is
    resolved to its forwardee, and the heap is left as it was: no copy is
    tried. *)
Theorem evacuate_object_displaced_or_forwarded (fl : Flags) (p : Z) (w : World)
    (r : ShenandoahHeapRegion) (o : oopDesc) :
  oom_during_evac (tld w) = false ->
  region_at w (heap_region_index_containing fl p) = Some r ->
  r_affiliation r = YOUNG_GENERATION ->
  active_generation w = YOUNG ->
  mem w !! p = Some o ->
  (forall bits, obj_mark o = mark_displaced bits ->
     evacuate_object fl p w = try_evacuate_object fl p r YOUNG_GENERATION w) /\
  (forall f, obj_mark o = mark_forwarded f ->
     evacuate_object fl p w = Some ((if f =? nullptr then p else f), w)).
Proof.
  intros Hoom Hr Haff Hact Hp.
  rewrite (evacuate_object_in_young_cycle fl p w r o Hoom Hr Haff Hact Hp).
  split.
  - intros bits Hm. rewrite Hm. reflexivity.
  - intros f Hm. rewrite Hm. cbn [is_marked].
    unfold resolve_forwarded, bind, object_at. rewrite Hp, Hm.
    destruct (f =? nullptr); reflexivity.
Qed.

Lemma evacuate_object_displaced_or_forwarded_witness :
  evacuate_object example_heap_flags 1048640
    (example_world_holding locked_object (worker 320) [])
  = try_evacuate_object example_heap_flags 1048640 evacuated_region YOUNG_GENERATION
      (example_world_holding locked_object (worker 320) []).
Proof.
  refine (proj1 (evacuate_object_displaced_or_forwarded example_heap_flags 1048640
                   (example_world_holding locked_object (worker 320) [])
                   evacuated_region locked_object _ _ _ _ _) 0 eq_refl).
  - reflexivity.
  - vm_compute. reflexivity.
  - reflexivity.
  - reflexivity.
  - reflexivity.
Defined.

(** By contrast, a plain mark word whose age, added to the region's, meets
    the tenuring threshold, has the promotion tried first. *)
Lemma evacuate_object_tries_promotion (fl : Flags) (p : Z) (w : World)
    (r : ShenandoahHeapRegion) (o : oopDesc) (a : Z) :
  oom_during_evac (tld w) = false ->
  region_at w (heap_region_index_containing fl p) = Some r ->
  r_affiliation r = YOUNG_GENERATION ->
  active_generation w = YOUNG ->
  mem w !! p = Some o ->
  obj_mark o = mark_neutral a ->
  tenuring_threshold w <= UInt.add (r_age r) a ->
  evacuate_object fl p w =
    (let* result := try_evacuate_object fl p r OLD_GENERATION in
     if negb (result =? nullptr) then ret result
     else try_evacuate_object fl p r YOUNG_GENERATION) w.
Proof.
  intros Hoom Hr Haff Hact Hp Hm Hth.
  rewrite (evacuate_object_in_young_cycle fl p w r o Hoom Hr Haff Hact Hp).
  rewrite Hm. cbn [is_marked has_displaced_mark_helper mark_age].
  destruct (Z.leb_spec (tenuring_threshold w) (UInt.add (r_age r) a)); [reflexivity | lia].
Qed.

(** C10, as the specification words it, fails outside that situation: for
    a forwarded object of an old region, [evacuate_object] allocates and
    fills a copy before the compare-and-swap finds the forwardee. *)
Lemma forwarded_shortcut_as_specified_fails :
  ~ forwarded_shortcut_as_specified example_heap_flags 1179700 forwarded_old_world.
Proof.
  intros H.
  specialize (H forwarded_object 1179900 eq_refl eq_refl eq_refl).
  assert (E : exists w',
             evacuate_object example_heap_flags 1179700 forwarded_old_world
               = Some (1179900, w') /\
             trace w' = [begin_evacuation 128]).
  { eexists. split; vm_compute; reflexivity. }
  destruct E as (w' & E & Ht). rewrite E in H.
  inversion H as [Hw]. rewrite Hw in Ht. discriminate Ht.
Qed.

(** ** Cycle completion *)

Lemma balance_generations_frame (w : World) :
  exists result w',
    balance_generations w = Some (result, w') /\
    old_parseable (old_generation w') = old_parseable (old_generation w) /\
    old_region_balance (old_generation w') = 0 /\
    coalesce_and_fill_runs (trace w') = coalesce_and_fill_runs (trace w).
Proof.
  unfold balance_generations, generation_sizer_transfer. heap_unfold. cbn.
  destruct (0 <? old_region_balance (old_generation w)); cbn.
  - destruct (transfer_tape w); cbn; eexists _, _; (split; [reflexivity |]); cbn; auto.
  - destruct (old_region_balance (old_generation w) <? 0); cbn.
    + destruct (transfer_tape w) as [| [|] rest]; cbn;
        eexists _, _; (split; [reflexivity |]); cbn; auto.
    + eexists _, _; (split; [reflexivity |]); cbn; auto.
Qed.

Lemma reset_generation_reserves_frame (w : World) :
  exists w',
    reset_generation_reserves w = Some (tt, w') /\
    old_parseable (old_generation w') = old_parseable (old_generation w) /\
    old_evacuation_reserve (old_generation w') = 0 /\
    old_promoted_reserve (old_generation w') = 0 /\
    young_evacuation_reserve (young_generation w') = 0 /\
    trace w' = trace w.
Proof.
  unfold reset_generation_reserves. heap_unfold. cbn.
  eexists. split; [reflexivity |]. cbn. auto.
Qed.

Lemma coalesce_and_fill_old_regions_marks_parseable (concurrent : bool) (w : World) :
  exists w',
    coalesce_and_fill_old_regions concurrent w = Some (tt, w') /\
    old_parseable (old_generation w') = true /\
    regions w' = map coalesce_region (regions w) /\
    trace w' = coalesce_and_fill_task_run concurrent :: trace w.
Proof.
  unfold coalesce_and_fill_old_regions. heap_unfold. cbn.
  eexists. split; [reflexivity |]. cbn. auto.
Qed.

(** C9: both completion routines return; each runs the coalesce-and-fill
    pass exactly when the old generation is not parseable, the pass marks
    the old generation parseable, and so the old generation is parseable
    when either routine returns. *)
Theorem completion_leaves_old_parseable (w : World) :
  (exists w',
     complete_degenerated_cycle w = Some (tt, w') /\
     old_parseable (old_generation w') = true /\
     coalesce_and_fill_runs (trace w')
       = (coalesce_and_fill_runs (trace w) + runs_expected w)%nat) /\
  (exists w',
     complete_concurrent_cycle w = Some (tt, w') /\
     old_parseable (old_generation w') = true /\
     coalesce_and_fill_runs (trace w')
       = (coalesce_and_fill_runs (trace w) + runs_expected w)%nat) /\
  (forall concurrent, exists w',
     coalesce_and_fill_old_regions concurrent w = Some (tt, w') /\
     old_parseable (old_generation w') = true).
Proof.
  unfold runs_expected. split; [| split].
  - unfold complete_degenerated_cycle.
    unfold bind at 1, get_world at 1. unfold bind at 1.
    set (w0 := (if is_concurrent_old_mark_in_progress w
                then emit transfer_pointers_from_satb else ret ()) w).
    assert (H0 : exists w1, w0 = Some (tt, w1) /\
                 old_parseable (old_generation w1) = old_parseable (old_generation w) /\
                 coalesce_and_fill_runs (trace w1) = coalesce_and_fill_runs (trace w)).
    { subst w0. destruct (is_concurrent_old_mark_in_progress w); heap_unfold;
        eexists; (split; [reflexivity |]); cbn; auto. }
    destruct H0 as (w1 & -> & P1 & C1).
    destruct (balance_generations_frame w1) as (res & w2 & E2 & P2 & _ & C2).
    unfold bind at 1. rewrite E2.
    destruct (reset_generation_reserves_frame w2) as (w3 & E3 & P3 & _ & _ & _ & T3).
    unfold bind at 1. rewrite E3. unfold bind at 1, get_world at 1.
    assert (P : old_parseable (old_generation w3) = old_parseable (old_generation w))
      by congruence.
    assert (C : coalesce_and_fill_runs (trace w3) = coalesce_and_fill_runs (trace w))
      by congruence.
    rewrite P. destruct (old_parseable (old_generation w)) eqn:Hpar; cbn [negb].
    + exists w3. split; [reflexivity |]. split; [congruence | lia].
    + destruct (coalesce_and_fill_old_regions_marks_parseable false w3)
        as (w4 & E4 & P4 & _ & T4).
      exists w4. split; [exact E4 |]. split; [exact P4 |].
      rewrite T4. cbn. lia.
  - unfold complete_concurrent_cycle.
    unfold bind at 1, get_world at 1. unfold bind at 1.
    destruct (old_parseable (old_generation w)) eqn:Hpar; cbn [negb].
    + unfold ret at 1.
      destruct (balance_generations_frame w) as (res & w2 & E2 & P2 & _ & C2).
      unfold bind at 1. rewrite E2.
      destruct (reset_generation_reserves_frame w2) as (w3 & E3 & P3 & _ & _ & _ & T3).
      exists w3. split; [exact E3 |]. split; [congruence |]. rewrite T3. lia.
    + unfold entry_global_coalesce_and_fill.
      destruct (coalesce_and_fill_old_regions_marks_parseable true w)
        as (w1 & E1 & P1 & _ & T1).
      rewrite E1.
      destruct (balance_generations_frame w1) as (res & w2 & E2 & P2 & _ & C2).
      unfold bind at 1. rewrite E2.
      destruct (reset_generation_reserves_frame w2) as (w3 & E3 & P3 & _ & _ & _ & T3).
      exists w3. split; [exact E3 |]. split; [congruence |].
      rewrite T3, C2, T1. cbn. lia.
  - intros concurrent.
    destruct (coalesce_and_fill_old_regions_marks_parseable concurrent w)
      as (w' & E & P & _).
    exists w'. split; assumption.
Qed.

(** ** Threads racing to evacuate one object *)

Lemma finish_evacuation_lab_loser (fl : Flags) (copy size : Z) (r : ShenandoahHeapRegion)
    (target : ShenandoahAffiliation) (promo : bool) (result : Z) (w : World) (b : PLAB) :
  result <> copy ->
  lab_of target (tld w) = Some b ->
  Plab.contains b copy = true ->
  exists w',
    finish_evacuation fl copy size r target promo true result w = Some (result, w') /\
    mem w' = mem w /\
    lab_of target (tld w') = Some (Plab.undo_last_allocation b copy) /\
    (target = OLD_GENERATION -> promo = true ->
     plab_promoted (tld w') = sub (plab_promoted (tld w)) (mul size (HeapWordSize fl))).
Proof.
  intros Hne Hlab Hc. unfold finish_evacuation.
  destruct (Z.eqb_spec result copy) as [E | _]; [contradiction |].
  destruct target; cbn in Hlab; [discriminate | |].
  - unfold undo_allocation. heap_unfold. rewrite Hlab, Hc. cbn.
    eexists. split; [reflexivity |]. cbn. repeat split. intros X; discriminate X.
  - unfold undo_allocation. heap_unfold. rewrite Hlab, Hc. cbn.
    destruct promo; cbn; (eexists; split; [reflexivity |]); cbn; repeat split;
      intros _ X; discriminate X.
Qed.

Lemma step_progress (fl : Flags) (p : Z) (i : nat) (m m' : Machine) :
  step fl p i m = Some m' ->
  forall j t, threads m !! j = Some t ->
    exists t', threads m' !! j = Some t' /\
      phase_rank (ev_phase t')
        = Nat.min 2 (phase_rank (ev_phase t) + (if Nat.eqb i j then 1 else 0)).
Proof.
  unfold step. intros Hstep j t Hj.
  destruct (threads m !! i) as [ti |] eqn:Hi.
  2:{ inversion Hstep; subst m'. exists t. split; [exact Hj |].
      destruct (Nat.eqb_spec i j) as [-> | _]; [congruence |].
      rewrite Nat.add_0_r. destruct (ev_phase t); reflexivity. }
  assert (Hupd : forall t1,
            phase_rank (ev_phase t1) = Nat.min 2 (phase_rank (ev_phase ti) + 1) ->
            exists t', <[i := t1]> (threads m) !! j = Some t' /\
              phase_rank (ev_phase t')
                = Nat.min 2 (phase_rank (ev_phase t) + (if Nat.eqb i j then 1 else 0))).
  { intros t1 Hr. destruct (Nat.eqb_spec i j) as [-> | Hne].
    - exists t1. split.
      + apply list_lookup_insert_eq. eapply lookup_lt_Some; exact Hj.
      + rewrite Hr. congruence.
    - exists t. split.
      + rewrite list_lookup_insert_ne by exact Hne. exact Hj.
      + rewrite Nat.add_0_r. destruct (ev_phase t); reflexivity. }
  destruct (ev_phase ti) as [| r | v] eqn:Hphase.
  - destruct (try_update_forwardee _ _ _) as [[result w] |]; [| discriminate].
    inversion Hstep; subst m'. cbn [threads]. apply Hupd. reflexivity.
  - destruct (finish_evacuation _ _ _ _ _ _ _ _ _) as [[v w] |]; [| discriminate].
    inversion Hstep; subst m'. cbn [threads]. apply Hupd. reflexivity.
  - inversion Hstep; subst m'. exists t. split; [exact Hj |].
    destruct (Nat.eqb_spec i j) as [-> | _].
    + assert (t = ti) by congruence. subst t. rewrite Hphase. reflexivity.
    + rewrite Nat.add_0_r. destruct (ev_phase t); reflexivity.
Qed.

Lemma run_progress (fl : Flags) (p : Z) (schedule : list nat) (m m' : Machine) :
  run fl p schedule m = Some m' ->
  forall j t, threads m !! j = Some t ->
    exists t', threads m' !! j = Some t' /\
      phase_rank (ev_phase t')
        = Nat.min 2 (phase_rank (ev_phase t) + steps_of j schedule).
Proof.
  revert m. induction schedule as [| i rest IH]; intros m Hrun j t Hj.
  - inversion Hrun; subst m'. exists t. split; [exact Hj |].
    cbn. rewrite Nat.add_0_r. destruct (ev_phase t); reflexivity.
  - cbn in Hrun. destruct (step fl p i m) as [m1 |] eqn:Hstep; [| discriminate].
    destruct (step_progress fl p i m m1 Hstep j t Hj) as (t1 & Hj1 & Hr1).
    destruct (IH m1 Hrun j t1 Hj1) as (t' & Hj' & Hr').
    exists t'. split; [exact Hj' |]. rewrite Hr', Hr1. cbn [steps_of].
    destruct (Nat.eqb i j); lia.
Qed.

Lemma run_length (fl : Flags) (p : Z) (schedule : list nat) (m m' : Machine) :
  run fl p schedule m = Some m' -> length (threads m') = length (threads m).
Proof.
  revert m. induction schedule as [| i rest IH]; intros m Hrun.
  - inversion Hrun; reflexivity.
  - cbn in Hrun. destruct (step fl p i m) as [m1 |] eqn:Hstep; [| discriminate].
    rewrite (IH m1 Hrun). unfold step in Hstep.
    destruct (threads m !! i) as [ti |]; [| inversion Hstep; reflexivity].
    destruct (ev_phase ti).
    + destruct (try_update_forwardee _ _ _) as [[result w] |]; [| discriminate].
      inversion Hstep. cbn. apply length_insert.
    + destruct (finish_evacuation _ _ _ _ _ _ _ _ _) as [[v w] |]; [| discriminate].
      inversion Hstep. cbn. apply length_insert.
    + inversion Hstep; reflexivity.
Qed.

(** A schedule that gives every thread two steps takes every thread to its
    return. *)
Lemma fair_schedule_returns (fl : Flags) (p : Z) (schedule : list nat) (m m' : Machine) :
  run fl p schedule m = Some m' ->
  (forall i, (i < length (threads m))%nat -> (2 <= steps_of i schedule)%nat) ->
  Forall (fun t => has_returned t = true) (threads m').
Proof.
  intros Hrun Hfair. apply Forall_lookup. intros j t' Hj'.
  assert (Hlt : (j < length (threads m))%nat).
  { rewrite <- (run_length fl p schedule m m' Hrun). eapply lookup_lt_Some; exact Hj'. }
  destruct (lookup_lt_is_Some_2 _ _ Hlt) as [t Hj].
  destruct (run_progress fl p schedule m m' Hrun j t Hj) as (t1 & Hj1 & Hr).
  assert (t1 = t') by congruence. subst t1.
  specialize (Hfair j Hlt). unfold has_returned.
  destruct (ev_phase t'); cbn [phase_rank] in Hr; try reflexivity; lia.
Qed.

Section RaceProof.

Variable fl : Flags.
Variable p : Z.
Variable m0 : Machine.
Hypothesis start : race_start p m0.

Lemma ready_facts (t0 : Evacuator) :
  t0 ∈ threads m0 ->
  ev_copy t0 <> p /\
  (ev_alloc_from_lab t0 = true ->
   exists b, ev_lab t0 (ev_tld t0) = Some b /\
             Plab.contains b (ev_copy t0) = true /\
             plab_top b = ev_copy t0 + ev_size t0).
Proof.
  intros Hin. destruct start as (_ & Hready & _).
  rewrite Forall_forall in Hready. destruct (Hready t0 Hin) as (_ & H1 & _ & H2).
  split; assumption.
Qed.

Lemma copies_distinct (i j : nat) (ti tj : Evacuator) :
  threads m0 !! i = Some ti -> threads m0 !! j = Some tj ->
  ev_copy ti = ev_copy tj -> i = j.
Proof.
  intros Hi Hj Heq. destruct start as (_ & _ & Hnd).
  eapply NoDup_lookup; [exact Hnd | |].
  - rewrite list_lookup_fmap, Hi. reflexivity.
  - rewrite list_lookup_fmap, Hj. cbn. rewrite Heq. reflexivity.
Qed.

Lemma race_inv_start : race_inv fl p m0 m0.
Proof.
  destruct start as ((o & Hp & Hm) & Hready & Hnd). split.
  - apply Forall2_same_length_lookup. split; [reflexivity |].
    intros i t0 t H0 H1. rewrite H0 in H1. inversion H1; subst t.
    split; [repeat split |].
    unfold phase_inv. rewrite Forall_forall in Hready.
    destruct (Hready t0) as (Hph & _).
    { eapply list_elem_of_lookup_2; eauto. }
    rewrite Hph. reflexivity.
  - rewrite Forall_forall in *. intros t0 Hin. apply (Hready t0 Hin).
  - rewrite Hp. destruct (obj_mark o); try discriminate Hm;
      (rewrite Forall_forall in *; intros t Hin; apply (Hready t Hin)).
Qed.


Lemma forwardee_of_mem (w w' : World) :
  mem w' !! p = mem w !! p -> forwardee_of p w' = forwardee_of p w.
Proof. intros H. unfold forwardee_of. rewrite H. reflexivity. Qed.

Lemma thread_inv_transfer (w w' : World) (t0 t : Evacuator) :
  thread_inv fl p w t0 t ->
  mem w' !! p = mem w !! p ->
  mem w' !! ev_copy t0 = mem w !! ev_copy t0 ->
  thread_inv fl p w' t0 t.
Proof.
  intros [Hs Hph] Hp Hc. split; [exact Hs |].
  unfold phase_inv in *. destruct (ev_phase t) as [| r | v].
  - exact Hph.
  - rewrite (forwardee_of_mem w w' Hp). exact Hph.
  - rewrite (forwardee_of_mem w w' Hp). destruct Hph as (Hf & Hw & Hl).
    split; [exact Hf |]. split; [exact Hw |].
    intros Hne. specialize (Hl Hne). unfold loser_cleaned_up in *.
    destruct (ev_alloc_from_lab t0); [exact Hl |].
    unfold overwritten_with_filler in *. rewrite Hc. exact Hl.
Qed.

Lemma thread_inv_at_install (w w' : World) (t0 t : Evacuator) :
  thread_inv fl p w t0 t -> ev_phase t = at_install -> thread_inv fl p w' t0 t.
Proof.
  intros [Hs Hph] Hi. split; [exact Hs |].
  unfold phase_inv in *. rewrite Hi in *. exact Hph.
Qed.

(** The threads after thread [i] took a step to [t']. *)
Lemma threads_after_step (i : nat) (t t' : Evacuator) (m : Machine) (w' : World) :
  Forall2 (thread_inv fl p (shared m)) (threads m0) (threads m) ->
  threads m !! i = Some t ->
  (forall t0, threads m0 !! i = Some t0 -> thread_inv fl p (shared m) t0 t -> thread_inv fl p w' t0 t') ->
  (forall j t0 tj, j <> i -> threads m0 !! j = Some t0 -> threads m !! j = Some tj ->
     thread_inv fl p (shared m) t0 tj -> thread_inv fl p w' t0 tj) ->
  Forall2 (thread_inv fl p w') (threads m0) (<[i := t']> (threads m)).
Proof.
  intros HF Hi Hself Hothers.
  apply Forall2_same_length_lookup. split.
  - rewrite length_insert. eapply Forall2_length; exact HF.
  - intros j t0 tj H0 Hj.
    destruct (decide (j = i)) as [-> | Hne].
    + rewrite list_lookup_insert_eq in Hj by (eapply lookup_lt_Some; exact Hi).
      inversion Hj; subst tj. apply Hself; [exact H0 |].
      eapply Forall2_lookup_lr; eauto.
    + rewrite list_lookup_insert_ne in Hj by (intros X; apply Hne; symmetry; exact X).
      eapply Hothers; eauto. eapply Forall2_lookup_lr; eauto.
Qed.


Lemma step_preserves (i : nat) (m : Machine) :
  race_inv fl p m0 m -> exists m', step fl p i m = Some m' /\ race_inv fl p m0 m'.
Proof.
  intros [HF HC HP]. unfold step.
  destruct (threads m !! i) as [t |] eqn:Hi;
    [| exists m; split; [reflexivity | split; assumption]].
  destruct (Forall2_lookup_r _ _ _ _ _ HF Hi) as (t0 & H0 & Hs & Hph).
  assert (Hin0 : t0 ∈ threads m0) by (eapply list_elem_of_lookup_2; exact H0).
  destruct (ready_facts t0 Hin0) as (Hcp & Hlab).
  destruct Hs as (Sc & Ss & Sr & St & Sl).
  set (w := set_tld (ev_tld t) (shared m)).
  assert (Hmem : mem w = mem (shared m)) by reflexivity.
  unfold phase_inv in Hph.
  destruct (mem (shared m) !! p) as [o |] eqn:Hp; [| contradiction].
  destruct (ev_phase t) as [| r | v] eqn:Hphase.
  - (* the compare-and-swap *)
    destruct (is_marked (obj_mark o)) eqn:Hm.
    + destruct (obj_mark o) as [| | c] eqn:Hmark; try discriminate Hm.
      rewrite (try_update_forwardee_loses p (ev_copy t) w o c Hp Hmark).
      eexists. split; [reflexivity |]. split; cbn [shared threads].
      * eapply threads_after_step; [exact HF | exact Hi | |].
        -- intros t0' H0' _. rewrite H0 in H0'. inversion H0'; subst t0'.
           split; [repeat split; cbn; congruence |].
           unfold phase_inv. cbn. split; [exact Hph |].
           unfold forwardee_of. rewrite Hmem, Hp, Hmark. reflexivity.
        -- intros j t0' tj _ _ _ Hj. eapply thread_inv_transfer; [exact Hj | |]; reflexivity.
      * exact HC.
      * rewrite Hmem, Hp, Hmark. exact HP.
    + rewrite (try_update_forwardee_installs p (ev_copy t) w o Hp Hm).
      assert (Hall : Forall (fun t => ev_phase t = at_install) (threads m))
        by (destruct (obj_mark o); try discriminate Hm; exact HP).
      eexists. split; [reflexivity |]. split; cbn [shared threads].
      * eapply threads_after_step; [exact HF | exact Hi | |].
        -- intros t0' H0' _. rewrite H0 in H0'. inversion H0'; subst t0'.
           split; [repeat split; cbn; congruence |].
           unfold phase_inv. cbn. split; [exact Hph |].
           unfold forwardee_of. cbn. rewrite lookup_insert_eq. reflexivity.
        -- intros j t0' tj _ _ Hj Hinv. eapply thread_inv_at_install; [exact Hinv |].
           rewrite Forall_forall in Hall. apply Hall.
           eapply list_elem_of_lookup_2; exact Hj.
      * rewrite Forall_forall in *. intros t' Hin'. cbn.
        destruct (decide (p = ev_copy t')) as [-> | Hne].
        -- rewrite lookup_insert_eq. eauto.
        -- rewrite lookup_insert_ne by exact Hne. apply HC. exact Hin'.
      * cbn. rewrite lookup_insert_eq. cbn. exists t0. split; [exact Hin0 | congruence].
  - (* after the compare-and-swap *)
    destruct Hph as [Hd Hf].
    assert (Hmark : obj_mark o = mark_forwarded r).
    { unfold forwardee_of in Hf. rewrite Hp in Hf.
      destruct (obj_mark o); inversion Hf; reflexivity. }
    rewrite Hmark in HP.
    assert (Hcopy : is_Some (mem w !! ev_copy t)).
    { rewrite Forall_forall in HC. rewrite Sc. apply HC. exact Hin0. }
    destruct (decide (r = ev_copy t)) as [-> | Hne].
    + destruct (finish_evacuation_winner fl (ev_copy t) (ev_size t) (ev_from_region t)
                  (ev_target_gen t) (ev_is_promotion t) (ev_alloc_from_lab t) w Hcopy)
        as (w' & E & M & D & _).
      rewrite E. eexists. split; [reflexivity |]. split; cbn [shared threads].
      * eapply threads_after_step; [exact HF | exact Hi | |].
        -- intros t0' H0' _. rewrite H0 in H0'. inversion H0'; subst t0'.
           split; [repeat split; cbn; congruence |].
           unfold phase_inv. cbn. split.
           ++ rewrite <- Hf. apply forwardee_of_mem. rewrite M. reflexivity.
           ++ split; [intros _; rewrite D; cbn; exact Hd |].
              intros X. exfalso. apply X. exact Sc.
        -- intros j t0' tj _ _ _ Hj. eapply thread_inv_transfer; [exact Hj | |];
             rewrite M; reflexivity.
      * rewrite M. exact HC.
      * rewrite M, Hmem, Hp, Hmark. exact HP.
    + rewrite Sl. destruct (ev_alloc_from_lab t0) eqn:Hfrom.
      * destruct (Hlab eq_refl) as (b & Hb & Hcont & Htop).
        assert (Hb' : lab_of (ev_target_gen t) (tld w) = Some b).
        { cbn. rewrite St, Hd. exact Hb. }
        assert (Hcont' : Plab.contains b (ev_copy t) = true) by (rewrite Sc; exact Hcont).
        destruct (finish_evacuation_lab_loser fl (ev_copy t) (ev_size t) (ev_from_region t)
                    (ev_target_gen t) (ev_is_promotion t) r w b Hne Hb' Hcont')
          as (w' & E & M & L & Pr).
        rewrite E. eexists. split; [reflexivity |]. split; cbn [shared threads].
        -- eapply threads_after_step; [exact HF | exact Hi | |].
           ++ intros t0' H0' _. rewrite H0 in H0'. inversion H0'; subst t0'.
              split; [repeat split; cbn; congruence |].
              unfold phase_inv. cbn. split.
              ** rewrite <- Hf. apply forwardee_of_mem. rewrite M. reflexivity.
              ** split; [intros X; exfalso; apply Hne; congruence |].
                 intros _. unfold loser_cleaned_up. rewrite Hfrom.
                 unfold rolled_back.
                 exists b, (Plab.undo_last_allocation b (ev_copy t)).
                 split; [exact Hb |]. split; [unfold ev_lab; rewrite <- St; exact L |].
                 split; [cbn; exact Sc |].
                 split; [unfold Plab.words_remaining; cbn; lia |].
                 intros Hpromo.
                 assert (Hpromo' : ev_is_promotion t = true).
                 { unfold ev_is_promotion in *. rewrite St, Sr. exact Hpromo. }
                 assert (Hold : ev_target_gen t = OLD_GENERATION).
                 { unfold ev_is_promotion in Hpromo'.
                   destruct (ev_target_gen t); try discriminate Hpromo'; reflexivity. }
                 rewrite (Pr Hold Hpromo'). cbn. rewrite Hd, Ss. reflexivity.
           ++ intros j t0' tj _ _ _ Hj. eapply thread_inv_transfer; [exact Hj | |];
                rewrite M; reflexivity.
        -- rewrite M. exact HC.
        -- rewrite M, Hmem, Hp, Hmark. exact HP.
      * rewrite (finish_evacuation_shared_loser fl (ev_copy t) (ev_size t)
                   (ev_from_region t) (ev_target_gen t) (ev_is_promotion t) r w Hne).
        assert (Hcp' : ev_copy t <> p) by (rewrite Sc; exact Hcp).
        eexists. split; [reflexivity |]. split; cbn [shared threads].
        -- eapply threads_after_step; [exact HF | exact Hi | |].
           ++ intros t0' H0' _. rewrite H0 in H0'. inversion H0'; subst t0'.
              split; [repeat split; cbn; congruence |].
              unfold phase_inv. cbn. split.
              ** rewrite <- Hf. apply forwardee_of_mem. cbn.
                 rewrite lookup_insert_ne by exact Hcp'. reflexivity.
              ** split; [intros X; exfalso; apply Hne; congruence |].
                 intros _. unfold loser_cleaned_up. rewrite Hfrom.
                 unfold overwritten_with_filler. cbn.
                 rewrite <- Sc, <- Ss. apply lookup_insert_eq.
           ++ intros j t0' tj Hji H0' Hj Hinv. eapply thread_inv_transfer; [exact Hinv | |].
              ** cbn. rewrite lookup_insert_ne by exact Hcp'. reflexivity.
              ** cbn. rewrite lookup_insert_ne; [reflexivity |].
                 rewrite Sc. intros X. apply Hji. symmetry.
                 eapply copies_distinct; eauto.
        -- rewrite Forall_forall in *. intros t' Hin'. cbn.
           destruct (decide (ev_copy t = ev_copy t')) as [-> | Hne'].
           ++ rewrite lookup_insert_eq. eauto.
           ++ rewrite lookup_insert_ne by exact Hne'. apply HC. exact Hin'.
        -- cbn. rewrite lookup_insert_ne by exact Hcp'. rewrite Hp, Hmark. exact HP.
  - (* returned *)
    exists m. split; [reflexivity |]. split; [exact HF | exact HC |].
    rewrite Hp. exact HP.
Qed.


Lemma run_preserves (schedule : list nat) (m : Machine) :
  race_inv fl p m0 m -> exists m', run fl p schedule m = Some m' /\ race_inv fl p m0 m'.
Proof.
  revert m. induction schedule as [| i rest IH]; intros m Hinv.
  - exists m. split; [reflexivity | exact Hinv].
  - destruct (step_preserves i m Hinv) as (m1 & E & Hinv1).
    destruct (IH m1 Hinv1) as (m' & E' & Hinv').
    exists m'. split; [cbn; rewrite E; exact E' | exact Hinv'].
Qed.

(** Once every thread has returned, one of the copies is the forwardee and
    every thread has returned it. *)
Lemma race_inv_outcome (m : Machine) :
  race_inv fl p m0 m ->
  Forall (fun t => has_returned t = true) (threads m) ->
  threads m0 <> [] ->
  exists winner tw,
    threads m0 !! winner = Some tw /\
    forwardee_of p (shared m) = Some (ev_copy tw) /\
    forall i t0 t,
      threads m0 !! i = Some t0 -> threads m !! i = Some t ->
      ev_phase t = returned (ev_copy tw) /\
      (ev_copy t0 = ev_copy tw <-> i = winner) /\
      (i = winner -> ev_tld t = ev_tld t0) /\
      (i <> winner -> loser_cleaned_up fl t0 (ev_tld t) (shared m)).
Proof.
  intros [HF HC HP] Hret Hne.
  assert (Hresult : forall i t0 t,
            threads m0 !! i = Some t0 -> threads m !! i = Some t ->
            exists v, ev_phase t = returned v /\ forwardee_of p (shared m) = Some v /\
                      (v = ev_copy t0 -> ev_tld t = ev_tld t0) /\
                      (v <> ev_copy t0 -> loser_cleaned_up fl t0 (ev_tld t) (shared m))).
  { intros i t0 t H0 Hi.
    assert (Hinv : thread_inv fl p (shared m) t0 t) by (eapply Forall2_lookup_lr; eauto).
    destruct Hinv as [_ Hph]. unfold phase_inv in Hph.
    rewrite Forall_forall in Hret.
    assert (Hr : has_returned t = true)
      by (apply Hret; eapply list_elem_of_lookup_2; exact Hi).
    unfold has_returned in Hr.
    destruct (ev_phase t) as [| r | v]; try discriminate Hr.
    exists v. split; [reflexivity | exact Hph]. }
  assert (H00 : exists t00, threads m0 !! 0%nat = Some t00).
  { destruct (threads m0) as [| t00 rest0]; [contradiction | exists t00; reflexivity]. }
  destruct H00 as [t00 H00].
  destruct (Forall2_lookup_l _ _ _ _ _ HF H00) as (t0' & Hi0 & _).
  destruct (Hresult 0%nat t00 t0' H00 Hi0) as (c & _ & Hfwd & _).
  assert (Hwin : exists tw, tw ∈ threads m0 /\ ev_copy tw = c).
  { unfold forwardee_of in Hfwd. destruct (mem (shared m) !! p) as [o |]; [| discriminate].
    destruct (obj_mark o); try discriminate Hfwd. inversion Hfwd; subst. exact HP. }
  destruct Hwin as (tw & Hin & Hcw).
  apply list_elem_of_lookup_1 in Hin. destruct Hin as [winner Hw].
  exists winner, tw. split; [exact Hw |].
  split; [rewrite Hcw; exact Hfwd |].
  intros i t0 t H0 Hi.
  destruct (Hresult i t0 t H0 Hi) as (v & Hv & Hf & Hwt & Hl).
  assert (v = c) by congruence. subst v.
  split; [rewrite Hcw; exact Hv |].
  assert (Hiff : ev_copy t0 = ev_copy tw <-> i = winner).
  { split.
    - intros Heq. eapply copies_distinct; eauto.
    - intros ->. congruence. }
  split; [exact Hiff |]. split.
  - intros ->. apply Hwt. congruence.
  - intros Hnw. apply Hl. intros X. apply Hnw. apply Hiff. congruence.
Qed.

End RaceProof.

(** C2: N threads hold a copy each of an object that is not forwarded yet,
    and each runs the rest of [try_evacuate_object] - the compare-and-swap,
    then the code after it - interleaved with the others in any order.
    Every schedule runs to its end; one that gives every thread its two
    steps makes every thread return.  Once all have returned, exactly one
    thread's copy is the forwardee of the object, every thread has
    returned that copy, the winner's buffers are as they were, and every
    other thread's copy was either given back to its buffer (the
    allocation pointer is back at the copy, the buffer is richer by the
    size of the copy, and the promoted bytes are lowered when the copy was
    a promotion) or, when it came from the shared allocator, overwritten
    with a filler object. *)
Theorem single_canonical_copy (fl : Flags) (p : Z) (m0 : Machine) (schedule : list nat) :
  race_start p m0 ->
  exists m,
    run fl p schedule m0 = Some m /\
    ((forall i, (i < length (threads m0))%nat -> (2 <= steps_of i schedule)%nat) ->
     Forall (fun t => has_returned t = true) (threads m)) /\
    (Forall (fun t => has_returned t = true) (threads m) ->
     threads m0 <> [] ->
     exists winner tw,
       threads m0 !! winner = Some tw /\
       forwardee_of p (shared m) = Some (ev_copy tw) /\
       forall i t0 t,
         threads m0 !! i = Some t0 -> threads m !! i = Some t ->
         ev_phase t = returned (ev_copy tw) /\
         (ev_copy t0 = ev_copy tw <-> i = winner) /\
         (i = winner -> ev_tld t = ev_tld t0) /\
         (i <> winner -> loser_cleaned_up fl t0 (ev_tld t) (shared m))).
Proof.
  intros Hstart.
  destruct (run_preserves fl p m0 Hstart schedule m0 (race_inv_start fl p m0 Hstart))
    as (m & E & Hinv).
  exists m. split; [exact E |]. split.
  - intros Hfair. exact (fair_schedule_returns fl p schedule m0 m E Hfair).
  - intros Hret Hne. exact (race_inv_outcome fl p m0 Hstart m Hinv Hret Hne).
Qed.

Lemma racer_ready (bottom copy : Z) (from_lab : bool) :
  copy <> 1048640 ->
  is_Some (mem (shared racing_threads) !! copy) ->
  (from_lab = true -> copy = bottom) ->
  ready 1048640 (shared racing_threads) (racer bottom copy from_lab).
Proof.
  intros Hne Hsome Hlab. unfold ready.
  split; [reflexivity |]. split; [exact Hne |]. split; [exact Hsome |].
  intros Hfrom. cbn in Hfrom. specialize (Hlab Hfrom). subst copy.
  exists (gclab_holding_copy bottom). split; [reflexivity |]. split; [| reflexivity].
  unfold Plab.contains, gclab_holding_copy. cbn.
  apply andb_true_intro. split; [apply Z.leb_le | apply Z.ltb_lt]; lia.
Qed.

Lemma racing_threads_start : race_start 1048640 racing_threads.
Proof.
  split; [| split].
  - exists raced_object. split; [vm_compute; reflexivity | reflexivity].
  - apply Forall_cons. split; [| apply Forall_cons; split; [| apply Forall_cons; split]].
    + apply racer_ready; [discriminate | exists raced_object; vm_compute; reflexivity
                          | reflexivity].
    + apply racer_ready; [discriminate | exists raced_object; vm_compute; reflexivity
                          | reflexivity].
    + apply racer_ready; [discriminate | exists raced_object; vm_compute; reflexivity
                          | discriminate].
    + apply Forall_nil. exact I.
  - apply (bool_decide_unpack _). vm_compute. exact I.
Qed.

Lemma single_canonical_copy_witness :
  exists m winner tw,
    run example_heap_flags 1048640 [1; 0; 2; 1; 2; 0]%nat racing_threads = Some m /\
    threads racing_threads !! winner = Some tw /\
    forwardee_of 1048640 (shared m) = Some (ev_copy tw) /\
    Forall (fun t => ev_phase t = returned (ev_copy tw)) (threads m).
Proof.
  destruct (single_canonical_copy example_heap_flags 1048640 racing_threads
              [1; 0; 2; 1; 2; 0]%nat racing_threads_start)
    as (m & E & Hfair & Hout).
  assert (Hret : Forall (fun t => has_returned t = true) (threads m)).
  { apply Hfair. intros i Hi. cbn in Hi.
    destruct i as [| [| [| i]]]; cbn; lia. }
  destruct (Hout Hret ltac:(discriminate)) as (winner & tw & Hw & Hf & Hall).
  exists m, winner, tw. split; [exact E |]. split; [exact Hw |]. split; [exact Hf |].
  apply Forall_lookup. intros i t Hi.
  assert (Hlt : (i < length (threads racing_threads))%nat).
  { rewrite <- (run_length example_heap_flags 1048640 _ _ _ E).
    eapply lookup_lt_Some; exact Hi. }
  destruct (lookup_lt_is_Some_2 _ _ Hlt) as [t0 H0].
  apply (Hall i t0 t H0 Hi).
Defined.

(** ** The scenarios of the specification, run on the model *)

(** An object of 16 words and age 1 in a region of age 2, with a tenuring
    threshold of 3, is tried for promotion; the PLAB has 10 words left, so
    the slow path retires it and asks for a new one; the request is
    refused at the minimum size, promotions are disabled for the thread,
    and the object is evacuated within the young generation. *)
Example promotion_falls_back_to_young :
  exists w',
    evacuate_object example_heap_flags 1048640 (example_world (worker 320) [])
      = Some (1310720, w') /\
    trace w' = [ end_evacuation 128; begin_evacuation 128;
                 handle_failed_promotion 16;
                 allocate_memory_called (for_plab 320 320);
                 register_object_without_lock 1179958;
                 unexpend_promoted 1536 ] /\
    plab_size (tld w') = 640 /\
    allow_plab_promotions (tld w') = false.
Proof. eexists. repeat split; vm_compute; reflexivity. Qed.

(** When the buffer is granted, the object is promoted into it. *)
Example promotion_into_granted_plab :
  exists w',
    evacuate_object example_heap_flags 1048640
      (example_world (worker 320) [granted_plab]) = Some (1180032, w') /\
    trace w' = [ handle_evacuation 1180032 16 true;
                 end_evacuation 128; begin_evacuation 128;
                 allocate_memory_called (for_plab 320 320);
                 register_object_without_lock 1179958;
                 unexpend_promoted 1536 ] /\
    plab_promoted (tld w') = 128 /\
    plab_retries_enabled (tld w') = true.
Proof. eexists. repeat split; vm_compute; reflexivity. Qed.

(** Two of the racing threads: the first wins the compare-and-swap; the
    second gives its 8 words back to its buffer and returns the first
    one's copy. *)
Example race_of_two_buffers :
  exists m loser,
    run example_heap_flags 1048640 [0; 1; 1; 0]%nat racing_threads = Some m /\
    forwardee_of 1048640 (shared m) = Some 1310720 /\
    threads m !! 1%nat = Some loser /\
    ev_phase loser = returned 1310720 /\
    (Plab.words_remaining <$> gclab (ev_tld loser)) = Some 1024.
Proof. eexists _, _. repeat split; vm_compute; reflexivity. Qed.

(** An old generation with 100 regions available and an ideal reserve of
    60 regions, with 10 regions coming back from the collection set, has a
    surplus of 50 regions; the 40 unaffiliated ones go to young. *)
Example surplus_goes_to_young :
  old_region_balance
    (compute_old_generation_balance example_heap_flags large_young_generation
       roomy_old_generation (10 * 1048576) 10) = 40.
Proof. vm_compute. reflexivity. Qed.

(** ** PLAB sizing *)

Lemma is_aligned_mod (x k : Z) : 0 <= k -> is_aligned x (2 ^ k) <-> x mod 2 ^ k = 0.
Proof.
  intros Hk. unfold is_aligned.
  replace (2 ^ k - 1) with (Z.ones k) by (rewrite Z.ones_equiv; lia).
  rewrite Z.land_ones by exact Hk. reflexivity.
Qed.

Lemma align_down_eq (x k : Z) :
  0 <= k -> in_range x -> align_down x (2 ^ k) = x / 2 ^ k * 2 ^ k.
Proof.
  intros Hk Hx. unfold align_down. rewrite (wrap_small x Hx).
  replace (2 ^ k - 1) with (Z.ones k) by (rewrite Z.ones_equiv; lia).
  unfold wrap. change SizeT.modulus with (2 ^ 64).
  rewrite <- (Z.land_ones _ 64) by lia.
  rewrite (Z.land_comm (Z.lnot (Z.ones k))), Z.land_assoc.
  rewrite (Z.land_ones x 64) by lia.
  rewrite Z.mod_small by exact Hx.
  rewrite <- Z.ldiff_land, Z.ldiff_ones_r by exact Hk.
  rewrite Z.shiftr_div_pow2, Z.shiftl_mul_pow2 by exact Hk. reflexivity.
Qed.

Lemma align_down_spec (x k : Z) :
  0 <= k -> in_range x ->
  is_aligned (align_down x (2 ^ k)) (2 ^ k) /\
  align_down x (2 ^ k) <= x < align_down x (2 ^ k) + 2 ^ k.
Proof.
  intros Hk Hx. rewrite (align_down_eq x k Hk Hx).
  assert (Hp : 0 < 2 ^ k) by (apply Z.pow_pos_nonneg; lia).
  split.
  - apply is_aligned_mod; [exact Hk |]. apply Z.mod_mul. lia.
  - pose proof (Z.div_mod x (2 ^ k) ltac:(lia)) as Hd.
    pose proof (Z.mod_pos_bound x (2 ^ k) Hp). lia.
Qed.

Lemma align_up_spec (x k : Z) :
  0 <= k -> 0 <= x -> x + 2 ^ k - 1 < SizeT.modulus ->
  is_aligned (align_up x (2 ^ k)) (2 ^ k) /\
  x <= align_up x (2 ^ k) < x + 2 ^ k.
Proof.
  intros Hk Hx Hfit.
  assert (Hp : 0 < 2 ^ k) by (apply Z.pow_pos_nonneg; lia).
  unfold align_up.
  destruct (align_down_spec (x + (2 ^ k - 1)) k Hk) as (Ha & Hb).
  { unfold in_range. lia. }
  split; [exact Ha |].
  split; [| lia].
  rewrite align_down_eq in * by (try exact Hk; unfold in_range; lia).
  pose proof (Z.div_mod x (2 ^ k) ltac:(lia)) as Hd.
  pose proof (Z.mod_pos_bound x (2 ^ k) Hp) as Hm.
  destruct (Z.eq_dec (x mod 2 ^ k) 0) as [Hz | Hnz].
  - assert (Hq : (x + (2 ^ k - 1)) / 2 ^ k = x / 2 ^ k).
    { symmetry. apply (Z.div_unique _ _ _ (2 ^ k - 1)); lia. }
    rewrite Hq. lia.
  - assert (Hq : (x + (2 ^ k - 1)) / 2 ^ k = x / 2 ^ k + 1).
    { symmetry. apply (Z.div_unique _ _ _ (x mod 2 ^ k - 1)); lia. }
    rewrite Hq. lia.
Qed.

(** [align_up] gives the least aligned value that is not below [x]. *)
Lemma align_up_least (x y k : Z) :
  0 <= k -> 0 <= x -> x + 2 ^ k - 1 < SizeT.modulus ->
  is_aligned y (2 ^ k) -> x <= y -> align_up x (2 ^ k) <= y.
Proof.
  intros Hk Hx Hfit Hy Hxy.
  assert (Hp : 0 < 2 ^ k) by (apply Z.pow_pos_nonneg; lia).
  destruct (align_up_spec x k Hk Hx Hfit) as (Ha & Hb).
  apply is_aligned_mod in Ha; [| exact Hk]. apply is_aligned_mod in Hy; [| exact Hk].
  apply Z.mod_divide in Ha; [| lia]. apply Z.mod_divide in Hy; [| lia].
  destruct Ha as [qa Ea]. destruct Hy as [qy Ey].
  rewrite Ea in *. rewrite Ey in *.
  remember (2 ^ k) as P eqn:HP. clear HP Hfit.
  assert (qa - 1 < qy) by nia. nia.
Qed.

(** X1: the minimum PLAB size the constructor computes is a multiple of the
    card size, and the least one that is not below [PLAB::min_size()]. *)
Theorem calculate_min_plab_least_aligned (PLAB_min k : Z) :
  0 <= k -> 0 <= PLAB_min -> PLAB_min + 2 ^ k - 1 < SizeT.modulus ->
  is_aligned (calculate_min_plab PLAB_min (2 ^ k)) (2 ^ k) /\
  PLAB_min <= calculate_min_plab PLAB_min (2 ^ k) < PLAB_min + 2 ^ k /\
  (forall y, is_aligned y (2 ^ k) -> PLAB_min <= y ->
             calculate_min_plab PLAB_min (2 ^ k) <= y).
Proof.
  intros Hk Hm Hfit. unfold calculate_min_plab.
  destruct (align_up_spec PLAB_min k Hk Hm Hfit) as (Ha & Hb).
  split; [exact Ha |]. split; [exact Hb |].
  intros y Hy Hle. apply align_up_least; assumption.
Qed.

Lemma calculate_min_plab_least_aligned_witness :
  calculate_min_plab 258 (2 ^ 6) = 320 /\
  is_aligned (calculate_min_plab 258 (2 ^ 6)) (2 ^ 6).
Proof.
  split; [vm_compute; reflexivity |].
  apply (calculate_min_plab_least_aligned 258 6); [lia | lia | vm_compute; reflexivity].
Defined.

(** X2: the maximum PLAB size the constructor computes is a multiple of the
    card size, does not exceed the largest TLAB, and is what it aligns
    down, less than a card below it: the largest TLAB when
    [ShenandoahMaxEvacLABRatio] is zero, and otherwise the smaller of the
    largest TLAB and [ShenandoahMaxEvacLABRatio] times [PLAB::min_size()]. *)
Theorem calculate_max_plab_bounds (MaxTLABSizeWords ratio PLAB_min k : Z) :
  0 <= k -> in_range MaxTLABSizeWords ->
  let bound := if 0 <? ratio then MIN2 MaxTLABSizeWords (mul PLAB_min ratio)
               else MaxTLABSizeWords in
  is_aligned (calculate_max_plab MaxTLABSizeWords ratio PLAB_min (2 ^ k)) (2 ^ k) /\
  calculate_max_plab MaxTLABSizeWords ratio PLAB_min (2 ^ k) <= MaxTLABSizeWords /\
  bound - 2 ^ k < calculate_max_plab MaxTLABSizeWords ratio PLAB_min (2 ^ k) <= bound.
Proof.
  intros Hk Hmax bound. unfold calculate_max_plab. subst bound.
  destruct (0 <? ratio).
  - assert (Hr : in_range (MIN2 MaxTLABSizeWords (mul PLAB_min ratio))).
    { rewrite MIN2_eq_min. pose proof (wrap_range (PLAB_min * ratio)) as Hw.
      unfold mul, in_range in *. lia. }
    destruct (align_down_spec _ k Hk Hr) as (Ha & Hb).
    pose proof (MIN2_le_l MaxTLABSizeWords (mul PLAB_min ratio)).
    split; [exact Ha |]. split; lia.
  - destruct (align_down_spec _ k Hk Hmax) as (Ha & Hb).
    split; [exact Ha |]. split; lia.
Qed.

Lemma calculate_max_plab_bounds_witness :
  calculate_max_plab 131072 0 258 (2 ^ 6) = 131072 /\
  calculate_max_plab 131072 100 258 (2 ^ 6) = 25792 /\
  is_aligned (calculate_max_plab 131072 100 258 (2 ^ 6)) (2 ^ 6).
Proof.
  split; [vm_compute; reflexivity |]. split; [vm_compute; reflexivity |].
  apply (calculate_max_plab_bounds 131072 100 258 6);
    [lia | unfold in_range; rewrite modulus_eq; lia].
Defined.

(** ** Invariants of heap computations *)

Lemma preserves_ret {A : Type} (P : World -> Prop) (a : A) : preserves P (ret a).
Proof. intros w a' w' HP E. inversion E; subst. exact HP. Qed.

Lemma preserves_bind {A B : Type} (P : World -> Prop) (m : M A) (k : A -> M B) :
  preserves P m -> (forall a, preserves P (k a)) -> preserves P (bind m k).
Proof.
  intros Hm Hk w b w' HP E. unfold bind in E.
  destruct (m w) as [[a w1] |] eqn:E1; [| discriminate].
  exact (Hk a w1 b w' (Hm w a w1 HP E1) E).
Qed.

Lemma preserves_stop {A : Type} (P : World -> Prop) :
  preserves P (@ShouldNotReachHere A).
Proof. intros w a w' _ E. discriminate E. Qed.

(** A computation that only reads keeps everything. *)
Lemma preserves_read {A : Type} (P : World -> Prop) (m : M A) :
  (forall w a w', m w = Some (a, w') -> w' = w) -> preserves P m.
Proof. intros H w a w' HP E. rewrite (H w a w' E). exact HP. Qed.

Lemma preserves_get_tld (P : World -> Prop) : preserves P get_tld.
Proof. apply preserves_read. intros w a w' E. inversion E; reflexivity. Qed.

Lemma preserves_get_world (P : World -> Prop) : preserves P get_world.
Proof. apply preserves_read. intros w a w' E. inversion E; reflexivity. Qed.

Lemma preserves_object_at (P : World -> Prop) (p : Z) : preserves P (object_at p).
Proof.
  apply preserves_read. intros w a w' E. unfold object_at in E.
  destruct (mem w !! p); inversion E; reflexivity.
Qed.

Lemma preserves_the_plab (P : World -> Prop) : preserves P the_plab.
Proof.
  apply preserves_read. intros w a w' E. unfold the_plab in E.
  destruct (plab (tld w)); inversion E; reflexivity.
Qed.

Lemma preserves_the_gclab (P : World -> Prop) : preserves P the_gclab.
Proof.
  apply preserves_read. intros w a w' E. unfold the_gclab in E.
  destruct (gclab (tld w)); inversion E; reflexivity.
Qed.

Lemma preserves_heap_region_containing (fl : Flags) (P : World -> Prop) (p : Z) :
  preserves P (heap_region_containing fl p).
Proof.
  apply preserves_read. intros w a w' E. unfold heap_region_containing in E.
  destruct (region_at w _); inversion E; reflexivity.
Qed.

Lemma preserves_modify_tld (P : World -> Prop) (f : ThreadLocalData -> ThreadLocalData) :
  (forall w, P w -> P (set_tld (f (tld w)) w)) -> preserves P (modify_tld f).
Proof. intros H w a w' HP E. inversion E; subst. apply H. exact HP. Qed.

Lemma preserves_emit (P : World -> Prop) (e : Event) :
  (forall w, P w -> P (set_trace (e :: trace w) w)) -> preserves P (emit e).
Proof. intros H w a w' HP E. inversion E; subst. apply H. exact HP. Qed.

Lemma preserves_store_object (P : World -> Prop) (p : Z) (o : oopDesc) :
  (forall w, P w -> P (set_mem (<[p := o]> (mem w)) w)) -> preserves P (store_object p o).
Proof. intros H w a w' HP E. inversion E; subst. apply H. exact HP. Qed.


Ltac preserves_step :=
  lazymatch goal with
  | |- preserves _ (bind _ _) => apply preserves_bind; [| intros ?]
  | |- preserves _ (ret _) => apply preserves_ret
  | |- preserves _ ShouldNotReachHere => apply preserves_stop
  | |- preserves _ get_tld => apply preserves_get_tld
  | |- preserves _ get_world => apply preserves_get_world
  | |- preserves _ (object_at _) => apply preserves_object_at
  | |- preserves _ the_plab => apply preserves_the_plab
  | |- preserves _ the_gclab => apply preserves_the_gclab
  | |- preserves _ (heap_region_containing _ _) => apply preserves_heap_region_containing
  | |- preserves _ (modify_tld _) => apply preserves_modify_tld
  | |- preserves _ (emit _) => apply preserves_emit
  | |- preserves _ (store_object _ _) => apply preserves_store_object
  | |- preserves _ (fill_with_object _ _) => apply preserves_store_object
  | |- preserves _ (if ?c then _ else _) => destruct c
  | |- preserves _ (match ?x with _ => _ end) => destruct x
  end.

Section PlabSizing.

Variable fl : Flags.
Hypothesis bounds : plab_bounds_ok fl.

Lemma sizing_keeps_tld (f : ThreadLocalData -> ThreadLocalData) (w : World) :
  plab_size (f (tld w)) = plab_size (tld w) ->
  plab_sizing_inv fl w -> plab_sizing_inv fl (set_tld (f (tld w)) w).
Proof. intros Hf [H1 H2]. split; cbn; [rewrite Hf; exact H1 | exact H2]. Qed.

Lemma sizing_keeps_event (e : Event) (w : World) :
  plab_request_ok fl e ->
  plab_sizing_inv fl w -> plab_sizing_inv fl (set_trace (e :: trace w) w).
Proof. intros He [H1 H2]. split; cbn; [exact H1 | apply Forall_cons; split; assumption]. Qed.

Lemma sizing_keeps_mem (v : gmap Z oopDesc) (w : World) :
  plab_sizing_inv fl w -> plab_sizing_inv fl (set_mem v w).
Proof. intros H. exact H. Qed.

Lemma sizing_sets_size (s : Z) (w : World) :
  preferred_size_ok fl s ->
  plab_sizing_inv fl w -> plab_sizing_inv fl (set_tld (tld_set_plab_size s (tld w)) w).
Proof. intros Hs [H1 H2]. split; cbn; assumption. Qed.

Ltac sizing_side :=
  first
    [ intros ? ?; apply sizing_keeps_tld; [reflexivity | assumption]
    | intros ? ?; apply sizing_keeps_event; [exact I | assumption]
    | intros ? ?; apply sizing_keeps_mem; assumption ].

Ltac sizing_auto := repeat (preserves_step; try sizing_side).

Lemma retire_plab_keeps_sizing : preserves (plab_sizing_inv fl) (retire_plab fl).
Proof. unfold retire_plab. sizing_auto. Qed.

Lemma allocate_memory_keeps_sizing (req : ShenandoahAllocRequest) :
  plab_request_ok fl (allocate_memory_called req) ->
  preserves (plab_sizing_inv fl) (allocate_memory req).
Proof.
  intros Hreq w a w' [H1 H2] E. unfold allocate_memory in E. cbn in E.
  destruct (alloc_tape w) as [| r rest]; inversion E; subst; clear E.
  - split; cbn; [exact H1 | apply Forall_cons; split; assumption].
  - split; cbn; [| apply Forall_cons; split; assumption].
    unfold apply_response.
    destruct (resp_plab_promoted r), (resp_plab_actual_size r),
      (resp_allow_plab_promotions r); exact H1.
Qed.


Lemma allocate_new_plab_keeps_sizing (min_size word_size : Z) :
  is_aligned min_size (card_size_in_words fl) -> min_size <= word_size ->
  preserves (plab_sizing_inv fl) (allocate_new_plab min_size word_size).
Proof.
  intros Ha Hle. unfold allocate_new_plab.
  apply preserves_bind; [apply allocate_memory_keeps_sizing; split; assumption |].
  intros [res granted]. sizing_auto.
Qed.

(** The size the slow path records is legal. *)
Lemma future_size_ok (s : Z) :
  preferred_size_ok fl s ->
  let cur := if s =? 0 then plab_min_size fl else s in
  (is_aligned cur (card_size_in_words fl) /\ plab_min_size fl <= cur <= plab_max_size fl) /\
  preferred_size_ok fl (MIN2 (mul cur 2) (plab_max_size fl)).
Proof.
  destruct bounds as ((k & Hk & Hcard) & Hmin & Hmax & Hpos & Hle & Hlt).
  rewrite half_modulus_eq in Hlt.
  intros Hs cur.
  assert (Hcur : is_aligned cur (card_size_in_words fl) /\
                 plab_min_size fl <= cur <= plab_max_size fl).
  { subst cur. destruct (Z.eqb_spec s 0) as [-> | Hnz].
    - split; [exact Hmin | lia].
    - destruct Hs as [Hz | Hs]; [contradiction | exact Hs]. }
  split; [exact Hcur |]. destruct Hcur as (Ha & Hb). right.
  assert (Hm : mul cur 2 = 2 * cur).
  { unfold mul. rewrite wrap_small; [lia |]. unfold in_range. rewrite modulus_eq. lia. }
  rewrite Hm. unfold MIN2. destruct (Z.ltb_spec (2 * cur) (plab_max_size fl)).
  - split; [| lia]. rewrite Hcard in *. apply is_aligned_mod; [exact Hk |].
    apply is_aligned_mod in Ha; [| exact Hk].
    rewrite Z.mul_comm. apply Z.mod_divide; [apply Z.pow_nonzero; lia |].
    apply Z.mod_divide in Ha; [| apply Z.pow_nonzero; lia].
    apply Z.divide_mul_l. exact Ha.
  - split; [exact Hmax | lia].
Qed.

(** The minimum the slow path asks for is aligned and within the size it
    asks for. *)
Lemma slow_path_request_ok (size cur : Z) :
  is_aligned cur (card_size_in_words fl) ->
  plab_min_size fl <= cur <= plab_max_size fl ->
  size <= cur ->
  is_aligned (slow_path_min_size fl size) (card_size_in_words fl) /\
  slow_path_min_size fl size <= cur.
Proof.
  destruct bounds as ((k & Hk & Hcard) & Hmin & Hmax & Hpos & Hle & Hlt).
  rewrite half_modulus_eq in Hlt.
  intros Ha Hb Hfit. unfold slow_path_min_size.
  destruct (Z.ltb_spec (plab_min_size fl) size) as [Hbig | Hsmall].
  - rewrite Hcard in *.
    assert (Hp : 0 < 2 ^ k) by (apply Z.pow_pos_nonneg; lia).
    assert (Hc : 2 ^ k <= cur).
    { apply is_aligned_mod in Ha; [| exact Hk].
      apply Z.mod_divide in Ha; [| lia]. destruct Ha as [q Hq].
      assert (0 < q) by nia. nia. }
    assert (Hfits : size + 2 ^ k - 1 < SizeT.modulus) by (rewrite modulus_eq; lia).
    destruct (align_up_spec size k Hk ltac:(lia) Hfits) as (Hal & _).
    split; [exact Hal |]. apply align_up_least; try assumption; lia.
  - split; [exact Hmin | lia].
Qed.

Ltac sizing_known :=
  first
    [ apply retire_plab_keeps_sizing
    | apply allocate_memory_keeps_sizing; exact I ].

Lemma allocate_from_plab_slow_keeps_sizing (size : Z) (is_promotion : bool) :
  preserves (plab_sizing_inv fl) (allocate_from_plab_slow fl size is_promotion).
Proof.
  unfold allocate_from_plab_slow. fold (slow_path_min_size fl size).
  intros w a w' HP E. unfold bind at 1, get_tld at 1 in E.
  unfold bind at 1, modify_tld at 1 in E.
  destruct (future_size_ok (plab_size (tld w)) (proj1 HP)) as ((Hal & Hrange) & Hfut).
  set (cur := if plab_size (tld w) =? 0 then plab_min_size fl else plab_size (tld w)) in *.
  match type of E with
  | ?rest ?w0 = _ => assert (Hrest : preserves (plab_sizing_inv fl) rest)
  end.
  { destruct (Z.ltb_spec cur size) as [Hlt | Hge]; [apply preserves_ret |].
    destruct (slow_path_request_ok size cur Hal Hrange Hge) as (Hreq1 & Hreq2).
    preserves_step; [preserves_step |].
    preserves_step; [| apply preserves_ret].
    preserves_step; [apply retire_plab_keeps_sizing |].
    apply preserves_bind; [apply allocate_new_plab_keeps_sizing; assumption |].
    intros [plab_buf actual_size].
    repeat (preserves_step; try sizing_side). }
  exact (Hrest _ a w' (sizing_sets_size _ w Hfut HP) E).
Qed.

Lemma allocate_from_plab_keeps_sizing (size : Z) (is_promotion : bool) :
  preserves (plab_sizing_inv fl) (allocate_from_plab fl size is_promotion).
Proof.
  unfold allocate_from_plab.
  preserves_step; [preserves_step |].
  destruct (plab a) as [b |]; [| apply preserves_ret].
  destruct (is_promotion && negb (allow_plab_promotions a)); [apply preserves_ret |].
  destruct (Plab.allocate b size) as [obj0 b'].
  preserves_step; [preserves_step; sizing_side |].
  preserves_step.
  - destruct ((obj0 =? nullptr) && (Plab.words_remaining b' <? plab_min_size fl));
      [apply allocate_from_plab_slow_keeps_sizing | apply preserves_ret].
  - repeat (preserves_step; try sizing_side).
Qed.

Lemma allocate_from_gclab_keeps_sizing (size : Z) :
  preserves (plab_sizing_inv fl) (allocate_from_gclab size).
Proof.
  unfold allocate_from_gclab.
  preserves_step; [preserves_step |].
  destruct (gclab a) as [g |]; [| apply preserves_ret].
  destruct (Plab.allocate g size) as [obj g'].
  destruct (obj =? nullptr).
  - intros w r w' HP E. unfold allocate_from_gclab_slow in E.
    destruct (gclab_tape w) as [| resp rest]; inversion E; subst; [exact HP |].
    destruct HP as [H1 H2]. split; cbn; assumption.
  - repeat (preserves_step; try sizing_side).
Qed.

Lemma min_size_ok : preferred_size_ok fl (plab_min_size fl).
Proof.
  destruct bounds as (_ & Hmin & _ & Hpos & Hle & _). right. split; [exact Hmin | lia].
Qed.

Lemma try_evacuate_in_lab_keeps_sizing (size : Z) (target_gen : ShenandoahAffiliation)
    (is_promotion : bool) :
  preserves (plab_sizing_inv fl) (try_evacuate_in_lab fl size target_gen is_promotion).
Proof.
  unfold try_evacuate_in_lab. destruct target_gen.
  - apply preserves_stop.
  - preserves_step; [apply allocate_from_gclab_keeps_sizing |].
    preserves_step; [preserves_step |].
    preserves_step; [| apply preserves_ret].
    preserves_step; [preserves_step; sizing_side |].
    preserves_step; [apply allocate_from_gclab_keeps_sizing | apply preserves_ret].
  - preserves_step; [preserves_step |].
    preserves_step; [apply allocate_from_plab_keeps_sizing |].
    preserves_step; [preserves_step |].
    preserves_step; [| apply preserves_ret].
    preserves_step; [preserves_step |].
    preserves_step; [| apply preserves_ret].
    preserves_step.
    + preserves_step. intros w HP. apply sizing_sets_size; [exact min_size_ok | exact HP].
    + preserves_step; [apply allocate_from_plab_keeps_sizing |].
      repeat (preserves_step; try sizing_side).
Qed.


Lemma increase_object_age_keeps_sizing (obj additional_age : Z) :
  preserves (plab_sizing_inv fl) (increase_object_age obj additional_age).
Proof. unfold increase_object_age. repeat (preserves_step; try sizing_side). Qed.

Lemma resolve_forwarded_keeps (P : World -> Prop) (p : Z) : preserves P (resolve_forwarded p).
Proof. unfold resolve_forwarded. repeat preserves_step. Qed.

Lemma try_evacuate_object_keeps_sizing (p : Z) (from_region : ShenandoahHeapRegion)
    (target_gen : ShenandoahAffiliation) :
  preserves (plab_sizing_inv fl) (try_evacuate_object fl p from_region target_gen).
Proof.
  unfold try_evacuate_object.
  preserves_step; [preserves_step |].
  apply preserves_bind.
  { unfold allocate_copy. apply preserves_bind.
    - destruct (UseTLAB fl); [apply try_evacuate_in_lab_keeps_sizing | apply preserves_ret].
    - intros [copy0 has_plab]. unfold try_evacuate_shared.
      repeat (first [apply allocate_memory_keeps_sizing; exact I | preserves_step];
              try sizing_side). }
  intros [copy alloc_from_lab].
  destruct (copy =? nullptr).
  - unfold evacuation_failed, oom_evac_handler.
    repeat (first [apply resolve_forwarded_keeps | preserves_step]; try sizing_side).
  - apply preserves_bind.
    { unfold copy_object.
      repeat (first [apply increase_object_age_keeps_sizing | preserves_step];
              try sizing_side). }
    intros copy_val. apply preserves_bind.
    { unfold try_update_forwardee. repeat (preserves_step; try sizing_side). }
    intros result. unfold finish_evacuation, get_object_age, undo_allocation.
    repeat (preserves_step; try sizing_side).
Qed.

Lemma evacuate_object_keeps_sizing (p : Z) :
  preserves (plab_sizing_inv fl) (evacuate_object fl p).
Proof.
  unfold evacuate_object.
  repeat (first [ apply resolve_forwarded_keeps
                | apply try_evacuate_object_keeps_sizing
                | preserves_step ]; try sizing_side).
Qed.

End PlabSizing.

(** X3: the checks of the slow path on the sizes it computes hold across a
    whole evacuation.  With PLAB bounds as the constructor leaves them,
    [evacuate_object] keeps the thread's preferred PLAB size either unset
    or a multiple of the card size between the minimum and the maximum
    (what [allocate_from_plab_slow] asserts of [future_size]), and every
    buffer it asks the shared allocator for has a card-aligned minimum that
    is not above the size asked for (what [allocate_new_plab] asserts of
    [min_size] and [word_size]).  What the allocator answers, [actual_size]
    and the address of the buffer, is the allocator's to keep aligned. *)
Theorem evacuate_object_keeps_plab_sizes_legal (fl : Flags) (p : Z) (w : World)
    (v : Z) (w' : World) :
  plab_bounds_ok fl ->
  preferred_size_ok fl (plab_size (tld w)) ->
  Forall (plab_request_ok fl) (trace w) ->
  evacuate_object fl p w = Some (v, w') ->
  preferred_size_ok fl (plab_size (tld w')) /\
  Forall (plab_request_ok fl) (trace w').
Proof.
  intros Hb Hs Ht E.
  exact (evacuate_object_keeps_sizing fl Hb p w v w' (conj Hs Ht) E).
Qed.

Lemma example_plab_bounds_ok : plab_bounds_ok example_heap_flags.
Proof.
  split; [exists 6; split; [lia | reflexivity] |].
  split; [reflexivity |]. split; [reflexivity |].
  split; [reflexivity |]. split; [discriminate | reflexivity].
Qed.

Lemma evacuate_object_keeps_plab_sizes_legal_witness :
  exists w',
    evacuate_object example_heap_flags 1048640 (example_world (worker 320) [])
      = Some (1310720, w') /\
    preferred_size_ok example_heap_flags (plab_size (tld w')) /\
    Forall (plab_request_ok example_heap_flags) (trace w').
Proof.
  destruct promotion_falls_back_to_young as (w' & E & _).
  exists w'. split; [exact E |].
  apply (evacuate_object_keeps_plab_sizes_legal example_heap_flags 1048640
           (example_world (worker 320) []) 1310720 w' example_plab_bounds_ok).
  - right. split; [reflexivity |]. cbn. lia.
  - apply Forall_nil. exact I.
  - exact E.
Defined.

(** ** Each target generation has its own buffer *)

Section OldSide.

Variable fl : Flags.
Variables (b : option PLAB) (s : Z) (retries : bool) (evs : list Event).

Lemma old_side_keeps_tld (f : ThreadLocalData -> ThreadLocalData) (w : World) :
  plab (f (tld w)) = plab (tld w) ->
  plab_size (f (tld w)) = plab_size (tld w) ->
  plab_retries_enabled (f (tld w)) = plab_retries_enabled (tld w) ->
  (old_side_is b s retries evs) w -> (old_side_is b s retries evs) (set_tld (f (tld w)) w).
Proof.
  intros H1 H2 H3 (Q1 & Q2 & Q3 & Q4). repeat split; cbn; congruence.
Qed.

Lemma old_side_keeps_event (e : Event) (w : World) :
  is_old_generation_event e = false -> (old_side_is b s retries evs) w -> (old_side_is b s retries evs) (set_trace (e :: trace w) w).
Proof.
  intros He (Q1 & Q2 & Q3 & Q4). repeat split; cbn; try assumption.
  rewrite He. exact Q4.
Qed.

Lemma old_side_keeps_mem (v : gmap Z oopDesc) (w : World) : (old_side_is b s retries evs) w -> (old_side_is b s retries evs) (set_mem v w).
Proof. intros H. exact H. Qed.

Ltac old_side :=
  first
    [ intros ? ?; apply old_side_keeps_tld; [reflexivity | reflexivity | reflexivity | assumption]
    | intros ? ?; apply old_side_keeps_event; [reflexivity | assumption]
    | intros ? ?; apply old_side_keeps_mem; assumption ].

Lemma allocate_memory_keeps_old_side (req : ShenandoahAllocRequest) :
  is_old_generation_event (allocate_memory_called req) = false ->
  preserves (old_side_is b s retries evs) (allocate_memory req).
Proof.
  intros Hreq w a w' (Q1 & Q2 & Q3 & Q4) E. unfold allocate_memory in E. cbn in E.
  destruct req as [sz [| |] promo | mn wd]; try discriminate Hreq;
    (destruct (alloc_tape w) as [| r rest]; inversion E; subst; clear E;
     [ repeat split; cbn; assumption
     | unfold apply_response;
       destruct (resp_plab_promoted r), (resp_plab_actual_size r),
         (resp_allow_plab_promotions r); repeat split; cbn; assumption ]).
Qed.

Lemma allocate_from_gclab_keeps_old_side (size : Z) :
  preserves (old_side_is b s retries evs) (allocate_from_gclab size).
Proof.
  unfold allocate_from_gclab.
  preserves_step; [preserves_step |].
  destruct (gclab a) as [g |]; [| apply preserves_ret].
  destruct (Plab.allocate g size) as [obj g'].
  destruct (obj =? nullptr).
  - intros w r w' HP E. unfold allocate_from_gclab_slow in E.
    destruct (gclab_tape w) as [| resp rest]; inversion E; subst; [exact HP |].
    destruct HP as (Q1 & Q2 & Q3 & Q4). repeat split; cbn; assumption.
  - repeat (preserves_step; try old_side).
Qed.

Lemma young_evacuation_keeps_old_side (p : Z) (from_region : ShenandoahHeapRegion) :
  preserves (old_side_is b s retries evs) (try_evacuate_object fl p from_region YOUNG_GENERATION).
Proof.
  unfold try_evacuate_object.
  preserves_step; [preserves_step |].
  apply preserves_bind.
  { unfold allocate_copy. apply preserves_bind.
    - destruct (UseTLAB fl); [| apply preserves_ret].
      unfold try_evacuate_in_lab.
      repeat (first [apply allocate_from_gclab_keeps_old_side | preserves_step];
              try old_side).
    - intros [copy0 has_plab]. unfold try_evacuate_shared.
      repeat (first [apply allocate_memory_keeps_old_side; reflexivity | preserves_step];
              try old_side). }
  intros [copy alloc_from_lab].
  destruct (copy =? nullptr).
  - unfold evacuation_failed, oom_evac_handler. cbn [affiliation_eqb andb].
    repeat (first [apply resolve_forwarded_keeps | preserves_step]; try old_side).
  - apply preserves_bind.
    { unfold copy_object, increase_object_age. repeat (preserves_step; try old_side). }
    intros copy_val. apply preserves_bind.
    { unfold try_update_forwardee. repeat (preserves_step; try old_side). }
    intros result. unfold finish_evacuation, get_object_age, undo_allocation.
    cbn [affiliation_eqb].
    repeat (preserves_step; try old_side).
Qed.

End OldSide.

Section YoungSide.

Variable fl : Flags.
Variables (g : option PLAB) (s : Z).

Lemma young_side_keeps_tld (f : ThreadLocalData -> ThreadLocalData) (w : World) :
  gclab (f (tld w)) = gclab (tld w) ->
  gclab_size (f (tld w)) = gclab_size (tld w) ->
  young_side_is g s w -> young_side_is g s (set_tld (f (tld w)) w).
Proof. intros H1 H2 (Q1 & Q2). split; cbn; congruence. Qed.

Lemma young_side_keeps_event (e : Event) (w : World) :
  young_side_is g s w -> young_side_is g s (set_trace (e :: trace w) w).
Proof. intros H. exact H. Qed.

Lemma young_side_keeps_mem (v : gmap Z oopDesc) (w : World) :
  young_side_is g s w -> young_side_is g s (set_mem v w).
Proof. intros H. exact H. Qed.

Ltac young_side :=
  first
    [ intros ? ?; apply young_side_keeps_tld; [reflexivity | reflexivity | assumption]
    | intros ? ?; apply young_side_keeps_event; assumption
    | intros ? ?; apply young_side_keeps_mem; assumption ].

Lemma allocate_memory_keeps_young_side (req : ShenandoahAllocRequest) :
  preserves (young_side_is g s) (allocate_memory req).
Proof.
  intros w a w' HP E. unfold allocate_memory in E. cbn in E.
  destruct (alloc_tape w) as [| r rest]; inversion E; subst; clear E;
    destruct HP as (Q1 & Q2).
  - split; cbn; assumption.
  - unfold apply_response.
    destruct (resp_plab_promoted r), (resp_plab_actual_size r),
      (resp_allow_plab_promotions r); split; cbn; assumption.
Qed.

Lemma retire_plab_keeps_young_side : preserves (young_side_is g s) (retire_plab fl).
Proof. unfold retire_plab. repeat (preserves_step; try young_side). Qed.

Lemma allocate_from_plab_keeps_young_side (size : Z) (is_promotion : bool) :
  preserves (young_side_is g s) (allocate_from_plab fl size is_promotion).
Proof.
  unfold allocate_from_plab, allocate_from_plab_slow, allocate_new_plab.
  repeat (first [ apply retire_plab_keeps_young_side
                | apply allocate_memory_keeps_young_side
                | preserves_step ]; try young_side).
Qed.

Lemma old_evacuation_keeps_young_side (p : Z) (from_region : ShenandoahHeapRegion) :
  preserves (young_side_is g s) (try_evacuate_object fl p from_region OLD_GENERATION).
Proof.
  unfold try_evacuate_object.
  preserves_step; [preserves_step |].
  apply preserves_bind.
  { unfold allocate_copy. apply preserves_bind.
    - destruct (UseTLAB fl); [| apply preserves_ret].
      unfold try_evacuate_in_lab.
      repeat (first [apply allocate_from_plab_keeps_young_side | preserves_step];
              try young_side).
    - intros [copy0 has_plab]. unfold try_evacuate_shared.
      repeat (first [apply allocate_memory_keeps_young_side | preserves_step];
              try young_side). }
  intros [copy alloc_from_lab].
  destruct (copy =? nullptr).
  - unfold evacuation_failed, oom_evac_handler.
    repeat (first [apply resolve_forwarded_keeps | preserves_step]; try young_side).
  - apply preserves_bind.
    { unfold copy_object, increase_object_age. repeat (preserves_step; try young_side). }
    intros copy_val. apply preserves_bind.
    { unfold try_update_forwardee. repeat (preserves_step; try young_side). }
    intros result. unfold finish_evacuation, get_object_age, undo_allocation.
    repeat (preserves_step; try young_side).
Qed.

End YoungSide.

(** X4. Evacuating an object into the young generation leaves the old side
    of the thread alone: the promotion buffer, its preferred size and its
    retry flag are what they were, and no request or notification that
    concerns the old generation is made. *)
Theorem young_evacuation_leaves_old_side (fl : Flags) (p : Z)
    (from_region : ShenandoahHeapRegion) (w : World) (v : Z) (w' : World) :
  try_evacuate_object fl p from_region YOUNG_GENERATION w = Some (v, w') ->
  plab (tld w') = plab (tld w) /\
  plab_size (tld w') = plab_size (tld w) /\
  plab_retries_enabled (tld w') = plab_retries_enabled (tld w) /\
  old_generation_events (trace w') = old_generation_events (trace w).
Proof.
  intros E.
  exact (young_evacuation_keeps_old_side fl _ _ _ _ p from_region w v w'
           (conj eq_refl (conj eq_refl (conj eq_refl eq_refl))) E).
Qed.

(** X5. Evacuating an object into the old generation never touches the
    thread's young buffer nor its preferred size. *)
Theorem old_evacuation_leaves_young_side (fl : Flags) (p : Z)
    (from_region : ShenandoahHeapRegion) (w : World) (v : Z) (w' : World) :
  try_evacuate_object fl p from_region OLD_GENERATION w = Some (v, w') ->
  gclab (tld w') = gclab (tld w) /\ gclab_size (tld w') = gclab_size (tld w).
Proof.
  intros E.
  exact (old_evacuation_keeps_young_side fl _ _ p from_region w v w'
           (conj eq_refl eq_refl) E).
Qed.

Lemma young_evacuation_leaves_old_side_witness :
  exists v w',
    try_evacuate_object example_heap_flags 1048640 evacuated_region YOUNG_GENERATION
      (example_world (worker 320) []) = Some (v, w') /\
    plab (tld w') = Some nearly_full_plab /\
    old_generation_events (trace w') = [].
Proof.
  destruct (try_evacuate_object example_heap_flags 1048640 evacuated_region
              YOUNG_GENERATION (example_world (worker 320) []))
    as [[v w'] |] eqn:E; [| vm_compute in E; discriminate E].
  exists v, w'. split; [reflexivity |].
  destruct (young_evacuation_leaves_old_side _ _ _ _ _ _ E) as (H1 & _ & _ & H4).
  split; assumption.
Defined.

Lemma old_evacuation_leaves_young_side_witness :
  exists v w',
    try_evacuate_object example_heap_flags 1048640 evacuated_region OLD_GENERATION
      (example_world (worker 320) [granted_plab]) = Some (v, w') /\
    gclab (tld w') = Some fresh_gclab /\ gclab_size (tld w') = 1024.
Proof.
  destruct (try_evacuate_object example_heap_flags 1048640 evacuated_region
              OLD_GENERATION (example_world (worker 320) [granted_plab]))
    as [[v w'] |] eqn:E; [| vm_compute in E; discriminate E].
  exists v, w'. split; [reflexivity |].
  exact (old_evacuation_leaves_young_side _ _ _ _ _ _ E).
Defined.

(** ** What an evacuation returns *)

Lemma returns_bind {A B : Type} (P : World -> Prop) (m : M A) (k : A -> M B)
    (Q : A -> Prop) (R : B -> Prop) :
  returns P m Q -> (forall a, Q a -> returns P (k a) R) -> returns P (bind m k) R.
Proof.
  intros Hm Hk w b w' HP E. unfold bind in E.
  destruct (m w) as [[a w1] |] eqn:E1; [| discriminate].
  destruct (Hm w a w1 HP E1) as [HP1 HQ].
  exact (Hk a HQ w1 b w' HP1 E).
Qed.

Lemma returns_preserves {A : Type} (P : World -> Prop) (m : M A) :
  preserves P m -> returns P m (fun _ => True).
Proof. intros H w a w' HP E. split; [exact (H w a w' HP E) | exact I]. Qed.

Lemma returns_ret {A : Type} (P : World -> Prop) (a : A) (Q : A -> Prop) :
  Q a -> returns P (ret a) Q.
Proof. intros HQ w a' w' HP E. inversion E; subst. split; assumption. Qed.

Lemma returns_weaken {A : Type} (P : World -> Prop) (m : M A) (Q R : A -> Prop) :
  returns P m Q -> (forall a, Q a -> R a) -> returns P m R.
Proof. intros H HQR w a w' HP E. destruct (H w a w' HP E). auto. Qed.

Lemma returns_seq {A B : Type} (P : World -> Prop) (m : M A) (k : A -> M B)
    (R : B -> Prop) :
  preserves P m -> (forall a, returns P (k a) R) -> returns P (bind m k) R.
Proof.
  intros Hm Hk. apply returns_bind with (Q := fun _ => True).
  - apply returns_preserves. exact Hm.
  - intros a _. apply Hk.
Qed.

Section NeverNull.

Variable fl : Flags.

Lemma no_null_keeps_tld (f : ThreadLocalData -> ThreadLocalData) (w : World) :
  no_null_forwardee w -> no_null_forwardee (set_tld (f (tld w)) w).
Proof. intros H. exact H. Qed.

Lemma no_null_keeps_event (e : Event) (w : World) :
  no_null_forwardee w -> no_null_forwardee (set_trace (e :: trace w) w).
Proof. intros H. exact H. Qed.

Lemma no_null_store (q : Z) (o : oopDesc) (w : World) :
  obj_mark o <> mark_forwarded nullptr ->
  no_null_forwardee w -> no_null_forwardee (set_mem (<[q := o]> (mem w)) w).
Proof.
  intros Ho H q' o' Hq. cbn in Hq.
  destruct (Z.eq_dec q q') as [-> | Hne].
  - rewrite lookup_insert_eq in Hq. inversion Hq; subst. exact Ho.
  - rewrite lookup_insert_ne in Hq by exact Hne. exact (H q' o' Hq).
Qed.

Ltac no_null_side :=
  first
    [ intros ? ?; apply no_null_keeps_tld; assumption
    | intros ? ?; apply no_null_keeps_event; assumption
    | intros ? ?; apply no_null_store; [discriminate | assumption] ].

Lemma object_at_returns (p : Z) :
  returns no_null_forwardee (object_at p)
    (fun o => obj_mark o <> mark_forwarded nullptr).
Proof.
  intros w o w' HP E. unfold object_at in E.
  destruct (mem w !! p) as [o' |] eqn:Hp; inversion E; subst.
  split; [exact HP | exact (HP p o Hp)].
Qed.

Lemma allocate_memory_keeps_no_null (req : ShenandoahAllocRequest) :
  preserves no_null_forwardee (allocate_memory req).
Proof.
  intros w a w' HP E. unfold allocate_memory in E. cbn in E.
  destruct (alloc_tape w); inversion E; subst; exact HP.
Qed.

Lemma retire_plab_keeps_no_null : preserves no_null_forwardee (retire_plab fl).
Proof. unfold retire_plab. repeat (preserves_step; try no_null_side). Qed.

Lemma allocate_from_plab_keeps_no_null (size : Z) (is_promotion : bool) :
  preserves no_null_forwardee (allocate_from_plab fl size is_promotion).
Proof.
  unfold allocate_from_plab, allocate_from_plab_slow, allocate_new_plab.
  repeat (first [ apply retire_plab_keeps_no_null
                | apply allocate_memory_keeps_no_null
                | preserves_step ]; try no_null_side).
Qed.

Lemma allocate_from_gclab_keeps_no_null (size : Z) :
  preserves no_null_forwardee (allocate_from_gclab size).
Proof.
  unfold allocate_from_gclab.
  preserves_step; [preserves_step |].
  destruct (gclab a) as [g |]; [| apply preserves_ret].
  destruct (Plab.allocate g size) as [obj g'].
  destruct (obj =? nullptr).
  - intros w r w' HP E. unfold allocate_from_gclab_slow in E.
    destruct (gclab_tape w); inversion E; subst; exact HP.
  - repeat (preserves_step; try no_null_side).
Qed.

Lemma allocate_copy_keeps_no_null (size : Z) (target_gen : ShenandoahAffiliation)
    (is_promotion : bool) :
  preserves no_null_forwardee (allocate_copy fl size target_gen is_promotion).
Proof.
  unfold allocate_copy. apply preserves_bind.
  - destruct (UseTLAB fl); [| apply preserves_ret].
    unfold try_evacuate_in_lab.
    repeat (first [ apply allocate_from_plab_keeps_no_null
                  | apply allocate_from_gclab_keeps_no_null
                  | preserves_step ]; try no_null_side).
  - intros [copy0 has_plab]. unfold try_evacuate_shared.
    repeat (first [apply allocate_memory_keeps_no_null | preserves_step];
            try no_null_side).
Qed.

Lemma resolve_forwarded_returns (p : Z) :
  p <> nullptr ->
  returns no_null_forwardee (resolve_forwarded p) (fun v => v <> nullptr).
Proof.
  intros Hp w v w' HP E. unfold resolve_forwarded, bind, object_at in E.
  destruct (mem w !! p) as [o |]; [| discriminate].
  destruct (obj_mark o) as [a | a | f]; try (inversion E; subst; split; assumption).
  destruct (Z.eqb_spec f nullptr); inversion E; subst; split; assumption.
Qed.

Lemma copy_object_keeps_no_null (p copy size : Z) (r : ShenandoahHeapRegion)
    (target_gen : ShenandoahAffiliation) :
  preserves no_null_forwardee (copy_object fl p copy size r target_gen).
Proof.
  unfold copy_object.
  preserves_step; [preserves_step; no_null_side |].
  intros w c w' HP E. unfold bind at 1 in E.
  destruct (object_at p w) as [[o w1] |] eqn:E1; [| discriminate].
  destruct (object_at_returns p w o w1 HP E1) as [HP1 Ho].
  revert E. apply preserves_bind; [| | exact HP1].
  - preserves_step. intros ? ?. apply no_null_store; assumption.
  - intros _. unfold increase_object_age.
    repeat (preserves_step; try no_null_side).
Qed.

Lemma try_update_forwardee_returns (p update : Z) :
  update <> nullptr ->
  returns no_null_forwardee (try_update_forwardee p update) (fun v => v <> nullptr).
Proof.
  intros Hu w v w' HP E. unfold try_update_forwardee, bind, object_at in E.
  destruct (mem w !! p) as [o |] eqn:Hp; [| discriminate].
  pose proof (HP p o Hp) as Ho.
  destruct (obj_mark o) as [a | a | f] eqn:Hm;
    try (inversion E; subst; split;
         [apply no_null_store; [cbn; congruence | exact HP] | exact Hu]).
  inversion E; subst. split; [exact HP | congruence].
Qed.

Lemma finish_evacuation_returns (copy size : Z) (r : ShenandoahHeapRegion)
    (target_gen : ShenandoahAffiliation) (is_promotion alloc_from_lab : bool)
    (result : Z) :
  copy <> nullptr -> result <> nullptr ->
  returns no_null_forwardee
    (finish_evacuation fl copy size r target_gen is_promotion alloc_from_lab result)
    (fun v => v <> nullptr).
Proof.
  intros Hc Hr. unfold finish_evacuation.
  destruct (result =? copy).
  - apply returns_seq.
    { unfold get_object_age. repeat (preserves_step; try no_null_side). }
    intros _. apply returns_seq.
    { unfold get_object_age. repeat (preserves_step; try no_null_side). }
    intros _. apply returns_ret. exact Hc.
  - apply returns_seq.
    { unfold undo_allocation. repeat (preserves_step; try no_null_side). }
    intros _. apply returns_ret. exact Hr.
Qed.

(** [try_evacuate_object] returns null for a failed promotion only. *)
Lemma try_evacuate_object_returns (p : Z) (r : ShenandoahHeapRegion)
    (target_gen : ShenandoahAffiliation) :
  p <> nullptr ->
  returns no_null_forwardee (try_evacuate_object fl p r target_gen)
    (fun v => v = nullptr -> target_gen = OLD_GENERATION /\ is_young r = true).
Proof.
  intros Hp. unfold try_evacuate_object.
  apply returns_seq; [apply preserves_object_at |]. intros o.
  apply returns_seq; [apply allocate_copy_keeps_no_null |]. intros [copy from_lab].
  destruct (Z.eqb_spec copy nullptr) as [_ | Hc].
  - unfold evacuation_failed.
    destruct (affiliation_eqb target_gen OLD_GENERATION && is_young r) eqn:Hpromo.
    + apply returns_seq; [preserves_step; no_null_side |]. intros _.
      apply returns_ret. intros _.
      apply andb_true_iff in Hpromo. destruct Hpromo as [Ht Hy].
      split; [destruct target_gen; try discriminate Ht; reflexivity | exact Hy].
    + apply returns_seq; [repeat (preserves_step; try no_null_side) |]. intros _.
      apply returns_seq; [preserves_step; no_null_side |]. intros _.
      apply returns_seq.
      { unfold oom_evac_handler. repeat (preserves_step; try no_null_side). }
      intros _.
      apply returns_weaken with (Q := fun v => v <> nullptr);
        [apply resolve_forwarded_returns; exact Hp | intros v Hv Hn; contradiction].
  - apply returns_bind with (Q := fun c => c = copy).
    { intros w c w' HP E. split; [exact (copy_object_keeps_no_null _ _ _ _ _ w c w' HP E) |].
      unfold copy_object in E. unfold bind in E.
      repeat match type of E with
             | match ?m ?w0 with _ => _ end = _ =>
                 destruct (m w0) as [[? ?] |]; [| discriminate]
             end.
      inversion E; reflexivity. }
    intros c ->.
    apply returns_bind with (Q := fun v => v <> nullptr);
      [apply try_update_forwardee_returns; exact Hc |].
    intros result Hres.
    apply returns_weaken with (Q := fun v => v <> nullptr);
      [apply finish_evacuation_returns; assumption | intros v Hv Hn; contradiction].
Qed.

Lemma evacuate_object_returns (p : Z) :
  p <> nullptr ->
  returns no_null_forwardee (evacuate_object fl p) (fun v => v <> nullptr).
Proof.
  intros Hp. unfold evacuate_object.
  apply returns_seq; [apply preserves_get_tld |]. intros t.
  destruct (oom_during_evac t); [apply resolve_forwarded_returns; exact Hp |].
  apply returns_seq; [apply preserves_heap_region_containing |]. intros r.
  apply returns_seq; [apply preserves_get_world |]. intros w0.
  assert (Hsame : returns no_null_forwardee (try_evacuate_object fl p r (r_affiliation r))
                    (fun v => v <> nullptr)).
  { apply returns_weaken
      with (Q := fun v => v = nullptr -> r_affiliation r = OLD_GENERATION /\ is_young r = true);
      [apply try_evacuate_object_returns; exact Hp |].
    intros v0 H Hn. destruct (H Hn) as [Ha Hy].
    unfold is_young in Hy. rewrite Ha in Hy. discriminate Hy. }
  destruct (active_generation_is_young w0 && affiliation_eqb (r_affiliation r) YOUNG_GENERATION);
    [| exact Hsame].
  apply returns_seq; [apply preserves_object_at |]. intros o.
  destruct (is_marked (obj_mark o)); [apply resolve_forwarded_returns; exact Hp |].
  destruct (has_displaced_mark_helper (obj_mark o)); [exact Hsame |].
  destruct (tenuring_threshold w0 <=? UInt.add (r_age r) (mark_age (obj_mark o)));
    [| exact Hsame].
  apply returns_bind with (Q := fun _ => True).
  { apply returns_weaken with (1 := try_evacuate_object_returns p r OLD_GENERATION Hp).
    intros; exact I. }
  intros result _.
  destruct (Z.eqb_spec result nullptr) as [_ | Hres]; cbn [negb].
  - exact Hsame.
  - apply returns_ret. exact Hres.
Qed.

End NeverNull.

(** X6. [evacuate_object] never returns null: in a heap where no object is
    forwarded to null, the evacuation of a non-null object returns a
    non-null object, and leaves such a heap.  A promotion that fails falls
    back to an evacuation within the young generation, and an evacuation
    that is no promotion returns the resolved object when it fails. *)
Theorem evacuate_object_never_null (fl : Flags) (p : Z) (w : World) (v : Z) (w' : World) :
  p <> nullptr ->
  no_null_forwardee w ->
  evacuate_object fl p w = Some (v, w') ->
  v <> nullptr /\ no_null_forwardee w'.
Proof.
  intros Hp HP E.
  destruct (evacuate_object_returns fl p Hp w v w' HP E) as [H1 H2]. split; assumption.
Qed.

(** X7. [try_evacuate_object] returns null only for a promotion that
    failed: the target is the old generation and the object lies in a
    young region. *)
Theorem try_evacuate_object_null_only_for_promotion (fl : Flags) (p : Z)
    (from_region : ShenandoahHeapRegion) (target_gen : ShenandoahAffiliation)
    (w w' : World) :
  p <> nullptr ->
  no_null_forwardee w ->
  try_evacuate_object fl p from_region target_gen w = Some (nullptr, w') ->
  target_gen = OLD_GENERATION /\ is_young from_region = true.
Proof.
  intros Hp HP E.
  exact (proj2 (try_evacuate_object_returns fl p from_region target_gen Hp w _ w' HP E)
           eq_refl).
Qed.

Lemma example_world_no_null_forwardee (t : ThreadLocalData) (tape : list AllocResponse) :
  no_null_forwardee (example_world t tape).
Proof.
  intros q o H. cbn in H. apply lookup_singleton_Some in H as [_ <-]. discriminate.
Qed.

Lemma evacuate_object_never_null_witness :
  exists v w',
    evacuate_object example_heap_flags 1048640 (example_world (worker 320) [])
      = Some (v, w') /\
    v <> nullptr /\ no_null_forwardee w'.
Proof.
  destruct (evacuate_object example_heap_flags 1048640 (example_world (worker 320) []))
    as [[v w'] |] eqn:E; [| vm_compute in E; discriminate E].
  exists v, w'. split; [reflexivity |].
  apply (evacuate_object_never_null example_heap_flags 1048640
           (example_world (worker 320) []) v w').
  - discriminate.
  - apply example_world_no_null_forwardee.
  - exact E.
Defined.

Lemma try_evacuate_object_null_only_for_promotion_witness :
  exists w',
    try_evacuate_object example_heap_flags 1048640 evacuated_region OLD_GENERATION
      (example_world (worker 320) []) = Some (nullptr, w') /\
    is_young evacuated_region = true.
Proof.
  eexists. split; [vm_compute; reflexivity |].
  refine (proj2 (try_evacuate_object_null_only_for_promotion example_heap_flags 1048640
                   evacuated_region OLD_GENERATION (example_world (worker 320) []) _ _ _ _)).
  - discriminate.
  - apply example_world_no_null_forwardee.
  - vm_compute. reflexivity.
Defined.

(** ** More on the promotion buffer *)

Ltac heap_unfold_in H :=
  unfold bind, ret, get_tld, modify_tld, get_world, modify_old_generation,
    modify_young_generation, emit, object_at, store_object, fill_with_object,
    the_plab, the_gclab, ShouldNotReachHere in H.

Lemma plab_retire_twice (b : PLAB) : Plab.retire (Plab.retire b) = Plab.retire b.
Proof.
  unfold Plab.retire. destruct (Z.ltb_spec (plab_top b) (plab_end b)) as [H | H]; cbn.
  - rewrite Z.ltb_irrefl. reflexivity.
  - destruct (Z.ltb_spec (plab_top b) (plab_end b)); [lia | reflexivity].
Qed.

Lemma plab_retire_full (b : PLAB) :
  (plab_top (Plab.retire b) <? plab_end (Plab.retire b)) = false.
Proof.
  unfold Plab.retire. destruct (Z.ltb_spec (plab_top b) (plab_end b)) as [H | H]; cbn.
  - apply Z.ltb_irrefl.
  - apply Z.ltb_ge. exact H.
Qed.

(** X8. Retiring a buffer that is retired already does nothing: no bytes
    are handed back a second time, no filler is written and nothing is
    registered. *)
Theorem retire_plab_twice (fl : Flags) (w w1 : World) :
  retire_plab fl w = Some (tt, w1) ->
  retire_plab fl w1 = Some (tt, w1).
Proof.
  intros E. unfold retire_plab in E. heap_unfold_in E. cbn in E.
  destruct (plab (tld w)) as [b |] eqn:Hb.
  2:{ destruct (0 <? sub (plab_actual_size (tld w)) (plab_promoted (tld w)));
        cbn in E; rewrite Hb in E; discriminate E. }
  assert (Hshape : exists tr m,
             w1 = {| tld := tld_set_plab (Some (Plab.retire b))
                              (tld_set_plab_actual_size 0
                                 (tld_set_plab_promoted 0 (tld w)));
                     mem := m; regions := regions w;
                     old_generation := old_generation w;
                     young_generation := young_generation w;
                     active_generation := active_generation w;
                     is_aging_cycle := is_aging_cycle w;
                     tenuring_threshold := tenuring_threshold w;
                     is_concurrent_old_mark_in_progress :=
                       is_concurrent_old_mark_in_progress w;
                     alloc_tape := alloc_tape w; gclab_tape := gclab_tape w;
                     transfer_tape := transfer_tape w; trace := tr |}).
  { destruct (0 <? sub (plab_actual_size (tld w)) (plab_promoted (tld w)));
      cbn in E; rewrite Hb in E; cbn in E;
      (destruct (Plab.top b <? plab_end b); heap_unfold_in E; cbn in E;
       match type of E with context [if ?c then _ else _] => destruct c end;
       cbn in E; inversion E; eexists _, _; reflexivity). }
  destruct Hshape as (tr & m & ->).
  unfold retire_plab. heap_unfold. cbn.
  change (sub 0 0) with 0. cbn.
  unfold Plab.top, Plab.waste. rewrite plab_retire_full. cbn.
  rewrite plab_retire_twice, Z.ltb_irrefl, andb_false_r. cbn. reflexivity.
Qed.

Lemma retire_plab_twice_witness :
  exists w1,
    retire_plab example_heap_flags (example_world (worker 320) []) = Some (tt, w1) /\
    retire_plab example_heap_flags w1 = Some (tt, w1).
Proof.
  destruct (retire_plab example_heap_flags (example_world (worker 320) []))
    as [[[] w1] |] eqn:E; [| vm_compute in E; discriminate E].
  exists w1. split; [reflexivity |].
  exact (retire_plab_twice _ _ _ E).
Defined.

(** X9. A buffer with at least [plab_min_size] words left is never given
    up: whatever the size asked for, [allocate_from_plab] keeps the buffer's
    bounds, asks the allocator for nothing, signals nothing and leaves the
    preferred size alone; the request is served from the buffer when it
    fits and fails otherwise. *)
Theorem allocate_from_plab_keeps_roomy_buffer (fl : Flags) (size : Z)
    (is_promotion : bool) (w : World) (b : PLAB) (obj : Z) (w' : World) :
  plab (tld w) = Some b ->
  plab_top b <> nullptr ->
  plab_min_size fl <= Plab.words_remaining b ->
  allocate_from_plab fl size is_promotion w = Some (obj, w') ->
  (exists b', plab (tld w') = Some b' /\
     plab_bottom b' = plab_bottom b /\ plab_end b' = plab_end b /\
     Plab.waste b' = Plab.waste b) /\
  plab_size (tld w') = plab_size (tld w) /\
  trace w' = trace w /\ alloc_tape w' = alloc_tape w /\ mem w' = mem w /\
  (obj <> nullptr -> obj = plab_top b /\ size <= Plab.words_remaining b).
Proof.
  intros Hb Htop Hroom E.
  unfold allocate_from_plab, bind at 1, get_tld at 1 in E. rewrite Hb in E.
  destruct (is_promotion && negb (allow_plab_promotions (tld w))).
  { inversion E; subst. split; [exists b; auto |]. repeat split; try reflexivity;
      contradiction. }
  unfold Plab.allocate in E.
  destruct (Z.leb_spec size (Plab.words_remaining b)) as [Hfit | Hbig].
  - heap_unfold_in E. cbn in E.
    destruct (Z.eqb_spec (plab_top b) nullptr) as [| _]; [contradiction |].
    cbn in E. 
    destruct (Z.eqb_spec (plab_top b) nullptr) as [| _]; [contradiction |].
    destruct is_promotion; cbn in E; inversion E; subst; cbn;
      (split; [eexists; split; [reflexivity |]; cbn; auto |]);
      repeat split; try reflexivity; assumption.
  - heap_unfold_in E. cbn in E.
    destruct (Z.ltb_spec (Plab.words_remaining b) (plab_min_size fl)) as [| _]; [lia |].
    cbn in E. inversion E; subst; cbn.
    split; [eexists; split; [reflexivity |]; auto |].
    repeat split; try reflexivity; contradiction.
Qed.

Lemma allocate_from_plab_keeps_roomy_buffer_witness :
  exists obj w',
    allocate_from_plab example_heap_flags 16 true
      (example_world old_evacuating_worker []) = Some (obj, w') /\
    trace w' = [] /\ (obj <> nullptr -> obj = 1180672 /\ 16 <= 640).
Proof.
  destruct (allocate_from_plab example_heap_flags 16 true
              (example_world old_evacuating_worker []))
    as [[obj w'] |] eqn:E; [| vm_compute in E; discriminate E].
  exists obj, w'. split; [reflexivity |].
  destruct (allocate_from_plab_keeps_roomy_buffer example_heap_flags 16 true
              (example_world old_evacuating_worker []) roomy_plab obj w'
              eq_refl ltac:(discriminate) ltac:(vm_compute; discriminate) E)
    as (_ & _ & Ht & _ & _ & Ho).
  split; [exact Ht | exact Ho].
Defined.

Lemma ensures_bind {A B : Type} (P : World -> Prop) (m : M A) (k : A -> M B)
    (Q : A -> World -> Prop) (R : B -> World -> Prop) :
  ensures P m Q -> (forall a, ensures (Q a) (k a) R) -> ensures P (bind m k) R.
Proof.
  intros Hm Hk w b w' HP E. unfold bind in E.
  destruct (m w) as [[a w1] |] eqn:E1; [| discriminate].
  exact (Hk a w1 b w' (Hm w a w1 HP E1) E).
Qed.

Lemma ensures_ret {A : Type} (P : World -> Prop) (a : A) (Q : A -> World -> Prop) :
  (forall w, P w -> Q a w) -> ensures P (ret a) Q.
Proof. intros H w a' w' HP E. inversion E; subst. apply H. exact HP. Qed.

Lemma ensures_weaken {A : Type} (P P' : World -> Prop) (m : M A)
    (Q : A -> World -> Prop) :
  ensures P' m Q -> (forall w, P w -> P' w) -> ensures P m Q.
Proof. intros H HP w a w' Hw E. exact (H w a w' (HP w Hw) E). Qed.

(** Whatever comes first, the rest decides. *)
Lemma ensures_then {A B : Type} (P : World -> Prop) (m : M A) (k : A -> M B)
    (R : B -> World -> Prop) :
  (forall a, ensures (fun _ => True) (k a) R) -> ensures P (bind m k) R.
Proof.
  intros Hk. apply ensures_bind with (Q := fun _ _ => True).
  - intros w a w' _ _. exact I.
  - exact Hk.
Qed.

Lemma ensures_preserved {A B : Type} (P : World -> Prop) (m : M A) (k : A -> M B)
    (R : B -> World -> Prop) :
  preserves P m -> (forall a, ensures P (k a) R) -> ensures P (bind m k) R.
Proof.
  intros Hm Hk. apply ensures_bind with (Q := fun _ => P).
  - exact Hm.
  - exact Hk.
Qed.

Section LastBlock.

Variable fl : Flags.

(** The tail of both allocation paths: a bump allocation in the thread's
    buffer, which is then stored back. *)
Lemma bump_allocation_is_last_block (b : PLAB) (size : Z) (P : World -> Prop) :
  plab_bottom b <= plab_top b ->
  ensures P
    (let '(obj, b3) := Plab.allocate b size in
     modify_tld (tld_set_plab (Some b3)) ;;; ret obj)
    (fun obj w => obj <> nullptr -> holds_last_block obj size w).
Proof.
  intros Hwf w obj w' _ E. unfold Plab.allocate in E.
  destruct (Z.leb_spec size (Plab.words_remaining b)) as [Hfit | Hbig];
    heap_unfold_in E; cbn in E; inversion E; subst; [| contradiction].
  intros _. eexists. split; [reflexivity |]. cbn.
  unfold Plab.words_remaining in Hfit. lia.
Qed.

Lemma allocate_from_plab_slow_last_block (size : Z) (is_promotion : bool)
    (P : World -> Prop) :
  0 <= size ->
  ensures P (allocate_from_plab_slow fl size is_promotion)
    (fun obj w => obj <> nullptr -> holds_last_block obj size w).
Proof.
  intros Hsize. unfold allocate_from_plab_slow.
  apply ensures_then. intros t.
  apply ensures_then. intros _.
  destruct (_ <? size); [apply ensures_ret; intros; contradiction |].
  apply ensures_then. intros b.
  destruct (_ <? _); [| apply ensures_ret; intros; contradiction].
  apply ensures_then. intros _.
  apply ensures_then. intros [plab_buf actual_size].
  destruct (plab_buf =? nullptr).
  { apply ensures_then. intros _. apply ensures_ret. intros; contradiction. }
  apply ensures_then. intros _.
  apply ensures_then. intros b1.
  apply ensures_bind
    with (Q := fun _ w => plab (tld w) = Some (Plab.set_buf b1 plab_buf actual_size)).
  { intros w a w' _ E. inversion E; subst. reflexivity. }
  intros _. apply ensures_preserved; [apply preserves_get_tld |]. intros t1.
  destruct (is_promotion && negb (allow_plab_promotions t1));
    [apply ensures_ret; intros; contradiction |].
  intros w obj w' Hw E. unfold bind at 1, the_plab at 1 in E. rewrite Hw in E.
  revert E. apply bump_allocation_is_last_block with (P := fun _ => True); [| exact I].
  cbn. lia.
Qed.

Lemma promoted_tail_keeps_last_block (o size : Z) (is_promotion : bool) :
  ensures (fun w => o <> nullptr -> holds_last_block o size w)
    (if o =? nullptr then ret nullptr
     else
       (if is_promotion
        then modify_tld (fun t' =>
               tld_set_plab_promoted (add (plab_promoted t') (mul size (HeapWordSize fl))) t')
        else ret tt) ;;;
       ret o)
    (fun obj w => obj <> nullptr -> holds_last_block obj size w).
Proof.
  intros w obj w' Hw E.
  destruct (Z.eqb_spec o nullptr) as [| Ho]; [inversion E; subst; contradiction |].
  specialize (Hw Ho). intros _.
  destruct is_promotion; heap_unfold_in E; cbn in E; inversion E; subst; exact Hw.
Qed.

Lemma allocate_from_plab_last_block (size : Z) (is_promotion : bool) (b : PLAB) :
  plab_bottom b <= plab_top b ->
  0 <= size ->
  ensures (fun w => plab (tld w) = Some b) (allocate_from_plab fl size is_promotion)
    (fun obj w => obj <> nullptr -> holds_last_block obj size w).
Proof.
  intros Hwf Hsize w obj w' Hb E.
  unfold allocate_from_plab, bind at 1, get_tld at 1 in E. rewrite Hb in E.
  destruct (is_promotion && negb (allow_plab_promotions (tld w)));
    [inversion E; subst; contradiction |].
  destruct (Plab.allocate b size) as [obj0 b'] eqn:Ha.
  unfold bind at 1, modify_tld at 1 in E.
  unfold bind at 1 in E.
  destruct ((obj0 =? nullptr) && (Plab.words_remaining b' <? plab_min_size fl)).
  - destruct (allocate_from_plab_slow fl size is_promotion _) as [[o w1] |] eqn:Es;
      [| discriminate E].
    revert E. apply promoted_tail_keeps_last_block.
    revert Es. apply allocate_from_plab_slow_last_block with (P := fun _ => True);
      [exact Hsize | exact I].
  - unfold ret at 1 in E. revert E. apply promoted_tail_keeps_last_block.
    intros Ho. unfold Plab.allocate in Ha.
    destruct (Z.leb_spec size (Plab.words_remaining b)) as [Hfit | Hbig];
      inversion Ha; subst; [| contradiction].
    eexists. split; [reflexivity |]. cbn. unfold Plab.words_remaining in Hfit. lia.
Qed.

End LastBlock.

(** X10. A block that [allocate_from_plab] hands out is the last block of
    the thread's buffer: it starts inside the buffer and ends at the
    buffer's allocation pointer, whether it came from the buffer at hand or
    from a buffer that the slow path has just installed.  This is what lets
    the loser of an evacuation race roll its allocation back. *)
Theorem allocate_from_plab_result_is_last_block (fl : Flags) (size : Z)
    (is_promotion : bool) (w : World) (b : PLAB) (obj : Z) (w' : World) :
  plab (tld w) = Some b ->
  plab_bottom b <= plab_top b ->
  0 < size ->
  allocate_from_plab fl size is_promotion w = Some (obj, w') ->
  obj <> nullptr ->
  holds_last_block obj size w' /\
  (forall b', plab (tld w') = Some b' ->
     Plab.contains b' obj = true /\ plab_top (Plab.undo_last_allocation b' obj) = obj).
Proof.
  intros Hb Hwf Hsize E Hobj.
  assert (H : holds_last_block obj size w').
  { exact (allocate_from_plab_last_block fl size is_promotion b Hwf ltac:(lia)
             w obj w' Hb E Hobj). }
  split; [exact H |].
  intros b' Hb'. destruct H as (b0 & Hb0 & H1 & H2 & H3).
  rewrite Hb' in Hb0. inversion Hb0; subst b0.
  split; [| reflexivity].
  unfold Plab.contains. apply andb_true_iff. split; [apply Z.leb_le | apply Z.ltb_lt]; lia.
Qed.

Lemma allocate_from_plab_result_is_last_block_witness :
  exists w',
    allocate_from_plab example_heap_flags 16 true
      (example_world (worker 320) [granted_plab]) = Some (1180032, w') /\
    holds_last_block 1180032 16 w'.
Proof.
  eexists. split; [vm_compute; reflexivity |].
  refine (proj1 (allocate_from_plab_result_is_last_block example_heap_flags 16 true
                   (example_world (worker 320) [granted_plab]) nearly_full_plab
                   1180032 _ eq_refl _ _ _ _)).
  - cbn. lia.
  - lia.
  - vm_compute. reflexivity.
  - discriminate.
Defined.

(** X11. On the fast path, losing the race costs the thread nothing: a
    promotion that is served from the buffer at hand, the request fitting
    in what is left of it, and that then finds the object already
    forwarded rolls the buffer back and takes the bytes off the promoted
    counter again, so that the thread-local data are exactly what they
    were before the allocation, while the heap and the event log stay as
    the copying left them. *)
Theorem lost_promotion_race_restores_thread (fl : Flags) (size : Z)
    (from_region : ShenandoahHeapRegion) (w : World) (b : PLAB) (result : Z) :
  plab (tld w) = Some b ->
  allow_plab_promotions (tld w) = true ->
  plab_top b <> nullptr ->
  plab_bottom b <= plab_top b ->
  0 < size <= Plab.words_remaining b ->
  in_range (plab_promoted (tld w)) ->
  result <> plab_top b ->
  exists w1,
    allocate_from_plab fl size true w = Some (plab_top b, w1) /\
    forall w2, tld w2 = tld w1 ->
      finish_evacuation fl (plab_top b) size from_region OLD_GENERATION true true result w2
        = Some (result, set_tld (tld w) w2).
Proof.
  intros Hb Hallow Htop Hwf [Hpos Hfit] Hrange Hres.
  unfold allocate_from_plab, bind at 1, get_tld at 1. rewrite Hb, Hallow. cbn [negb andb].
  unfold Plab.allocate. destruct (Z.leb_spec size (Plab.words_remaining b)) as [_ | ]; [| lia].
  heap_unfold. cbn.
  destruct (Z.eqb_spec (plab_top b) nullptr) as [| _]; [contradiction |]. cbn.
  destruct (Z.eqb_spec (plab_top b) nullptr) as [| _]; [contradiction |]. cbn.
  eexists. split; [reflexivity |].
  intros w2 Ht. destruct w2 as [t2 m2 rs og yg ag ac th cm at0 gt tt1 tr].
  cbn in Ht. subst t2.
  unfold finish_evacuation.
  destruct (Z.eqb_spec result (plab_top b)) as [| _]; [contradiction |].
  unfold undo_allocation, Plab.contains. heap_unfold. cbn.
  destruct (Z.leb_spec (plab_bottom b) (plab_top b)) as [_ |]; [| lia].
  destruct (Z.ltb_spec (plab_top b) (plab_end b)) as [_ | Hge];
    [| unfold Plab.words_remaining in Hfit; lia].
  cbn.
  assert (Hback : sub (add (plab_promoted (tld w)) (mul size (HeapWordSize fl)))
                    (mul size (HeapWordSize fl)) = plab_promoted (tld w)).
  { unfold sub, add, wrap. rewrite Zminus_mod_idemp_l.
    replace (plab_promoted (tld w) + mul size (HeapWordSize fl) - mul size (HeapWordSize fl))
      with (plab_promoted (tld w)) by lia.
    apply Z.mod_small. exact Hrange. }
  rewrite Hback. unfold Plab.undo_last_allocation. cbn.
  unfold set_tld. cbn. do 3 f_equal.
  destruct (tld w) as [o g gs pl ps pp pa al rt]. cbn in *.
  inversion Hb; subst. destruct b; reflexivity.
Qed.

Lemma lost_promotion_race_restores_thread_witness :
  exists w1,
    allocate_from_plab example_heap_flags 16 true
      (example_world old_evacuating_worker []) = Some (1180672, w1) /\
    finish_evacuation example_heap_flags 1180672 16 evacuated_region OLD_GENERATION
      true true 1179900 w1
    = Some (1179900, set_tld old_evacuating_worker w1).
Proof.
  destruct (lost_promotion_race_restores_thread example_heap_flags 16 evacuated_region
              (example_world old_evacuating_worker []) roomy_plab 1179900)
    as (w1 & E & H).
  - reflexivity.
  - reflexivity.
  - discriminate.
  - cbn. lia.
  - vm_compute. split; [reflexivity | discriminate].
  - vm_compute. split; [discriminate | reflexivity].
  - discriminate.
  - exists w1. split; [exact E | exact (H w1 eq_refl)].
Defined.

(** ** More on the generation balancer *)

Lemma add_range a b : in_range (add a b).
Proof. apply wrap_range. Qed.

Lemma sub_range a b : in_range (sub a b).
Proof. apply wrap_range. Qed.

Lemma mul_range a b : in_range (mul a b).
Proof. apply wrap_range. Qed.

Lemma sub_exact a b : in_range a -> 0 <= b <= a -> sub a b = a - b.
Proof. intros Ha Hb. unfold sub. apply wrap_small. unfold in_range in *. lia. Qed.

Lemma div_nonneg a b : 0 <= a -> 0 <= b -> 0 <= a / b.
Proof.
  intros Ha Hb. destruct (Z.eq_dec b 0) as [-> | Hne].
  - rewrite Z.div_0_r. lia.
  - apply Z.div_pos; lia.
Qed.

Lemma max_old_reserve_range (fl : Flags) (old_avail old_xfer_limit young_reserve : Z) :
  in_range (max_old_reserve fl old_avail old_xfer_limit young_reserve).
Proof.
  unfold max_old_reserve. cbv zeta.
  destruct (ShenandoahOldEvacRatioPercent fl =? 100); [apply add_range |].
  match goal with |- in_range (MIN2 ?a ?b) =>
    pose proof (MIN2_le_r a b) as Hr; pose proof (add_range (add old_avail old_xfer_limit) young_reserve) as Hb;
    assert (Ha : 0 <= a)
      by (apply div_nonneg; [apply mul_range | apply sub_range]);
    rewrite MIN2_eq_min in *
  end.
  unfold in_range in *. lia.
Qed.

Lemma reserve_for_mixed_bounds (fl : Flags) (old : ShenandoahOldGeneration) (max_reserve : Z) :
  in_range max_reserve ->
  0 <= reserve_for_mixed fl old max_reserve <= max_reserve.
Proof.
  intros Hm. unfold reserve_for_mixed. cbv zeta.
  destruct (old_has_unprocessed_collection_candidates old); [| unfold in_range in Hm; lia].
  match goal with |- context [add ?a ?b] => pose proof (add_range a b) as Hr end.
  destruct (Z.ltb_spec max_reserve
              (add (wrap (times_ShenandoahOldEvacWaste fl
                            (old_unprocessed_collection_candidates_live_memory old)))
                   (sub (old_available old)
                        (mul (old_free_unaffiliated_regions old) (region_size_bytes fl)))));
    unfold in_range in *; lia.
Qed.

Lemma reserve_for_promo_bounds (fl : Flags) (old : ShenandoahOldGeneration)
    (max_reserve mixed : Z) :
  in_range max_reserve -> 0 <= mixed <= max_reserve ->
  0 <= reserve_for_promo fl old max_reserve mixed <= max_reserve - mixed.
Proof.
  intros Hm Hx. unfold reserve_for_promo. cbv zeta.
  destruct (0 <? old_promotion_potential old); [| lia].
  rewrite (sub_exact max_reserve mixed Hm Hx), MIN2_eq_min.
  pose proof (wrap_range (times_ShenandoahPromoEvacWaste fl (old_promotion_potential old))) as Hw.
  unfold in_range in Hw. lia.
Qed.

(** X12. The two sanity checks of [compute_old_generation_balance] cannot
    fail: the reserve for mixed evacuations never exceeds the bound on the
    old reserve, and neither does the old reserve, the sum of the reserves
    for mixed evacuations and for promotions, which does not wrap
    around. *)
Theorem old_reserve_within_bound (fl : Flags) (young : ShenandoahYoungGeneration)
    (old : ShenandoahOldGeneration) (old_xfer_limit : Z) :
  let max_reserve := max_old_reserve_of fl young old old_xfer_limit in
  let mixed := reserve_for_mixed fl old max_reserve in
  let promo := reserve_for_promo fl old max_reserve mixed in
  mixed <= max_reserve /\
  old_reserve_of fl young old old_xfer_limit = mixed + promo /\
  old_reserve_of fl young old old_xfer_limit <= max_reserve.
Proof.
  intros max_reserve mixed promo.
  assert (Hm : in_range max_reserve) by apply max_old_reserve_range.
  pose proof (reserve_for_mixed_bounds fl old max_reserve Hm) as Hx. fold mixed in Hx.
  pose proof (reserve_for_promo_bounds fl old max_reserve mixed Hm Hx) as Hp. fold promo in Hp.
  assert (E : old_reserve_of fl young old old_xfer_limit = mixed + promo).
  { unfold old_reserve_of. cbv zeta. fold max_reserve. fold mixed. fold promo.
    unfold add. apply wrap_small. unfold in_range in *. lia. }
  split; [lia |]. split; [exact E | lia].
Qed.

(** X13. The balance never eats into the old reserve, and a deficit is
    rounded up to whole regions: when the old generation runs a surplus,
    what it keeps after giving the balance away still holds the reserve;
    when it runs a deficit that the transfer limit does not cap, the
    regions asked for cover the shortfall, by less than one region too
    much. *)
Theorem balance_respects_reserve (fl : Flags) (young : ShenandoahYoungGeneration)
    (old : ShenandoahOldGeneration) (old_xfer_limit old_cset_regions : Z) :
  2 <= region_size_bytes fl ->
  in_range old_xfer_limit ->
  let rsb := region_size_bytes fl in
  let reserve := old_reserve_of fl young old old_xfer_limit in
  let available := max_old_available_of fl old old_cset_regions in
  let b := old_region_balance
             (compute_old_generation_balance fl young old old_xfer_limit old_cset_regions) in
  (reserve <= available -> 0 <= b /\ reserve + b * rsb <= available) /\
  (available < reserve ->
   b <= 0 /\
   (reserve + rsb < SizeT.modulus -> - b < old_xfer_limit / rsb ->
    reserve <= available + (- b) * rsb < reserve + rsb)).
Proof.
  intros Hrsb Hxfer rsb reserve available b.
  assert (Hres : in_range reserve) by apply add_range.
  assert (Hav : in_range available) by apply add_range.
  subst b. unfold compute_old_generation_balance. cbv zeta.
  change (add (reserve_for_mixed fl old _) _) with reserve.
  change (add (old_available old) (mul old_cset_regions (region_size_bytes fl)))
    with available.
  fold rsb.
  destruct (Z.leb_spec reserve available) as [Hle | Hgt];
    cbn [old_region_balance set_region_balance].
  - split; [| intros; lia]. intros _.
    rewrite (sub_exact available reserve Hav (conj (proj1 Hres) Hle)).
    match goal with |- context [MIN2 ?a ?c] =>
      pose proof (MIN2_le_l a c) as Hl;
      assert (Hs : 0 <= a < half_modulus)
        by (apply region_count_fits; [unfold in_range in *; lia | exact Hrsb]);
      assert (H0 : 0 <= MIN2 a c)
        by (rewrite MIN2_eq_min; apply Z.min_glb; [lia | apply add_range]);
      remember (MIN2 a c) as s eqn:Hs'
    end.
    rewrite to_ssize_t_small by lia. split; [lia |].
    assert (Hd : (available - reserve) / rsb * rsb <= available - reserve).
    { rewrite Z.mul_comm. apply Z.mul_div_le. lia. }
    nia.
  - split; [intros; lia |]. intros _.
    rewrite (sub_exact reserve available Hres) by (unfold in_range in Hav; lia).
    match goal with |- context [MIN2 ?a ?c] =>
      assert (Hs : 0 <= c < half_modulus)
        by (apply region_count_fits; [exact Hxfer | exact Hrsb]);
      assert (Ha : 0 <= a)
        by (apply div_nonneg; [apply sub_range | lia]);
      pose proof (MIN2_le_r a c) as Hr;
      assert (H0 : 0 <= MIN2 a c) by (rewrite MIN2_eq_min; lia);
      assert (Hpick : MIN2 a c < c -> MIN2 a c = a)
        by (unfold MIN2; destruct (Z.ltb_spec a c); lia);
      remember (MIN2 a c) as d eqn:Hd; remember a as need eqn:Hneed
    end.
    assert (Hb : ssub 0 (to_ssize_t d) = - d).
    { rewrite (to_ssize_t_small d) by lia. unfold ssub. replace (0 - d) with (- d) by lia.
      destruct (Z.eq_dec d 0) as [-> | Hne]; [reflexivity |].
      apply to_ssize_t_neg. lia. }
    rewrite Hb. split; [lia |].
    intros Hroom Hcap. replace (- - d) with d in * by lia.
    specialize (Hpick Hcap). rewrite Hpick, Hneed.
    assert (E1 : add (reserve - available) rsb = reserve - available + rsb).
    { unfold add. apply wrap_small. unfold in_range in *. lia. }
    rewrite E1.
    assert (E2 : sub (reserve - available + rsb) 1 = reserve - available + rsb - 1).
    { unfold sub. apply wrap_small. unfold in_range in *. lia. }
    rewrite E2.
    pose proof (Z.mul_div_le (reserve - available + rsb - 1) rsb ltac:(lia)) as Hlow.
    pose proof (Z.mul_succ_div_gt (reserve - available + rsb - 1) rsb ltac:(lia)) as Hup.
    nia.
Qed.

Lemma balance_respects_reserve_witness :
  let rsb := region_size_bytes example_heap_flags in
  let reserve := old_reserve_of example_heap_flags large_young_generation
                   starved_old_generation (10 * 1048576) in
  let available := max_old_available_of example_heap_flags starved_old_generation 0 in
  let b := old_region_balance
             (compute_old_generation_balance example_heap_flags large_young_generation
                starved_old_generation (10 * 1048576) 0) in
  (reserve <= available -> 0 <= b /\ reserve + b * rsb <= available) /\
  (available < reserve ->
   b <= 0 /\
   (reserve + rsb < SizeT.modulus -> - b < (10 * 1048576) / rsb ->
    reserve <= available + (- b) * rsb < reserve + rsb)).
Proof.
  apply (balance_respects_reserve example_heap_flags large_young_generation
           starved_old_generation (10 * 1048576) 0).
  - vm_compute. discriminate.
  - unfold in_range. rewrite modulus_eq. lia.
Defined.

(** X14. A balance is consumed once: [balance_generations] clears the
    stored balance before it asks for the transfer, so a second call
    transfers nothing, signals nothing and reports success with no
    regions. *)
Theorem balance_generations_consumed_once (w : World) (result : TransferResult)
    (w1 : World) :
  balance_generations w = Some (result, w1) ->
  balance_generations w1
    = Some ({| success := true; region_count := 0; region_destination := to_none |}, w1).
Proof.
  intros E.
  assert (Hb : old_region_balance (old_generation w1) = 0).
  { destruct (balance_generations_frame w) as (r & w' & E' & _ & H0 & _).
    rewrite E in E'. inversion E'; subst. exact H0. }
  unfold balance_generations. heap_unfold. cbn. rewrite Hb. cbn.
  do 2 f_equal.
  destruct w1 as [t m rs og yg ag ac th cm at0 gt tt1 tr]. cbn in *.
  unfold set_old_generation. cbn. f_equal.
  destruct og; cbn in *. subst. reflexivity.
Qed.

Lemma balance_generations_consumed_once_witness :
  exists result w1,
    balance_generations
      (set_old_generation (set_region_balance (-5) starved_old_generation)
         (example_world (worker 320) [])) = Some (result, w1) /\
    region_count result = 5 /\
    balance_generations w1
      = Some ({| success := true; region_count := 0; region_destination := to_none |}, w1).
Proof.
  destruct (balance_generations
              (set_old_generation (set_region_balance (-5) starved_old_generation)
                 (example_world (worker 320) [])))
    as [[result w1] |] eqn:E; [| vm_compute in E; discriminate E].
  exists result, w1. split; [reflexivity |]. split.
  - vm_compute in E. inversion E. reflexivity.
  - exact (balance_generations_consumed_once _ _ _ E).
Defined.

(** What [balance_generations] asks for, by the sign of the balance. *)
Lemma balance_generations_request (w : World) (result : TransferResult) (w1 : World) :
  balance_generations w = Some (result, w1) ->
  let b := old_region_balance (old_generation w) in
  (0 < b -> region_destination result = to_young /\ region_count result = wrap b /\
            trace w1 = transfer_to_young (wrap b) :: trace w) /\
  (b < 0 -> region_destination result = to_old /\ region_count result = wrap (- b) /\
            trace w1 = (if success result then [] else [handle_failed_transfer])
                       ++ transfer_to_old (wrap (- b)) :: trace w) /\
  (b = 0 -> region_destination result = to_none /\ region_count result = 0 /\
            success result = true /\ trace w1 = trace w).
Proof.
  intros E b. subst b.
  unfold balance_generations, generation_sizer_transfer in E. heap_unfold_in E. cbn in E.
  destruct (Z.ltb_spec 0 (old_region_balance (old_generation w))) as [Hpos | Hnp]; cbn in E.
  - destruct (transfer_tape w); cbn in E; inversion E; subst; cbn;
      (split; [auto | split; intros; lia]).
  - destruct (Z.ltb_spec (old_region_balance (old_generation w)) 0) as [Hneg | Hnn]; cbn in E.
    + destruct (transfer_tape w) as [| [|] rest]; cbn in E; inversion E; subst; cbn;
        (split; [intros; lia | split; [auto | intros; lia]]).
    + inversion E; subst; cbn. split; [intros; lia | split; [intros; lia | auto]].
Qed.

Lemma to_ssize_t_range x : - half_modulus <= to_ssize_t x < half_modulus.
Proof.
  unfold to_ssize_t. cbv zeta. pose proof (wrap_range x) as H. unfold in_range in H.
  pose proof modulus_eq as Hm. pose proof half_modulus_eq as Hh.
  destruct (Z.ltb_spec (wrap x) half_modulus) as [Hlt | Hge]; lia.
Qed.

Lemma compute_old_generation_balance_range (fl : Flags) (young : ShenandoahYoungGeneration)
    (old : ShenandoahOldGeneration) (old_xfer_limit old_cset_regions : Z) :
  - half_modulus
  <= old_region_balance
       (compute_old_generation_balance fl young old old_xfer_limit old_cset_regions)
  < half_modulus.
Proof.
  unfold compute_old_generation_balance. cbv zeta.
  match goal with |- context [if ?c then _ else _] => destruct c end;
    cbn [old_region_balance set_region_balance]; apply to_ssize_t_range.
Qed.

(** X15. What the balancer computes is what the transfer asks for, within
    the balancer's bounds: once [compute_old_generation_balance] has stored
    its balance, [balance_generations] asks the sizer for at most
    [old_xfer_limit / region_size_bytes] regions when the regions go to
    old, and for at most the unaffiliated old regions plus those of the
    collection set when they go to young; a failed transfer is signalled
    for a transfer to old only. *)
Theorem balance_generations_after_compute (fl : Flags) (w : World)
    (old : ShenandoahOldGeneration) (old_xfer_limit old_cset_regions : Z)
    (result : TransferResult) (w1 : World) :
  2 <= region_size_bytes fl ->
  in_range old_xfer_limit ->
  in_range old_cset_regions ->
  in_range (old_free_unaffiliated_regions old) ->
  old_generation w
    = compute_old_generation_balance fl (young_generation w) old
        old_xfer_limit old_cset_regions ->
  balance_generations w = Some (result, w1) ->
  match region_destination result with
  | to_old =>
      0 < region_count result <= old_xfer_limit / region_size_bytes fl /\
      trace w1 = (if success result then [] else [handle_failed_transfer])
                 ++ transfer_to_old (region_count result) :: trace w
  | to_young =>
      0 < region_count result <= old_free_unaffiliated_regions old + old_cset_regions /\
      trace w1 = transfer_to_young (region_count result) :: trace w
  | to_none => region_count result = 0 /\ trace w1 = trace w
  end.
Proof.
  intros Hrsb Hx Hc Hu Hold E.
  pose proof (balance_cases fl (young_generation w) old old_xfer_limit old_cset_regions
                Hrsb Hx Hc Hu) as Hcases.
  pose proof (compute_old_generation_balance_range fl (young_generation w) old
                old_xfer_limit old_cset_regions) as Hrange.
  rewrite <- Hold in Hcases, Hrange.
  pose proof (region_count_fits old_xfer_limit (region_size_bytes fl) Hx Hrsb) as Hfit.
  destruct (balance_generations_request w result w1 E) as (Hpos & Hneg & Hzero).
  set (b := old_region_balance (old_generation w)) in *.
  assert (Hmod : SizeT.modulus = 18446744073709551616) by reflexivity.
  assert (Hhalf : half_modulus = 9223372036854775808) by reflexivity.
  destruct (Z.lt_trichotomy b 0) as [Hb | [Hb | Hb]].
  - destruct (Hneg Hb) as (Hd & Hcnt & Ht). rewrite Hd.
    assert (Hw : wrap (- b) = - b) by (apply wrap_small; unfold in_range; lia).
    rewrite Hcnt, Hw in *. split; [lia | exact Ht].
  - destruct (Hzero Hb) as (Hd & Hcnt & _ & Ht). rewrite Hd. split; assumption.
  - destruct (Hpos Hb) as (Hd & Hcnt & Ht). rewrite Hd.
    assert (Hw : wrap b = b).
    { apply wrap_small. unfold in_range in *. lia. }
    rewrite Hcnt, Hw in *. split; [lia | exact Ht].
Qed.

Lemma balance_generations_after_compute_witness :
  exists result w1,
    balance_generations
      (set_old_generation
         (compute_old_generation_balance example_heap_flags large_young_generation
            starved_old_generation (10 * 1048576) 0)
         (example_world (worker 320) [])) = Some (result, w1) /\
    region_destination result = to_old /\
    0 < region_count result <= (10 * 1048576) / region_size_bytes example_heap_flags.
Proof.
  destruct (balance_generations
              (set_old_generation
                 (compute_old_generation_balance example_heap_flags large_young_generation
                    starved_old_generation (10 * 1048576) 0)
                 (example_world (worker 320) [])))
    as [[result w1] |] eqn:E; [| vm_compute in E; discriminate E].
  exists result, w1. split; [reflexivity |].
  assert (Hd : region_destination result = to_old).
  { pose proof E as E'. vm_compute in E'. inversion E'. reflexivity. }
  split; [exact Hd |].
  pose proof (balance_generations_after_compute example_heap_flags
                (set_old_generation
                   (compute_old_generation_balance example_heap_flags large_young_generation
                      starved_old_generation (10 * 1048576) 0)
                   (example_world (worker 320) []))
                starved_old_generation
                (10 * 1048576) 0 result w1
                ltac:(vm_compute; discriminate)
                ltac:(unfold in_range; rewrite modulus_eq; lia)
                ltac:(unfold in_range; rewrite modulus_eq; lia)
                ltac:(unfold in_range; rewrite modulus_eq; cbn; lia)
                eq_refl E) as H.
  rewrite Hd in H. exact (proj1 H).
Defined.

(** X16. Both completion routines leave the generations settled: the
    stored region balance is consumed and the evacuation and promotion
    reserves of both generations are zero, whether or not the transfer
    succeeded and whether or not the old regions had to be coalesced. *)
Theorem completion_settles_generations (w : World) :
  (forall w', complete_degenerated_cycle w = Some (tt, w') ->
     old_region_balance (old_generation w') = 0 /\
     old_evacuation_reserve (old_generation w') = 0 /\
     old_promoted_reserve (old_generation w') = 0 /\
     young_evacuation_reserve (young_generation w') = 0) /\
  (forall w', complete_concurrent_cycle w = Some (tt, w') ->
     old_region_balance (old_generation w') = 0 /\
     old_evacuation_reserve (old_generation w') = 0 /\
     old_promoted_reserve (old_generation w') = 0 /\
     young_evacuation_reserve (young_generation w') = 0).
Proof.
  assert (Hreset : forall w2 w3, old_region_balance (old_generation w2) = 0 ->
            reset_generation_reserves w2 = Some (tt, w3) ->
            old_region_balance (old_generation w3) = 0 /\
            old_evacuation_reserve (old_generation w3) = 0 /\
            old_promoted_reserve (old_generation w3) = 0 /\
            young_evacuation_reserve (young_generation w3) = 0).
  { intros w2 w3 Hb E. unfold reset_generation_reserves in E. heap_unfold_in E.
    cbn in E. inversion E; subst; cbn. auto. }
  assert (Hcoalesce : forall c w3 w4,
            coalesce_and_fill_old_regions c w3 = Some (tt, w4) ->
            old_region_balance (old_generation w4) = old_region_balance (old_generation w3) /\
            old_evacuation_reserve (old_generation w4)
              = old_evacuation_reserve (old_generation w3) /\
            old_promoted_reserve (old_generation w4)
              = old_promoted_reserve (old_generation w3) /\
            young_evacuation_reserve (young_generation w4)
              = young_evacuation_reserve (young_generation w3)).
  { intros c w3 w4 E. unfold coalesce_and_fill_old_regions in E. heap_unfold_in E.
    cbn in E. inversion E; subst; cbn. auto. }
  split; intros w' E.
  - unfold complete_degenerated_cycle in E.
    unfold bind at 1, get_world at 1 in E. unfold bind at 1 in E.
    destruct ((if is_concurrent_old_mark_in_progress w
               then emit transfer_pointers_from_satb else ret ()) w)
      as [[[] w1] |]; [| discriminate E].
    destruct (balance_generations_frame w1) as (res & w2 & E2 & _ & B2 & _).
    unfold bind at 1 in E. rewrite E2 in E.
    unfold bind at 1 in E.
    destruct (reset_generation_reserves w2) as [[[] w3] |] eqn:E3; [| discriminate E].
    destruct (Hreset w2 w3 B2 E3) as (R1 & R2 & R3 & R4).
    unfold bind at 1, get_world at 1 in E.
    destruct (negb (old_parseable (old_generation w3))).
    + destruct (Hcoalesce false w3 w' E) as (C1 & C2 & C3 & C4).
      repeat split; congruence.
    + inversion E; subst. auto.
  - unfold complete_concurrent_cycle in E.
    unfold bind at 1, get_world at 1 in E. unfold bind at 1 in E.
    destruct ((if negb (old_parseable (old_generation w))
               then entry_global_coalesce_and_fill else ret ()) w)
      as [[[] w1] |]; [| discriminate E].
    destruct (balance_generations_frame w1) as (res & w2 & E2 & _ & B2 & _).
    unfold bind at 1 in E. rewrite E2 in E.
    exact (Hreset w2 w' B2 E).
Qed.

Lemma completion_settles_generations_witness :
  exists w',
    complete_degenerated_cycle
      (set_old_generation (set_region_balance (-5) starved_old_generation)
         (example_world (worker 320) [])) = Some (tt, w') /\
    old_region_balance (old_generation w') = 0.
Proof.
  destruct (complete_degenerated_cycle
              (set_old_generation (set_region_balance (-5) starved_old_generation)
                 (example_world (worker 320) [])))
    as [[[] w'] |] eqn:E; [| vm_compute in E; discriminate E].
  exists w'. split; [reflexivity |].
  exact (proj1 (proj1 (completion_settles_generations _) w' E)).
Defined.

(** ** Region ages *)

Section RegionAgesFacts.

Variables reset_age increment_age : ShenandoahHeapRegion -> ShenandoahHeapRegion.
Variables top_of top_at_mark_start : nat -> Z.

Lemma update_region_ages_from_spec (aging : bool) (steps i : nat)
    (rs : list ShenandoahHeapRegion) :
  length rs = (i + steps)%nat ->
  let rs' := update_region_ages_from reset_age increment_age top_of top_at_mark_start
               aging steps i rs in
  length rs' = length rs /\
  forall j r, rs !! j = Some r ->
    rs' !! j = Some (if (i <=? j)%nat
                     then update_region_age reset_age increment_age top_of
                            top_at_mark_start aging j r
                     else r).
Proof.
  revert i rs. induction steps as [| steps IH]; intros i rs Hlen; cbn.
  - split; [reflexivity |]. intros j r Hj.
    assert (j < length rs)%nat by (apply lookup_lt_is_Some; eauto).
    destruct (Nat.leb_spec i j); [lia | exact Hj].
  - destruct (rs !! i) as [ri |] eqn:Hi.
    2:{ apply lookup_ge_None in Hi. lia. }
    specialize (IH (S i) (<[i := update_region_age reset_age increment_age top_of
                                   top_at_mark_start aging i ri]> rs)).
    rewrite length_insert in IH. specialize (IH ltac:(lia)). cbv zeta in IH.
    destruct IH as [IHlen IHget]. split; [exact IHlen |].
    intros j r Hj. destruct (Nat.eq_dec i j) as [-> | Hne].
    + rewrite Hi in Hj. inversion Hj; subst ri.
      rewrite (IHget j (update_region_age reset_age increment_age top_of
                          top_at_mark_start aging j r)).
      * destruct (Nat.leb_spec (S j) j); [lia |].
        destruct (Nat.leb_spec j j); [reflexivity | lia].
      * apply list_lookup_insert_eq. apply lookup_lt_is_Some. eauto.
    + rewrite (IHget j r) by (rewrite list_lookup_insert_ne by exact Hne; exact Hj).
      destruct (Nat.leb_spec (S i) j), (Nat.leb_spec i j); try reflexivity; lia.
Qed.

End RegionAgesFacts.

(** X18. [update_region_ages] visits every region once and decides each by
    itself: the heap keeps its number of regions, region [i] becomes what
    the loop body makes of it, and a region that is not both active and
    young is left as it is; outside an aging cycle no age is incremented,
    a region being either reset (it saw allocations after the start of
    marking) or untouched. *)
Theorem update_region_ages_pointwise
    (reset_age increment_age : ShenandoahHeapRegion -> ShenandoahHeapRegion)
    (top_of top_at_mark_start : nat -> Z) (w : World) :
  exists w',
    update_region_ages reset_age increment_age top_of top_at_mark_start w = Some (tt, w') /\
    length (regions w') = length (regions w) /\
    (forall i r, regions w !! i = Some r ->
       regions w' !! i
         = Some (update_region_age reset_age increment_age top_of top_at_mark_start
                   (is_aging_cycle w) i r) /\
       (r_is_active r && is_young r = false -> regions w' !! i = Some r) /\
       (is_aging_cycle w = false ->
        regions w' !! i = Some r \/ regions w' !! i = Some (reset_age r))).
Proof.
  eexists. split; [reflexivity |]. cbn.
  destruct (update_region_ages_from_spec reset_age increment_age top_of top_at_mark_start
              (is_aging_cycle w) (length (regions w)) 0 (regions w) eq_refl)
    as [Hlen Hget].
  split; [exact Hlen |].
  intros i r Hi. specialize (Hget i r Hi). cbn in Hget.
  split; [exact Hget |]. split.
  - intros Hskip. rewrite Hget. unfold update_region_age. rewrite Hskip. reflexivity.
  - intros Hna. rewrite Hget, Hna. unfold update_region_age.
    destruct (r_is_active r && is_young r); [| left; reflexivity].
    destruct (top_at_mark_start i <? top_of i); [right | left]; reflexivity.
Qed.

Lemma update_region_ages_pointwise_witness :
  exists w',
    update_region_ages (region_with_age 0) (fun r => region_with_age (r_age r + 1) r)
      (fun _ => 0) (fun _ => 0) (example_world (worker 320) []) = Some (tt, w') /\
    regions w' !! 1%nat = example_regions !! 1%nat.
Proof.
  destruct (update_region_ages_pointwise (region_with_age 0)
              (fun r => region_with_age (r_age r + 1) r) (fun _ => 0) (fun _ => 0)
              (example_world (worker 320) [])) as (w' & E & _ & H).
  exists w'. split; [exact E |].
  exact (proj1 (proj2 (H 1%nat _ eq_refl)) eq_refl).
Defined.

(** ** The reference updater *)


Section UpdaterFacts.

Variable fl : Flags.
Variable env : UpdateRefsEnv.

(** *** Which calls are made *)







End UpdaterFacts.



(** *** What is claimed from the iterators *)

Section UpdaterIterators.

Variable fl : Flags.
Variable env : UpdateRefsEnv.

Lemma update_regions_claims (rs : list RegionView) (tape : list bool)
    (tr : list UpdateEvent) :
  let '(cancelled, rs', tape', _) := update_regions fl env rs tape tr in
  (exists claimed, rs = claimed ++ rs') /\
  (cancelled = false -> rs' = []) /\
  (Forall (fun c => c = false) tape -> cancelled = false /\ Forall (fun c => c = false) tape') /\
  (forall r rest tape0, rs = r :: rest -> tape = true :: tape0 ->
     cancelled = true /\ rs' = rest /\ tape' = tape0).
Proof.
  revert tape tr. induction rs as [| r rest IH]; intros tape tr; cbn.
  - split; [exists []; reflexivity |]. split; [reflexivity |]. split; [auto |].
    intros ? ? ? H. discriminate H.
  - destruct tape as [| [|] tape1]; cbn.
    + specialize (IH [] (update_region fl env r tr)).
      destruct (update_regions fl env rest [] (update_region fl env r tr))
        as [[[c rs'] tape'] tr'].
      destruct IH as ((claimed & Hc) & Hd & Hn & _).
      split; [exists (r :: claimed); rewrite Hc; reflexivity |].
      split; [exact Hd |]. split; [intros _; apply Hn; constructor |].
      intros ? ? ? _ H. discriminate H.
    + split; [exists [r]; reflexivity |]. split; [discriminate |].
      split; [intros H; inversion H; discriminate |].
      intros r0 rest0 tape0 H1 H2. inversion H1; inversion H2; subst. auto.
    + specialize (IH tape1 (update_region fl env r tr)).
      destruct (update_regions fl env rest tape1 (update_region fl env r tr))
        as [[[c rs'] tape'] tr'].
      destruct IH as ((claimed & Hc) & Hd & Hn & _).
      split; [exists (r :: claimed); rewrite Hc; reflexivity |].
      split; [exact Hd |]. split; [intros H; apply Hn; inversion H; assumption |].
      intros ? ? ? _ H. discriminate H.
Qed.

Lemma update_chunks_claims (fuel : nat) (chunks : list ShenandoahRegionChunk)
    (tape : list bool) (tr : list UpdateEvent)
    (chunks' : list ShenandoahRegionChunk) (tape' : list bool) (tr' : list UpdateEvent) :
  update_chunks fl env fuel chunks tape tr = Some (chunks', tape', tr') ->
  (exists done, chunks = done ++ chunks') /\
  (Forall (fun c => c = false) tape -> chunks' = []).
Proof.
  revert tape tr. induction chunks as [| a rest IH]; intros tape tr E; cbn in E.
  - destruct (check_cancelled_gc_and_yield tape) as [[|] tape1];
      inversion E; subst; (split; [exists []; reflexivity | reflexivity]).
  - destruct tape as [| [|] tape1]; cbn in E.
    + destruct (update_chunk fl env fuel a tr) as [tr1 |]; [| discriminate E].
      destruct (IH _ _ E) as ((done & Hd) & Hn).
      split; [exists (a :: done); rewrite Hd; reflexivity |].
      intros _. apply Hn. constructor.
    + inversion E; subst. split; [exists []; reflexivity |].
      intros H. inversion H; discriminate.
    + destruct (update_chunk fl env fuel a tr) as [tr1 |]; [| discriminate E].
      destruct (IH _ _ E) as ((done & Hd) & Hn).
      split; [exists (a :: done); rewrite Hd; reflexivity |].
      intros H. apply Hn. inversion H; assumption.
Qed.

End UpdaterIterators.

(** X20. A worker claims regions and chunks in order and stops claiming
    when the collection is cancelled: what it leaves in the two iterators
    are suffixes of what it found; if it leaves a region unclaimed, it has
    claimed no chunk; if the first check after the first region finds the
    collection cancelled, it returns with that one region claimed; and if
    no check finds the collection cancelled, it drains the region iterator
    and, unless the cycle is global, the chunk iterator. *)
Theorem do_work_claims (fl : Flags) (env : UpdateRefsEnv) (fuel : nat)
    (worker_id : Z) (s s' : UpdateState) :
  do_work fl env fuel worker_id s = Some s' ->
  (exists claimed, regions_iterator s = claimed ++ regions_iterator s') /\
  (exists done, work_chunks s = done ++ work_chunks s') /\
  (regions_iterator s' <> [] -> work_chunks s' = work_chunks s) /\
  (forall r rest tape, regions_iterator s = r :: rest -> cancelled_tape s = true :: tape ->
     regions_iterator s' = rest /\ work_chunks s' = work_chunks s /\
     cancelled_tape s' = tape) /\
  (Forall (fun c => c = false) (cancelled_tape s) ->
   regions_iterator s' = [] /\
   (active_generation_is_global env = false -> work_chunks s' = [])).
Proof.
  intros E. unfold do_work in E.
  set (tr0 := if CONCURRENT env && (worker_id =? 0)
              then move_collector_sets_to_mutator (collection_set_count env)
                   :: update_trace s
              else update_trace s) in E.
  pose proof (update_regions_claims fl env (regions_iterator s) (cancelled_tape s) tr0) as H.
  destruct (update_regions fl env (regions_iterator s) (cancelled_tape s) tr0)
    as [[[cancelled rs] tape1] tr1].
  destruct H as (Hclaimed & Hdrained & Hnever & Hfirst).
  destruct cancelled.
  { inversion E; subst; cbn.
    split; [exact Hclaimed |]. split; [exists []; reflexivity |].
    split; [reflexivity |]. split.
    - intros r rest tape Hr Ht. destruct (Hfirst r rest tape Hr Ht) as (_ & -> & ->). auto.
    - intros Hn. destruct (Hnever Hn) as [Hc _]. discriminate Hc. }
  specialize (Hdrained eq_refl). subst rs.
  assert (Hnot_first : forall r rest tape, regions_iterator s = r :: rest ->
            cancelled_tape s = true :: tape -> False).
  { intros r rest tape Hr Ht. destruct (Hfirst r rest tape Hr Ht) as (Hc & _).
    discriminate Hc. }
  destruct (active_generation_is_global env) eqn:Hg; cbn [negb] in E.
  { inversion E; subst; cbn.
    split; [exact Hclaimed |]. split; [exists []; reflexivity |].
    split; [reflexivity |]. split.
    - intros r rest tape Hr Ht. destruct (Hnot_first r rest tape Hr Ht).
    - intros _. split; [reflexivity | discriminate]. }
  destruct (update_chunks fl env fuel (work_chunks s) tape1 tr1)
    as [[[chunks tape2] tr2] |] eqn:E2; [| discriminate E].
  destruct (update_chunks_claims fl env _ _ _ _ _ _ _ E2) as (Hdone & Hdrain2).
  inversion E; subst; cbn.
  split; [exact Hclaimed |]. split; [exact Hdone |].
  split; [intros Hne; contradiction |]. split.
  - intros r rest tape Hr Ht. destruct (Hnot_first r rest tape Hr Ht).
  - intros Hn. split; [reflexivity |]. intros _. apply Hdrain2. apply (Hnever Hn).
Qed.

Lemma do_work_claims_witness :
  exists s',
    do_work example_heap_flags (example_update_env false true) 100 0
      (example_update_state [true]) = Some s' /\
    regions_iterator s' = [old_region_view] /\
    work_chunks s' = [example_chunk] /\ cancelled_tape s' = [].
Proof.
  destruct (do_work example_heap_flags (example_update_env false true) 100 0
              (example_update_state [true])) as [s' |] eqn:E;
    [| vm_compute in E; discriminate E].
  exists s'. split; [reflexivity |].
  destruct (do_work_claims _ _ _ _ _ _ E) as (_ & _ & _ & H & _).
  exact (H young_region_view [old_region_view] [] eq_refl eq_refl).
Defined.

(** *** The range of a chunk *)

Section UpdaterRanges.

Variable fl : Flags.
Variable env : UpdateRefsEnv.

Lemma chunk_end_le_watermark (a : ShenandoahRegionChunk) :
  chunk_end a <= rv_update_watermark (chunk_r a).
Proof.
  unfold chunk_end. cbv zeta.
  destruct (Z.ltb_spec (chunk_start a + chunk_size a) (rv_update_watermark (chunk_r a))); lia.
Qed.

Lemma chunk_end_le_size (a : ShenandoahRegionChunk) :
  chunk_end a <= chunk_start a + chunk_size a.
Proof.
  unfold chunk_end. cbv zeta.
  destruct (Z.ltb_spec (chunk_start a + chunk_size a) (rv_update_watermark (chunk_r a))); lia.
Qed.

Lemma pointer_delta_exact (left right : Z) :
  0 < HeapWordSize fl -> right <= left ->
  (left - right) * HeapWordSize fl < SizeT.modulus ->
  pointer_delta fl left right = left - right.
Proof.
  intros Hw Hle Hfit. unfold pointer_delta.
  rewrite wrap_small by (unfold in_range; nia).
  apply Z.div_mul. lia.
Qed.

(** The objects of the walk, oldest first: they lie below the end of the
    range, and under the progress assumptions they are visited in
    strictly increasing order from [p] on. *)
Lemma update_objects_visits (fuel : nat) (p tams end_of_range : Z)
    (tr tr' : list UpdateEvent) :
  update_objects env fuel p tams end_of_range tr = Some tr' ->
  exists visited,
    tr' = rev (map do_object visited) ++ tr /\
    Forall (fun q => q < end_of_range) visited /\
    (collaborators_progress env ->
     StronglySorted Z.lt visited /\ Forall (fun q => p <= q) visited).
Proof.
  revert p tr. induction fuel as [| fuel IH]; intros p tr E; cbn in E; [discriminate |].
  destruct (Z.ltb_spec p end_of_range) as [Hlt | Hge].
  - destruct (IH _ _ E) as (visited & -> & Hbelow & Hsorted).
    exists (p :: visited). split; [cbn; rewrite <- app_assoc; reflexivity |].
    split; [constructor; assumption |].
    intros Hprog. destruct (Hsorted Hprog) as [Hs Hfrom].
    destruct Hprog as (Hsize & Hnext & _).
    assert (Hp2 : p < (if p + size_of_object env p <? tams
                       then ctx_get_next_marked_addr env (p + size_of_object env p) tams
                       else p + size_of_object env p)).
    { pose proof (Hsize p). destruct (p + size_of_object env p <? tams);
        [pose proof (Hnext (p + size_of_object env p) tams) |]; lia. }
    split.
    + constructor; [exact Hs |].
      eapply Forall_impl; [exact Hfrom |]. cbn. intros q Hq. lia.
    + constructor; [lia |].
      eapply Forall_impl; [exact Hfrom |]. cbn. intros q Hq. lia.
  - inversion E; subst. exists []. split; [reflexivity |].
    split; [constructor |]. intros _. split; constructor.
Qed.

Lemma update_objects_within (fuel : nat) (a : ShenandoahRegionChunk) (p tams : Z)
    (tr tr' : list UpdateEvent) :
  chunk_start a < chunk_end a ->
  update_objects env fuel p tams (chunk_end a) tr = Some tr' ->
  exists new, tr' = new ++ tr /\ Forall (event_within_chunk fl a) new.
Proof.
  intros Hne E. destruct (update_objects_visits _ _ _ _ _ _ E) as (visited & -> & Hb & _).
  eexists. split; [reflexivity |].
  rewrite <- map_rev. apply Forall_rev in Hb.
  induction Hb as [| q l Hq _ IH]; cbn; constructor;
    [split; [exact Hne | exact Hq] | exact IH].
Qed.

Lemma update_chunk_events (fuel : nat) (a : ShenandoahRegionChunk)
    (tr tr' : list UpdateEvent) :
  update_chunk fl env fuel a tr = Some tr' ->
  exists new, tr' = new ++ tr /\ Forall (event_within_chunk fl a) new.
Proof.
  intros E. unfold update_chunk in E. cbv zeta in E.
  destruct (r_is_active (rv_region (chunk_r a)) && negb (rv_is_cset (chunk_r a))
            && is_old (rv_region (chunk_r a))).
  2:{ inversion E; subst. exists []. split; [reflexivity | constructor]. }
  destruct (Z.ltb_spec (chunk_start a) (chunk_end a)) as [Hne | Hempty].
  2:{ rewrite andb_false_r in E.
      destruct (collection_set_has_old_regions env);
        [destruct (r_is_humongous (rv_region (chunk_r a))) |];
        inversion E; subst; exists []; (split; [reflexivity | constructor]). }
  rewrite andb_true_r in E.
  assert (Hreport : forall tr1 new1, tr1 = new1 ++ tr ->
            Forall (event_within_chunk fl a) new1 ->
            (if ShenandoahPacing env
             then Some (report_updaterefs
                          (pointer_delta fl (chunk_end a) (chunk_start a)) :: tr1)
             else Some tr1) = Some tr' ->
            exists new, tr' = new ++ tr /\ Forall (event_within_chunk fl a) new).
  { intros tr1 new1 -> A1 E1.
    destruct (ShenandoahPacing env); inversion E1; subst.
    - eexists (_ :: new1). split; [reflexivity |].
      constructor; [split; [exact Hne | reflexivity] | exact A1].
    - exists new1. split; [reflexivity | exact A1]. }
  destruct (collection_set_has_old_regions env).
  - destruct (r_is_humongous (rv_region (chunk_r a))).
    + apply (Hreport _ [oop_iterate_humongous_slice (chunk_r a) (chunk_start a)
                          (chunk_size a)] eq_refl); [| exact E].
      repeat constructor. exact Hne.
    + destruct (update_marked_range env fuel (chunk_r a) (chunk_start a) (chunk_end a) tr)
        as [tr1 |] eqn:Ew; [| discriminate E].
      assert (Hw : exists new1, tr1 = new1 ++ tr /\ Forall (event_within_chunk fl a) new1).
      { unfold update_marked_range in Ew. cbv zeta in Ew.
        match type of Ew with
        | match ?x with _ => _ end = _ => destruct x as [p |]; [| discriminate Ew]
        end.
        exact (update_objects_within _ _ _ _ _ _ Hne Ew). }
      destruct Hw as (new1 & -> & A1).
      exact (Hreport _ new1 eq_refl A1 E).
  - apply (Hreport _ [process_region_slice (chunk_r a) (chunk_offset a)
                        (chunk_size a / mul (card_size_in_words fl) (CardsPerCluster env))
                        (chunk_end a)] eq_refl); [| exact E].
    repeat constructor. exact Hne.
Qed.

End UpdaterRanges.

(** X21. A chunk is updated within its clamped range only: the range ends
    at the update watermark of the region or at the end of the chunk,
    whichever comes first; every call made for the chunk is made for a
    range that is not empty; no object at or beyond the end of the range is
    updated; the slices start at the start of the chunk; and the pacer is
    told the length of the clamped range, which is at most the size of the
    chunk. *)
Theorem update_chunk_within_range (fl : Flags) (env : UpdateRefsEnv) (fuel : nat)
    (a : ShenandoahRegionChunk) (tr tr' : list UpdateEvent) :
  update_chunk fl env fuel a tr = Some tr' ->
  (exists new, tr' = new ++ tr /\ Forall (event_within_chunk fl a) new) /\
  chunk_end a <= rv_update_watermark (chunk_r a) /\
  chunk_end a <= chunk_start a + chunk_size a /\
  (0 < HeapWordSize fl -> chunk_start a <= chunk_end a ->
   (chunk_end a - chunk_start a) * HeapWordSize fl < SizeT.modulus ->
   pointer_delta fl (chunk_end a) (chunk_start a) = chunk_end a - chunk_start a /\
   pointer_delta fl (chunk_end a) (chunk_start a) <= chunk_size a).
Proof.
  intros E. split; [exact (update_chunk_events fl env fuel a tr tr' E) |].
  pose proof (chunk_end_le_watermark a) as H1.
  pose proof (chunk_end_le_size a) as H2.
  split; [exact H1 |]. split; [exact H2 |].
  intros Hw Hle Hfit. rewrite (pointer_delta_exact fl _ _ Hw Hle Hfit). lia.
Qed.

Lemma update_chunk_within_range_witness :
  exists tr',
    update_chunk example_heap_flags (example_update_env false true) 100 example_chunk []
      = Some tr' /\
    (exists new, tr' = new ++ [] /\
                 Forall (event_within_chunk example_heap_flags example_chunk) new) /\
    chunk_end example_chunk <= 1179712.
Proof.
  destruct (update_chunk example_heap_flags (example_update_env false true) 100
              example_chunk []) as [tr' |] eqn:E; [| vm_compute in E; discriminate E].
  exists tr'. split; [reflexivity |].
  destruct (update_chunk_within_range _ _ _ _ _ _ E) as (H1 & H2 & _).
  split; [exact H1 | exact H2].
Defined.

(** X22. The walk over the marked objects of a chunk makes forward
    progress: when objects have a size and the next marked address is
    never behind, the objects are updated in strictly increasing order of
    address, each below the end of the range, and, when the range starts
    below the top at mark start, none before the start of the range. *)
Theorem update_marked_range_in_order (env : UpdateRefsEnv) (fuel : nat) (r : RegionView)
    (start_of_range end_of_range : Z) (tr tr' : list UpdateEvent) :
  collaborators_progress env ->
  update_marked_range env fuel r start_of_range end_of_range tr = Some tr' ->
  exists visited,
    tr' = rev (map do_object visited) ++ tr /\
    StronglySorted Z.lt visited /\
    Forall (fun q => q < end_of_range) visited /\
    (start_of_range < ctx_top_at_mark_start env r ->
     Forall (fun q => start_of_range <= q) visited).
Proof.
  intros Hprog E. unfold update_marked_range in E. cbv zeta in E.
  destruct (Z.leb_spec (ctx_top_at_mark_start env r) start_of_range) as [Hcard | Hmark].
  - destruct (first_object_from env fuel _ end_of_range) as [p |]; [| discriminate E].
    destruct (update_objects_visits env _ _ _ _ _ _ E) as (visited & -> & Hb & Hs).
    destruct (Hs Hprog) as [Hsorted _].
    exists visited. split; [reflexivity |]. split; [exact Hsorted |].
    split; [exact Hb |]. intros; lia.
  - assert (Hfrom : exists p, start_of_range <= p /\
              update_objects env fuel p (ctx_top_at_mark_start env r) end_of_range tr
                = Some tr').
    { destruct (ctx_is_marked env start_of_range); cbn [negb] in E.
      - exists start_of_range. split; [lia | exact E].
      - eexists. split; [| exact E]. destruct Hprog as (_ & Hnext & _). apply Hnext. }
    destruct Hfrom as (p & Hp & E').
    destruct (update_objects_visits env _ _ _ _ _ _ E') as (visited & -> & Hb & Hs).
    destruct (Hs Hprog) as [Hsorted Hge].
    exists visited. split; [reflexivity |]. split; [exact Hsorted |].
    split; [exact Hb |]. intros _.
    eapply Forall_impl; [exact Hge |]. cbn. intros q Hq. lia.
Qed.

Lemma example_collaborators_progress (global mixed : bool) :
  collaborators_progress (example_update_env global mixed).
Proof. repeat split; cbn; intros; lia. Qed.

Lemma update_marked_range_in_order_witness :
  exists tr' visited,
    update_marked_range (example_update_env false true) 100 old_region_view
      1179648 1179712 [] = Some tr' /\
    tr' = rev (map do_object visited) ++ [] /\
    StronglySorted Z.lt visited.
Proof.
  destruct (update_marked_range (example_update_env false true) 100 old_region_view
              1179648 1179712 []) as [tr' |] eqn:E; [| vm_compute in E; discriminate E].
  destruct (update_marked_range_in_order _ _ _ _ _ _ _
              (example_collaborators_progress false true) E)
    as (visited & H1 & H2 & _).
  exists tr', visited. split; [reflexivity |]. split; assumption.
Defined.

(** *** Termination *)

Section UpdaterTermination.

Variable fl : Flags.
Variable env : UpdateRefsEnv.
Hypothesis progress : collaborators_progress env.

Lemma update_objects_returns (fuel : nat) (p tams end_of_range : Z)
    (tr : list UpdateEvent) :
  (Z.to_nat (end_of_range - p) < fuel)%nat ->
  is_Some (update_objects env fuel p tams end_of_range tr).
Proof.
  destruct progress as (Hsize & Hnext & _).
  revert p tr. induction fuel as [| fuel IH]; intros p tr Hfuel; [lia |]. cbn.
  destruct (Z.ltb_spec p end_of_range) as [Hlt | Hge]; [| eexists; reflexivity].
  apply IH.
  pose proof (Hsize p).
  destruct (p + size_of_object env p <? tams);
    [pose proof (Hnext (p + size_of_object env p) tams) |]; lia.
Qed.

(** Within the range, the search by the crossing map goes up card by
    card. *)
Lemma first_object_from_returns_within (fuel : nat) (card_index end_of_range : Z) :
  0 <= card_index < end_of_range -> end_of_range < SizeT.modulus ->
  (Z.to_nat (end_of_range - card_index) < fuel)%nat ->
  exists p, first_object_from env fuel card_index end_of_range = Some p /\ 0 <= p.
Proof.
  destruct progress as (_ & _ & Hcard & Hfirst).
  revert card_index. induction fuel as [| fuel IH]; intros c Hc Hend Hfuel; [lia |]. cbn.
  destruct (scanner_first_object_in_card env c =? nullptr) eqn:Hn; cbn [negb].
  2:{ eexists. split; [reflexivity | apply Hfirst]. }
  assert (Hadd : add c 1 = c + 1).
  { unfold add. apply wrap_small. unfold in_range. lia. }
  rewrite Hadd.
  destruct (Z.ltb_spec (scanner_addr_for_card_index env (c + 1)) end_of_range) as [Hlt | Hge].
  - pose proof (Hcard (c + 1) ltac:(lia)). apply IH; lia.
  - eexists. split; [reflexivity | lia].
Qed.

Lemma first_object_from_returns (fuel : nat) (card_index end_of_range : Z) :
  0 <= end_of_range < SizeT.modulus ->
  (Z.to_nat end_of_range + 1 < fuel)%nat ->
  exists p, first_object_from env fuel card_index end_of_range = Some p /\ 0 <= p.
Proof.
  intros Hend Hfuel.
  destruct fuel as [| fuel]; [lia |]. cbn.
  pose proof progress as (_ & _ & Hcard & Hfirst).
  destruct (scanner_first_object_in_card env card_index =? nullptr) eqn:Hn; cbn [negb].
  2:{ eexists. split; [reflexivity | apply Hfirst]. }
  destruct (Z.ltb_spec (scanner_addr_for_card_index env (add card_index 1)) end_of_range)
    as [Hlt | Hge].
  - pose proof (wrap_range (card_index + 1)) as Hr. fold (add card_index 1) in Hr.
    unfold in_range in Hr.
    pose proof (Hcard (add card_index 1) ltac:(lia)).
    apply first_object_from_returns_within; lia.
  - eexists. split; [reflexivity | lia].
Qed.

Lemma update_marked_range_returns (fuel : nat) (r : RegionView)
    (start_of_range end_of_range : Z) (tr : list UpdateEvent) :
  0 <= start_of_range -> 0 <= end_of_range < SizeT.modulus ->
  (Z.to_nat end_of_range + 1 < fuel)%nat ->
  is_Some (update_marked_range env fuel r start_of_range end_of_range tr).
Proof.
  intros Hstart Hend Hfuel. unfold update_marked_range. cbv zeta.
  pose proof progress as (_ & Hnext & _).
  destruct (ctx_top_at_mark_start env r <=? start_of_range).
  - destruct (first_object_from_returns fuel
                (scanner_card_index_for_addr env start_of_range) end_of_range Hend Hfuel)
      as (p & -> & Hp).
    apply update_objects_returns. lia.
  - destruct (ctx_is_marked env start_of_range); cbn [negb];
      apply update_objects_returns;
      [| pose proof (Hnext start_of_range (ctx_top_at_mark_start env r))]; lia.
Qed.

Lemma update_chunk_returns (fuel : nat) (bound : Z) (a : ShenandoahRegionChunk)
    (tr : list UpdateEvent) :
  bound < SizeT.modulus ->
  0 <= chunk_start a -> rv_update_watermark (chunk_r a) <= bound ->
  (Z.to_nat bound + 1 < fuel)%nat ->
  is_Some (update_chunk fl env fuel a tr).
Proof.
  intros Hbound Hstart Hwm Hfuel. unfold update_chunk. cbv zeta.
  destruct (r_is_active (rv_region (chunk_r a)) && negb (rv_is_cset (chunk_r a))
            && is_old (rv_region (chunk_r a))); [| eexists; reflexivity].
  assert (Hstep : forall o, is_Some o ->
            is_Some (match o with
                     | Some tr1 =>
                         if ShenandoahPacing env && (chunk_start a <? chunk_end a)
                         then Some (report_updaterefs
                                      (pointer_delta fl (chunk_end a) (chunk_start a))
                                    :: tr1)
                         else Some tr1
                     | None => None
                     end)).
  { intros o [tr1 ->].
    destruct (ShenandoahPacing env && (chunk_start a <? chunk_end a)); eexists; reflexivity. }
  apply Hstep.
  destruct (collection_set_has_old_regions env).
  - destruct (r_is_humongous (rv_region (chunk_r a))).
    + destruct (chunk_start a <? chunk_end a); eexists; reflexivity.
    + destruct (Z.ltb_spec (chunk_start a) (chunk_end a)) as [Hne |]; [| eexists; reflexivity].
      pose proof (chunk_end_le_watermark a).
      apply update_marked_range_returns; lia.
  - destruct (chunk_start a <? chunk_end a); eexists; reflexivity.
Qed.

Lemma update_chunks_returns (fuel : nat) (bound : Z) (chunks : list ShenandoahRegionChunk)
    (tape : list bool) (tr : list UpdateEvent) :
  bound < SizeT.modulus ->
  chunks_below bound chunks ->
  (Z.to_nat bound + 1 < fuel)%nat ->
  is_Some (update_chunks fl env fuel chunks tape tr).
Proof.
  intros Hbound Hchunks Hfuel. revert tape tr.
  induction Hchunks as [| a rest [Hstart Hwm] _ IH]; intros tape tr; cbn;
    destruct (check_cancelled_gc_and_yield tape) as [[|] tape1]; try (eexists; reflexivity).
  destruct (update_chunk_returns fuel bound a tr Hbound Hstart Hwm Hfuel) as [tr1 ->].
  apply IH.
Qed.

End UpdaterTermination.

(** X23. The worker returns: when the collaborators make progress, the
    chunks start at addresses that are not negative and the update
    watermarks of their regions are at most [bound], each inner loop of
    [do_work] ends within [bound + 2] iterations, whatever the regions,
    the chunks and the cancellation checks. *)
Theorem do_work_returns (fl : Flags) (env : UpdateRefsEnv) (fuel : nat) (bound : Z)
    (worker_id : Z) (s : UpdateState) :
  collaborators_progress env ->
  bound < SizeT.modulus ->
  chunks_below bound (work_chunks s) ->
  (Z.to_nat bound + 1 < fuel)%nat ->
  exists s', do_work fl env fuel worker_id s = Some s'.
Proof.
  intros Hprog Hbound Hchunks Hfuel. unfold do_work.
  destruct (update_regions fl env (regions_iterator s) (cancelled_tape s) _)
    as [[[cancelled rs] tape1] tr1].
  destruct cancelled; [eexists; reflexivity |].
  destruct (negb (active_generation_is_global env)); [| eexists; reflexivity].
  destruct (update_chunks_returns fl env Hprog fuel bound (work_chunks s) tape1 tr1
              Hbound Hchunks Hfuel) as [[[chunks tape2] tr2] ->].
  eexists. reflexivity.
Qed.

Lemma do_work_returns_witness :
  exists s',
    do_work example_heap_flags (example_update_env false true) 100 0
      {| regions_iterator := [young_region_view];
         work_chunks :=
           [ {| chunk_r :=
                  {| rv_region := rv_region old_region_view; rv_index := 1;
                     rv_is_cset := false; rv_bottom := 0; rv_top := 64;
                     rv_update_watermark := 64 |};
                chunk_offset := 0; chunk_size := 4096 |} ];
         cancelled_tape := []; update_trace := [] |} = Some s'.
Proof.
  apply (do_work_returns example_heap_flags (example_update_env false true) 100 64).
  - apply example_collaborators_progress.
  - reflexivity.
  - apply Forall_cons. split; [split; unfold chunk_start; cbn; lia | constructor].
  - cbn. lia.
Defined.

(** ** The constructor *)

Lemma aligned_le_align_down (x y k : Z) :
  0 <= k -> in_range y -> is_aligned x (2 ^ k) -> x <= y -> x <= align_down y (2 ^ k).
Proof.
  intros Hk Hy Hx Hle.
  assert (Hp : 0 < 2 ^ k) by (apply Z.pow_pos_nonneg; lia).
  rewrite (align_down_eq y k Hk Hy).
  apply is_aligned_mod in Hx; [| exact Hk].
  apply Z.mod_divide in Hx; [| lia]. destruct Hx as [q ->].
  apply Z.mul_le_mono_nonneg_r; [lia |].
  apply Z.div_le_lower_bound; lia.
Qed.

Lemma max_plab_bound_range (MaxTLABSizeWords ratio PLAB_min : Z) :
  in_range MaxTLABSizeWords -> in_range (max_plab_bound MaxTLABSizeWords ratio PLAB_min).
Proof.
  intros Hm. unfold max_plab_bound. destruct (0 <? ratio); [| exact Hm].
  rewrite MIN2_eq_min. pose proof (wrap_range (PLAB_min * ratio)) as Hw.
  unfold mul, in_range in *. lia.
Qed.

Lemma calculate_max_plab_eq (MaxTLABSizeWords ratio PLAB_min card_size : Z) :
  calculate_max_plab MaxTLABSizeWords ratio PLAB_min card_size
  = align_down (max_plab_bound MaxTLABSizeWords ratio PLAB_min) card_size.
Proof. unfold calculate_max_plab, max_plab_bound. destruct (0 <? ratio); reflexivity. Qed.

(** X24. The constructor establishes the bounds that the buffer manager
    relies on: with cards of a power of two words, both sizes are
    multiples of the card size, as the constructor asserts, and the
    minimum is positive and no larger than the maximum as soon as the
    minimum fits under what the maximum is aligned down from, the
    largest TLAB or, when [ShenandoahMaxEvacLABRatio] is not zero, the
    smaller of the largest TLAB and [ShenandoahMaxEvacLABRatio] times
    [PLAB::min_size()]. *)
Theorem constructor_establishes_plab_bounds (fl : Flags)
    (MaxTLABSizeWords ShenandoahMaxEvacLABRatio k : Z) :
  0 <= k -> card_size_in_words fl = 2 ^ k ->
  0 < PLAB_min_size fl ->
  PLAB_min_size fl + 2 ^ k - 1 < SizeT.modulus ->
  0 <= MaxTLABSizeWords < half_modulus ->
  heap_constructed fl MaxTLABSizeWords ShenandoahMaxEvacLABRatio ->
  plab_min_size fl
    <= max_plab_bound MaxTLABSizeWords ShenandoahMaxEvacLABRatio (PLAB_min_size fl) ->
  plab_bounds_ok fl.
Proof.
  intros Hk Hcard Hmin Hfit Hmax [Emin Emax] Hle.
  assert (Hr : in_range MaxTLABSizeWords).
  { unfold in_range. pose proof modulus_eq. pose proof half_modulus_eq. lia. }
  pose proof (max_plab_bound_range MaxTLABSizeWords ShenandoahMaxEvacLABRatio
                (PLAB_min_size fl) Hr) as Hb.
  rewrite calculate_max_plab_eq in Emax. unfold calculate_min_plab in Emin.
  rewrite Hcard in *.
  destruct (align_up_spec (PLAB_min_size fl) k Hk ltac:(lia) Hfit) as (Ha & Hlow & Hup).
  destruct (align_down_spec _ k Hk Hb) as (Ha' & Hlow' & Hup').
  rewrite <- Emin in Ha, Hlow, Hup. rewrite <- Emax in Ha', Hlow', Hup'.
  unfold plab_bounds_ok. rewrite Hcard.
  split; [exists k; auto |]. split; [exact Ha |]. split; [exact Ha' |].
  split; [lia |]. split.
  - rewrite Emax. apply aligned_le_align_down; assumption.
  - assert (max_plab_bound MaxTLABSizeWords ShenandoahMaxEvacLABRatio (PLAB_min_size fl)
            <= MaxTLABSizeWords).
    { unfold max_plab_bound. destruct (0 <? ShenandoahMaxEvacLABRatio); [| lia].
      apply MIN2_le_l. }
    lia.
Qed.

Lemma constructor_establishes_plab_bounds_witness : plab_bounds_ok example_heap_flags.
Proof.
  apply (constructor_establishes_plab_bounds example_heap_flags 32768 0 6).
  - lia.
  - reflexivity.
  - cbn. lia.
  - vm_compute. reflexivity.
  - vm_compute. split; [discriminate | reflexivity].
  - split; vm_compute; reflexivity.
  - vm_compute. discriminate.
Defined.

(** X25. With [ShenandoahMaxEvacLABRatio] set to one, and a
    [PLAB::min_size()] that is not a multiple of the card size, the
    constructor leaves the maximum PLAB size below the minimum PLAB size:
    the maximum is at most [PLAB::min_size()] aligned down, the minimum is
    [PLAB::min_size()] aligned up. *)
Theorem max_plab_below_min_for_ratio_one (MaxTLABSizeWords PLAB_min k : Z) :
  0 <= k -> 0 < PLAB_min -> PLAB_min + 2 ^ k - 1 < SizeT.modulus ->
  in_range MaxTLABSizeWords ->
  ~ is_aligned PLAB_min (2 ^ k) ->
  calculate_max_plab MaxTLABSizeWords 1 PLAB_min (2 ^ k)
  < calculate_min_plab PLAB_min (2 ^ k).
Proof.
  intros Hk Hmin Hfit Hmax Hna.
  assert (Hp : 0 < 2 ^ k) by (apply Z.pow_pos_nonneg; lia).
  rewrite calculate_max_plab_eq. unfold calculate_min_plab.
  pose proof (max_plab_bound_range MaxTLABSizeWords 1 PLAB_min Hmax) as Hb.
  destruct (align_down_spec _ k Hk Hb) as (_ & Hlow' & _).
  destruct (align_up_spec PLAB_min k Hk ltac:(lia) Hfit) as (Ha & Hlow & _).
  assert (Hbound : max_plab_bound MaxTLABSizeWords 1 PLAB_min <= PLAB_min).
  { unfold max_plab_bound. cbn [Z.ltb Z.compare].
    etransitivity; [apply MIN2_le_r |].
    unfold mul. rewrite Z.mul_1_r. apply wrap_le. lia. }
  assert (Hne : align_up PLAB_min (2 ^ k) <> PLAB_min).
  { intros E. apply Hna. rewrite <- E. exact Ha. }
  lia.
Qed.

Lemma max_plab_below_min_for_ratio_one_witness :
  calculate_max_plab 131072 1 258 (2 ^ 6) < calculate_min_plab 258 (2 ^ 6).
Proof.
  apply (max_plab_below_min_for_ratio_one 131072 258 6).
  - lia.
  - lia.
  - vm_compute. reflexivity.
  - unfold in_range. rewrite modulus_eq. lia.
  - vm_compute. discriminate.
Defined.

(** ** Promotion and the out-of-memory latch *)

(** X26. An object of a young region is promoted only when it is eligible:
    unless the thread is not out of memory, the cycle is young, the mark
    word is neither forwarded nor displaced and the age of the region plus
    the age of the object reaches the tenuring threshold,
    [evacuate_object] leaves the thread's promotion buffer, its preferred
    size and its retry flag alone, and makes no request and no
    notification that concerns the old generation. *)
Theorem evacuate_object_promotes_only_when_eligible (fl : Flags) (p : Z) (w : World)
    (r : ShenandoahHeapRegion) (o : oopDesc) (v : Z) (w' : World) :
  region_at w (heap_region_index_containing fl p) = Some r ->
  r_affiliation r = YOUNG_GENERATION ->
  mem w !! p = Some o ->
  promotion_eligible w r o = false ->
  evacuate_object fl p w = Some (v, w') ->
  plab (tld w') = plab (tld w) /\
  plab_size (tld w') = plab_size (tld w) /\
  plab_retries_enabled (tld w') = plab_retries_enabled (tld w) /\
  old_generation_events (trace w') = old_generation_events (trace w).
Proof.
  intros Hr Haff Hp Hne E.
  assert (Hstart : old_side_is (plab (tld w)) (plab_size (tld w))
                     (plab_retries_enabled (tld w)) (old_generation_events (trace w)) w)
    by (repeat split).
  assert (Hyoung : forall v0 w0,
            try_evacuate_object fl p r YOUNG_GENERATION w = Some (v0, w0) ->
            old_side_is (plab (tld w)) (plab_size (tld w))
              (plab_retries_enabled (tld w)) (old_generation_events (trace w)) w0).
  { intros v0 w0 E0.
    exact (young_evacuation_keeps_old_side fl _ _ _ _ p r w v0 w0 Hstart E0). }
  assert (Hresolve : forall v0 w0, resolve_forwarded p w = Some (v0, w0) ->
            old_side_is (plab (tld w)) (plab_size (tld w))
              (plab_retries_enabled (tld w)) (old_generation_events (trace w)) w0).
  { intros v0 w0 E0. rewrite (resolve_forwarded_eq p w o Hp) in E0.
    inversion E0; subst. exact Hstart. }
  unfold promotion_eligible in Hne.
  unfold evacuate_object, bind at 1, get_tld at 1 in E.
  destruct (oom_during_evac (tld w)) eqn:Hoom; [exact (Hresolve _ _ E) |].
  unfold bind at 1, heap_region_containing at 1 in E. rewrite Hr in E.
  unfold bind at 1, get_world at 1 in E. rewrite Haff in E.
  cbn [negb andb affiliation_eqb] in *.
  destruct (active_generation_is_young w); cbn [andb] in *; [| exact (Hyoung _ _ E)].
  unfold bind at 1, object_at at 1 in E. rewrite Hp in E.
  destruct (is_marked (obj_mark o)); [exact (Hresolve _ _ E) |].
  destruct (has_displaced_mark_helper (obj_mark o)); [exact (Hyoung _ _ E) |].
  cbn [negb andb] in Hne. rewrite Hne in E. exact (Hyoung _ _ E).
Qed.

Lemma evacuate_object_promotes_only_when_eligible_witness :
  exists v w',
    evacuate_object example_heap_flags 1048640
      (example_world_holding locked_object (worker 320) []) = Some (v, w') /\
    plab (tld w') = Some nearly_full_plab /\
    old_generation_events (trace w') = [].
Proof.
  destruct (evacuate_object example_heap_flags 1048640
              (example_world_holding locked_object (worker 320) []))
    as [[v w'] |] eqn:E; [| vm_compute in E; discriminate E].
  exists v, w'. split; [reflexivity |].
  destruct (evacuate_object_promotes_only_when_eligible example_heap_flags 1048640
              (example_world_holding locked_object (worker 320) []) evacuated_region
              locked_object v w' ltac:(vm_compute; reflexivity) eq_refl eq_refl eq_refl E)
    as (H1 & _ & _ & H4).
  split; assumption.
Defined.

Section Latch.

Variable fl : Flags.

Lemma latch_keeps_tld (f : ThreadLocalData -> ThreadLocalData) (w : World) :
  oom_during_evac (f (tld w)) = oom_during_evac (tld w) ->
  latched_once_signalled w -> latched_once_signalled (set_tld (f (tld w)) w).
Proof. intros Hf H Hin. cbn. rewrite Hf. exact (H Hin). Qed.

Lemma latch_keeps_event (e : Event) (w : World) :
  e <> handle_out_of_memory_during_evacuation ->
  latched_once_signalled w -> latched_once_signalled (set_trace (e :: trace w) w).
Proof.
  intros He H Hin. cbn in Hin. destruct Hin as [Heq | Hin]; [contradiction |].
  exact (H Hin).
Qed.

Lemma latch_keeps_mem (m : gmap Z oopDesc) (w : World) :
  latched_once_signalled w -> latched_once_signalled (set_mem m w).
Proof. intros H. exact H. Qed.

Ltac latch_side :=
  first
    [ intros ? ?; apply latch_keeps_tld; [reflexivity | assumption]
    | intros ? ?; apply latch_keeps_event; [discriminate | assumption]
    | intros ? ?; apply latch_keeps_mem; assumption ].

Lemma allocate_memory_keeps_latch (req : ShenandoahAllocRequest) :
  preserves latched_once_signalled (allocate_memory req).
Proof.
  intros w a w' HP E. unfold allocate_memory in E. cbn in E.
  destruct (alloc_tape w) as [| r rest]; inversion E; subst; clear E.
  - apply latch_keeps_event; [discriminate | exact HP].
  - intros Hin. cbn in Hin. destruct Hin as [Heq | Hin]; [discriminate Heq |].
    specialize (HP Hin). cbn. unfold apply_response.
    destruct (resp_plab_promoted r), (resp_plab_actual_size r),
      (resp_allow_plab_promotions r); cbn; exact HP.
Qed.

Lemma retire_plab_keeps_latch : preserves latched_once_signalled (retire_plab fl).
Proof. unfold retire_plab. repeat (preserves_step; try latch_side). Qed.

Lemma allocate_from_plab_keeps_latch (size : Z) (is_promotion : bool) :
  preserves latched_once_signalled (allocate_from_plab fl size is_promotion).
Proof.
  unfold allocate_from_plab, allocate_from_plab_slow, allocate_new_plab.
  repeat (first [ apply retire_plab_keeps_latch
                | apply allocate_memory_keeps_latch
                | preserves_step ]; try latch_side).
Qed.

Lemma allocate_from_gclab_keeps_latch (size : Z) :
  preserves latched_once_signalled (allocate_from_gclab size).
Proof.
  unfold allocate_from_gclab.
  preserves_step; [preserves_step |].
  destruct (gclab a) as [g |]; [| apply preserves_ret].
  destruct (Plab.allocate g size) as [obj g'].
  destruct (obj =? nullptr).
  - intros w r w' HP E. unfold allocate_from_gclab_slow in E.
    destruct (gclab_tape w); inversion E; subst; exact HP.
  - repeat (preserves_step; try latch_side).
Qed.

(** The handler signals and sets the latch in one go. *)
Lemma oom_evac_handler_keeps_latch : preserves latched_once_signalled oom_evac_handler.
Proof.
  intros w a w' _ E. unfold oom_evac_handler in E. heap_unfold_in E. cbn in E.
  inversion E; subst. intros _. reflexivity.
Qed.

Lemma try_evacuate_object_keeps_latch (p : Z) (r : ShenandoahHeapRegion)
    (target_gen : ShenandoahAffiliation) :
  preserves latched_once_signalled (try_evacuate_object fl p r target_gen).
Proof.
  unfold try_evacuate_object.
  preserves_step; [preserves_step |].
  apply preserves_bind.
  { unfold allocate_copy. apply preserves_bind.
    - destruct (UseTLAB fl); [| apply preserves_ret].
      unfold try_evacuate_in_lab.
      repeat (first [ apply allocate_from_plab_keeps_latch
                    | apply allocate_from_gclab_keeps_latch
                    | preserves_step ]; try latch_side).
    - intros [copy0 has_plab]. unfold try_evacuate_shared.
      repeat (first [apply allocate_memory_keeps_latch | preserves_step];
              try latch_side). }
  intros [copy alloc_from_lab].
  destruct (copy =? nullptr).
  - unfold evacuation_failed.
    repeat (first [ apply oom_evac_handler_keeps_latch
                  | apply resolve_forwarded_keeps
                  | preserves_step ]; try latch_side).
  - apply preserves_bind.
    { unfold copy_object, increase_object_age. repeat (preserves_step; try latch_side). }
    intros copy_val. apply preserves_bind.
    { unfold try_update_forwardee. repeat (preserves_step; try latch_side). }
    intros result. unfold finish_evacuation, get_object_age, undo_allocation.
    repeat (preserves_step; try latch_side).
Qed.

Lemma evacuate_object_keeps_latch (p : Z) :
  preserves latched_once_signalled (evacuate_object fl p).
Proof.
  unfold evacuate_object.
  repeat (first [ apply try_evacuate_object_keeps_latch
                | apply resolve_forwarded_keeps
                | preserves_step ]; try latch_side).
Qed.

End Latch.

(** X27. Out-of-memory during evacuation is a latch: whenever a thread has
    signalled it, its latch is set, which [evacuate_object] keeps true
    whatever it does; and a thread whose latch is set allocates nothing
    and changes nothing, [evacuate_object] returning the object or, when
    it is forwarded, its forwardee. *)
Theorem evacuate_object_oom_latch (fl : Flags) (p : Z) (w : World) (v : Z) (w' : World) :
  latched_once_signalled w ->
  evacuate_object fl p w = Some (v, w') ->
  latched_once_signalled w' /\
  (In handle_out_of_memory_during_evacuation (trace w) ->
   w' = w /\ exists o, mem w !! p = Some o /\ v = resolved p o).
Proof.
  intros HP E. split; [exact (evacuate_object_keeps_latch fl p w v w' HP E) |].
  intros Hin. specialize (HP Hin).
  unfold evacuate_object, bind at 1, get_tld at 1 in E. rewrite HP in E.
  destruct (mem w !! p) as [o |] eqn:Hp.
  - rewrite (resolve_forwarded_eq p w o Hp) in E. inversion E; subst.
    split; [reflexivity |]. exists o. split; reflexivity.
  - unfold resolve_forwarded, bind, object_at in E. rewrite Hp in E. discriminate E.
Qed.

Lemma evacuate_object_oom_latch_witness :
  let w := set_trace [handle_out_of_memory_during_evacuation]
             (example_world (set_oom_during_evac true (worker 320)) []) in
  exists v w',
    evacuate_object example_heap_flags 1048640 w = Some (v, w') /\ w' = w.
Proof.
  intros w.
  destruct (evacuate_object example_heap_flags 1048640 w) as [[v w'] |] eqn:E;
    [| vm_compute in E; discriminate E].
  exists v, w'. split; [reflexivity |].
  refine (proj1 (proj2 (evacuate_object_oom_latch example_heap_flags 1048640 w v w' _ E) _)).
  - intros _. reflexivity.
  - left. reflexivity.
Defined.
